(** * A lazy, memoised, logged lifting-wavelet engine

    Shallow embedding of [vc2_wavelet_definitions.py],
    [logging_lazy_lists.py] and the chain builder and access drivers of
    [streaming_wavelet_toy.py].

    Python integers are unbounded, so they are [Z].  Python objects that
    are mutated through several references (the arrays, the call records
    shared by the call stack and the call log, the access records shared
    by a call record and the running access) live in explicit stores and
    are named by their position in the store. *)

From stdpp Require Import gmap strings list fin_maps pretty.
From Stdlib Require Import ZArith Lia.

Local Open Scope Z_scope.

(** * vc2_wavelet_definitions.py *)

(** [class WaveletFilters(IntEnum)] *)
Inductive WaveletFilters : Set :=
  | deslauriers_dubuc_9_7
  | le_gall_5_3
  | deslauriers_dubuc_13_7
  | haar_no_shift
  | haar_with_shift
  | fidelity
  | daubechies_9_7.

Definition WaveletFilters_value (w : WaveletFilters) : Z :=
  match w with
  | deslauriers_dubuc_9_7 => 0
  | le_gall_5_3 => 1
  | deslauriers_dubuc_13_7 => 2
  | haar_no_shift => 3
  | haar_with_shift => 4
  | fidelity => 5
  | daubechies_9_7 => 6
  end.

Definition WaveletFilters_of_value (z : Z) : option WaveletFilters :=
  match z with
  | 0 => Some deslauriers_dubuc_9_7
  | 1 => Some le_gall_5_3
  | 2 => Some deslauriers_dubuc_13_7
  | 3 => Some haar_no_shift
  | 4 => Some haar_with_shift
  | 5 => Some fidelity
  | 6 => Some daubechies_9_7
  | _ => None
  end.

#[global] Instance WaveletFilters_eq_dec : EqDecision WaveletFilters.
Proof. solve_decision. Defined.

#[global] Instance WaveletFilters_countable : Countable WaveletFilters.
Proof.
  apply (inj_countable WaveletFilters_value WaveletFilters_of_value).
  intros []; reflexivity.
Defined.

(** [class LiftingFilterTypes(IntEnum)] *)
Inductive LiftingFilterTypes : Set :=
  | even_add_odd
  | even_subtract_odd
  | odd_add_even
  | odd_subtract_even.

#[global] Instance LiftingFilterTypes_eq_dec : EqDecision LiftingFilterTypes.
Proof. solve_decision. Defined.

Definition LiftingFilterTypes_value (t : LiftingFilterTypes) : Z :=
  match t with
  | even_add_odd => 1
  | even_subtract_odd => 2
  | odd_add_even => 3
  | odd_subtract_even => 4
  end.

Definition update_even (t : LiftingFilterTypes) : bool :=
  match t with
  | even_add_odd | even_subtract_odd => true
  | _ => false
  end.

Definition add (t : LiftingFilterTypes) : bool :=
  match t with
  | even_add_odd | odd_add_even => true
  | _ => false
  end.

(** [class LiftingStage(NamedTuple)] *)
Module LiftingStage.
Record t : Set := mk {
  lift_type : LiftingFilterTypes;
  S : Z;          (* right shift to scale filter output values *)
  L : Z;          (* length of taps *)
  D : Z;          (* filter delay *)
  taps : list Z;  (* filter taps *)
}.
End LiftingStage.
Abbreviation LiftingStage := LiftingStage.t.
Abbreviation mkLiftingStage := LiftingStage.mk.

#[global] Instance LiftingStage_eq_dec : EqDecision LiftingStage.
Proof. solve_decision. Defined.

(** The dictionary literal inside [with_inverted_lift_type]. *)
Definition inverted_lift_type (t : LiftingFilterTypes) : LiftingFilterTypes :=
  match t with
  | even_add_odd => even_subtract_odd
  | even_subtract_odd => even_add_odd
  | odd_add_even => odd_subtract_even
  | odd_subtract_even => odd_add_even
  end.

Definition with_inverted_lift_type (self : LiftingStage) : LiftingStage :=
  mkLiftingStage (inverted_lift_type (LiftingStage.lift_type self))
                 (LiftingStage.S self) (LiftingStage.L self)
                 (LiftingStage.D self) (LiftingStage.taps self).

(** [SYNTHESIS_FILTERS], as the list of items of the dictionary literal. *)
Definition SYNTHESIS_FILTERS_items : list (WaveletFilters * list LiftingStage) :=
  [ (deslauriers_dubuc_9_7,
      [ mkLiftingStage even_subtract_odd 2 2 0 [1; 1];
        mkLiftingStage odd_add_even 4 4 (-1) [-1; 9; 9; -1] ]);
    (le_gall_5_3,
      [ mkLiftingStage even_subtract_odd 2 2 0 [1; 1];
        mkLiftingStage odd_add_even 1 2 0 [1; 1] ]);
    (deslauriers_dubuc_13_7,
      [ mkLiftingStage even_subtract_odd 5 4 (-1) [-1; 9; 9; -1];
        mkLiftingStage odd_add_even 4 4 (-1) [-1; 9; 9; -1] ]);
    (haar_no_shift,
      [ mkLiftingStage even_subtract_odd 1 1 1 [1];
        mkLiftingStage odd_add_even 0 1 0 [1] ]);
    (haar_with_shift,
      [ mkLiftingStage even_subtract_odd 1 1 1 [1];
        mkLiftingStage odd_add_even 0 1 0 [1] ]);
    (fidelity,
      [ mkLiftingStage odd_add_even 8 8 (-3) [-2; -10; -25; 81; 81; -25; 10; -2];
        mkLiftingStage even_subtract_odd 8 8 (-3) [-8; 21; -46; 161; 161; -46; 21; -8] ]);
    (daubechies_9_7,
      [ mkLiftingStage even_subtract_odd 12 2 0 [1817; 1817];
        mkLiftingStage odd_subtract_even 12 2 0 [3616; 3616];
        mkLiftingStage even_add_odd 12 2 0 [217; 217];
        mkLiftingStage odd_add_even 12 2 0 [6497; 6497] ]) ].

Definition SYNTHESIS_FILTERS : gmap WaveletFilters (list LiftingStage) :=
  list_to_map SYNTHESIS_FILTERS_items.

(** [ANALYSIS_FILTERS]: the dictionary comprehension over
    [SYNTHESIS_FILTERS.items()]. *)
Definition ANALYSIS_FILTERS : gmap WaveletFilters (list LiftingStage) :=
  (λ stages, with_inverted_lift_type <$> reverse stages) <$> SYNTHESIS_FILTERS.

(** * logging_lazy_lists.py *)

(** ** Exceptions and the state-and-exception monad *)

Inductive PyError : Set :=
  | IndexError            (* list index out of range, pop from empty list *)
  | KeyError              (* missing dictionary key *)
  | ValueError            (* negative shift count *)
  | NotImplementedError   (* [LoggingLazyList.compute_value] *)
  | AssertionError        (* the [assert] of [new_context] *)
  | RecursionError        (* the recursion budget ran out *)
  | DanglingReference.    (* a reference outside its store: no Python
                             program can build one; kept so that the
                             store lookups are total *)

#[global] Instance PyError_eq_dec : EqDecision PyError.
Proof. solve_decision. Defined.

Inductive Result (A : Type) : Type :=
  | Ok (a : A)
  | Raise (e : PyError).
Arguments Ok {A} a.
Arguments Raise {A} e.

Module AccessRecord.
Record t : Set := mk {
  array_name : string;
  index : Z;
  start_time : Z;
  end_time : option Z;
}.
End AccessRecord.

Module CallRecord.
Record t : Set := mk {
  array_name : string;
  index : Z;
  start_time : Z;
  end_time : option Z;
  access_log : list AccessRecord.t;
}.
End CallRecord.

#[global] Instance AccessRecord_eq_dec : EqDecision AccessRecord.t.
Proof. solve_decision. Defined.
#[global] Instance CallRecord_eq_dec : EqDecision CallRecord.t.
Proof. solve_decision. Defined.

(** [class AccessLogger].  [call_log] doubles as the store of the call
    records (every record is appended to it when it is created), and
    [_call_stack] holds references into it, outermost call first. *)
Record AccessLogger : Type := mkAccessLogger {
  _time : Z;
  _call_stack : list nat;
  call_log : list CallRecord.t;
  first_access_time : gmap (string * Z) Z;
  last_access_time : gmap (string * Z) Z;
}.

(** [AccessLogger.__init__] *)
Definition AccessLogger_init : AccessLogger :=
  mkAccessLogger 0 [] [] ∅ ∅.

(** What a [LoggingLazyList] object is: the base class, whose
    [compute_value] is not implemented, or a [LiftedLLL] with its
    [_source] (a reference to another array) and its [_lift]. *)
Inductive LLLClass : Set :=
  | BaseLLL
  | LiftedLLL (_source : nat) (_lift : LiftingStage).

(** [class LoggingLazyList]; [None] is the sentinel [Unknown()]. *)
Record LoggingLazyList : Set := mkLLL {
  name : string;
  _values : list (option Z);
  class_of : LLLClass;
}.

(** The state of a session: the logger and the store of arrays. *)
Record State : Type := mkState {
  logger : AccessLogger;
  heap : list LoggingLazyList;
}.

Definition M (A : Type) : Type := State → Result A * State.

Definition ret {A} (a : A) : M A := λ st, (Ok a, st).
Definition raise {A} (e : PyError) : M A := λ st, (Raise e, st).
Definition bind {A B} (m : M A) (k : A → M B) : M B :=
  λ st, match m st with
        | (Ok a, st') => k a st'
        | (Raise e, st') => (Raise e, st')
        end.

(** [try: body finally: fin]: [fin] runs on every exit of [body]; an
    exception of [fin] replaces the outcome of [body]. *)
Definition try_finally {A} (body : M A) (fin : M unit) : M A :=
  λ st, match body st with
        | (r, st') =>
            match fin st' with
            | (Ok _, st'') => (r, st'')
            | (Raise e, st'') => (Raise e, st'')
            end
        end.

Declare Scope py_scope.
Delimit Scope py_scope with py.
Notation "'let*' x ':=' m 'in' k" := (bind m (λ x, k))
  (at level 10, x pattern, m at level 100, k at level 200) : py_scope.
Notation "m ';;' k" := (bind m (λ _, k))
  (at level 100, k at level 200, right associativity) : py_scope.
Local Open Scope py_scope.

Definition get_logger : M AccessLogger := λ st, (Ok (logger st), st).
Definition put_logger (lg : AccessLogger) : M unit :=
  λ st, (Ok tt, mkState lg (heap st)).
Definition get_heap : M (list LoggingLazyList) := λ st, (Ok (heap st), st).
Definition put_heap (h : list LoggingLazyList) : M unit :=
  λ st, (Ok tt, mkState (logger st) h).

(** ** Python list indexing *)

(** The position [l[i]] addresses: indices from [-len(l)] to [-1] count
    from the end; anything else outside [0, len(l)) is an [IndexError]. *)
Definition py_index {A} (l : list A) (i : Z) : option nat :=
  let n := Z.of_nat (length l) in
  if decide (0 ≤ i < n) then Some (Z.to_nat i)
  else if decide (- n ≤ i < 0) then Some (Z.to_nat (n + i))
  else None.

Definition list_getitem {A} (l : list A) (i : Z) : M A :=
  match py_index l i with
  | Some p => match l !! p with
              | Some x => ret x
              | None => raise IndexError
              end
  | None => raise IndexError
  end.

Definition list_setitem {A} (l : list A) (i : Z) (x : A) : M (list A) :=
  match py_index l i with
  | Some p => ret (<[p := x]> l)
  | None => raise IndexError
  end.

(** ** AccessLogger *)

(** The property [AccessLogger.time]. *)
Definition time : M Z :=
  let* lg := get_logger in
  let t := _time lg + 1 in
  put_logger (mkAccessLogger t (_call_stack lg) (call_log lg)
                (first_access_time lg) (last_access_time lg)) ;;
  ret t.

Definition set_call_stack (stack : list nat) : M unit :=
  let* lg := get_logger in
  put_logger (mkAccessLogger (_time lg) stack (call_log lg)
                (first_access_time lg) (last_access_time lg)).

Definition set_call_log (log : list CallRecord.t) : M unit :=
  let* lg := get_logger in
  put_logger (mkAccessLogger (_time lg) (_call_stack lg) log
                (first_access_time lg) (last_access_time lg)).

(** Reading a call record through a reference. *)
Definition call_record_deref (c : nat) : M CallRecord.t :=
  let* lg := get_logger in
  match call_log lg !! c with
  | Some r => ret r
  | None => raise DanglingReference
  end.

(** [call_record.end_time = t] *)
Definition call_record_set_end_time (c : nat) (t : Z) : M unit :=
  let* r := call_record_deref c in
  let* lg := get_logger in
  set_call_log (<[c := CallRecord.mk (CallRecord.array_name r) (CallRecord.index r)
                         (CallRecord.start_time r) (Some t)
                         (CallRecord.access_log r)]> (call_log lg)).

(** [self._call_stack[-1].access_log.append(access_record)]; the result
    refers to the appended access record: the call record and the
    position in its access log. *)
Definition call_record_append_access (c : nat) (a : AccessRecord.t) : M (nat * nat) :=
  let* r := call_record_deref c in
  let* lg := get_logger in
  set_call_log (<[c := CallRecord.mk (CallRecord.array_name r) (CallRecord.index r)
                         (CallRecord.start_time r) (CallRecord.end_time r)
                         (CallRecord.access_log r ++ [a])]> (call_log lg)) ;;
  ret (c, length (CallRecord.access_log r)).

(** [access_record.end_time = t], for an access record that some call
    record holds. *)
Definition access_record_set_end_time (h : nat * nat) (t : Z) : M unit :=
  let* r := call_record_deref (h.1) in
  match CallRecord.access_log r !! h.2 with
  | Some a =>
      let* lg := get_logger in
      set_call_log (<[h.1 := CallRecord.mk (CallRecord.array_name r) (CallRecord.index r)
                         (CallRecord.start_time r) (CallRecord.end_time r)
                         (<[h.2 := AccessRecord.mk (AccessRecord.array_name a)
                                     (AccessRecord.index a)
                                     (AccessRecord.start_time a) (Some t)]>
                            (CallRecord.access_log r))]> (call_log lg))
  | None => raise DanglingReference
  end.

(** A generator-based context manager runs the code before its [yield]
    on entry and its [finally] block on every exit of the body. *)

(** [AccessLogger.new_context] up to the [yield]; the result is the
    reference to the new call record. *)
Definition new_context_enter (array_name : string) (index : Z) : M nat :=
  let* t := time in
  let* lg := get_logger in
  let call_record := length (call_log lg) in
  set_call_stack (_call_stack lg ++ [call_record]) ;;
  let* lg := get_logger in
  set_call_log (call_log lg ++ [CallRecord.mk array_name index t None []]) ;;
  ret call_record.

(** The [finally] block of [AccessLogger.new_context]. *)
Definition new_context_exit (call_record : nat) : M unit :=
  let* lg := get_logger in
  match last (_call_stack lg) with
  | None => raise IndexError
  | Some popped =>
      set_call_stack (removelast (_call_stack lg)) ;;
      let* r1 := call_record_deref popped in
      let* r2 := call_record_deref call_record in
      if decide (r1 = r2) then
        let* t := time in
        call_record_set_end_time call_record t
      else raise AssertionError
  end.

Definition new_context {A} (array_name : string) (index : Z) (body : M A) : M A :=
  let* call_record := new_context_enter array_name index in
  try_finally body (new_context_exit call_record).

(** [AccessLogger.log_access] up to the [yield]; the result refers to
    the access record when a call record holds it. *)
Definition log_access_enter (array_name : string) (index : Z) : M (option (nat * nat)) :=
  let* t := time in
  let access_record := AccessRecord.mk array_name index t None in
  let* lg := get_logger in
  match last (_call_stack lg) with
  | Some top => let* h := call_record_append_access top access_record in
               ret (Some h)
  | None => ret None
  end.

(** The [finally] block of [AccessLogger.log_access]. *)
Definition log_access_exit (array_name : string) (index : Z)
    (access_record : option (nat * nat)) : M unit :=
  let* t := time in
  match access_record with
  | Some h => access_record_set_end_time h t
  | None => ret tt
  end ;;
  let* lg := get_logger in
  let first :=
    match first_access_time lg !! (array_name, index) with
    | None => <[(array_name, index) := t]> (first_access_time lg)
    | Some _ => first_access_time lg
    end in
  put_logger (mkAccessLogger (_time lg) (_call_stack lg) (call_log lg)
                first (<[(array_name, index) := t]> (last_access_time lg))).

Definition log_access {A} (array_name : string) (index : Z) (body : M A) : M A :=
  let* access_record := log_access_enter array_name index in
  try_finally body (log_access_exit array_name index access_record).

(** ** LoggingLazyList and LiftedLLL *)

(** Following a reference to an array. *)
Definition deref (self : nat) : M LoggingLazyList :=
  let* h := get_heap in
  match h !! self with
  | Some a => ret a
  | None => raise DanglingReference
  end.

(** [LoggingLazyList.__init__]: creates the object and returns the
    reference to it.  [length_or_values] is an [int] ([inl]) or an
    iterable of values ([inr]). *)
Definition LoggingLazyList_init (name : string)
    (length_or_values : Z + list (option Z)) (cls : LLLClass) : M nat :=
  let _values :=
    match length_or_values with
    | inl n => replicate (Z.to_nat n) None
    | inr values => values
    end in
  let* h := get_heap in
  put_heap (h ++ [mkLLL name _values cls]) ;;
  ret (length h).

(** [LoggingLazyList.__len__] *)
Definition len (self : nat) : M Z :=
  let* a := deref self in
  ret (Z.of_nat (length (_values a))).

(** [LiftedLLL.__init__] *)
Definition LiftedLLL_init (name : string) (source : nat) (lift : LiftingStage) : M nat :=
  let* n := len source in
  LoggingLazyList_init name (inl n) (LiftedLLL source lift).

(** [self._values[index] = value] *)
Definition set_value (self : nat) (index : Z) (value : Z) : M unit :=
  let* a := deref self in
  let* vs := list_setitem (_values a) index (Some value) in
  let* h := get_heap in
  put_heap (<[self := mkLLL (name a) vs (class_of a)]> h).

(** The loop [for i in range(D, L + D)] of [LiftedLLL.compute_value],
    over the remaining values of [i], with the running [sum].  [read]
    is [self._source[...]], that is [__getitem__] of the source. *)
Fixpoint compute_value_loop (read : Z → M Z) (source : nat)
    (lift : LiftingStage) (index : Z) (range : list Z) (sum : Z) : M Z :=
  match range with
  | [] => ret sum
  | i :: range' =>
      let lift_type := LiftingStage.lift_type lift in
      let pos := index + (2 * i) - 1 in
      let* n := len source in
      let pos := Z.min pos (n - (if update_even lift_type then 1 else 2)) in
      let pos := Z.max pos (if update_even lift_type then 1 else 0) in
      let* tap := list_getitem (LiftingStage.taps lift) (i - LiftingStage.D lift) in
      let* v := read pos in
      compute_value_loop read source lift index range' (sum + tap * v)
  end.

(** [LiftedLLL.compute_value] *)
Definition LiftedLLL_compute_value (read : Z → M Z) (source : nat)
    (lift : LiftingStage) (index : Z) : M Z :=
  let lift_type := LiftingStage.lift_type lift in
  let S := LiftingStage.S lift in
  let L := LiftingStage.L lift in
  let D := LiftingStage.D lift in
  let even := bool_decide (index `mod` 2 = 0) in
  if bool_decide (update_even lift_type = even) then
    let* sum := compute_value_loop read source lift index (seqZ D L) 0 in
    let sum := if bool_decide (S > 0) then sum + Z.shiftl 1 (S - 1) else sum in
    let* sum := (if bool_decide (S < 0) then raise ValueError
                 else ret (Z.shiftr sum S)) in
    if add lift_type then
      let* v := read index in ret (v + sum)
    else
      let* v := read index in ret (v - sum)
  else
    read index.

(** [compute_value], dispatched on the class of [self]. *)
Definition compute_value (read : nat → Z → M Z) (self : nat) (index : Z) : M Z :=
  let* a := deref self in
  match class_of a with
  | BaseLLL => raise NotImplementedError
  | LiftedLLL source lift => LiftedLLL_compute_value (read source) source lift index
  end.

(** The body of the [with self._logger.log_access(...)] block of
    [LoggingLazyList.__getitem__]; [read] is [__getitem__] itself, for
    the reads of the source in [compute_value]. *)
Definition getitem_body (read : nat → Z → M Z) (self : nat) (index : Z) : M Z :=
  let* a := deref self in
  let* existing_value := list_getitem (_values a) index in
  match existing_value with
  | None =>
      let* value :=
        new_context (name a) index (compute_value read self index) in
      set_value self index value ;;
      ret value
  | Some v => ret v
  end.

(** [LoggingLazyList.__getitem__].  [fuel] bounds the depth of the
    recursion through the sources. *)
Fixpoint getitem (fuel : nat) (self : nat) (index : Z) : M Z :=
  match fuel with
  | O => raise RecursionError
  | S fuel' =>
      let* a := deref self in
      log_access (name a) index (getitem_body (getitem fuel') self index)
  end.

(** [LoggingLazyList.iter_current_values] *)
Definition iter_current_values (self : nat) : M (list (option Z)) :=
  let* a := deref self in
  ret (_values a).

(** [list(self)], through [LoggingLazyList.__iter__]:
    [for i in range(len(self)): yield self[i]]. *)
Fixpoint iter_loop (fuel : nat) (self : nat) (range : list Z) : M (list Z) :=
  match range with
  | [] => ret []
  | i :: range' =>
      let* v := getitem fuel self i in
      let* vs := iter_loop fuel self range' in
      ret (v :: vs)
  end.

Definition to_list (fuel : nat) (self : nat) : M (list Z) :=
  let* n := len self in
  iter_loop fuel self (seqZ 0 n).

(** * streaming_wavelet_toy.py *)

(** A dictionary subscript [d[key]]. *)
Definition dict_getitem {K} `{Countable K} {A} (d : gmap K A) (key : K) : M A :=
  match d !! key with
  | Some x => ret x
  | None => raise KeyError
  end.

(** The loop of [construct_lifted_arrays] over the remaining
    [(i, stage)] pairs of [enumerate(lifting_stages)]. *)
Fixpoint construct_lifted_arrays_loop (num_stages : Z)
    (intermediate_name_prefix final_name : string)
    (i : Z) (stages : list LiftingStage)
    (previous_array : nat) (out : list nat) : M (list nat) :=
  match stages with
  | [] => ret out
  | stage :: stages' =>
      let name :=
        if bool_decide (i ≠ num_stages - 1)
        then intermediate_name_prefix +:+ pretty (i + 1)
        else final_name in
      let* array := LiftedLLL_init name previous_array stage in
      construct_lifted_arrays_loop num_stages intermediate_name_prefix final_name
        (i + 1) stages' array (out ++ [array])
  end.

Definition construct_lifted_arrays (input_lll : nat)
    (lifting_stages : list LiftingStage)
    (intermediate_name_prefix final_name : string) : M (list nat) :=
  construct_lifted_arrays_loop (Z.of_nat (length lifting_stages))
    intermediate_name_prefix final_name 0 lifting_stages input_lll [].

Definition construct_all_arrays (input_values : list Z)
    (wavelet : WaveletFilters) : M (list nat) :=
  let arrays := [] in
  let* a := LoggingLazyList_init "Encoder Input" (inr (Some <$> input_values)) BaseLLL in
  let arrays := arrays ++ [a] in
  let* last_array := list_getitem arrays (-1) in
  let* stages := dict_getitem ANALYSIS_FILTERS wavelet in
  let* lifted :=
    construct_lifted_arrays last_array stages
      "Encode Intermediate " "Encode Out/Decode In" in
  let arrays := arrays ++ lifted in
  let* last_array := list_getitem arrays (-1) in
  let* stages := dict_getitem SYNTHESIS_FILTERS wavelet in
  let* lifted :=
    construct_lifted_arrays last_array stages
      "Decode Intermediate " "Decoder Output" in
  let arrays := arrays ++ lifted in
  ret arrays.

(** The statement [for x in xs: body x]. *)
Fixpoint for_each {A} (xs : list A) (body : A → M unit) : M unit :=
  match xs with
  | [] => ret tt
  | x :: xs' => body x ;; for_each xs' body
  end.

(** [delays.append(delays[-1] + stage.L)] for every stage. *)
Fixpoint append_delays (delays : list Z) (stages : list LiftingStage) : M (list Z) :=
  match stages with
  | [] => ret delays
  | stage :: stages' =>
      let* d := list_getitem delays (-1) in
      append_delays (delays ++ [d + LiftingStage.L stage]) stages'
  end.

(** [max(delays)] *)
Definition py_max (l : list Z) : M Z :=
  match l with
  | [] => raise ValueError
  | x :: l' => ret (foldl Z.max x l')
  end.

Definition access_like_chained_filters (fuel : nat) (arrays : list nat)
    (wavelet : WaveletFilters) : M unit :=
  let delays := [0] in
  let* stages := dict_getitem ANALYSIS_FILTERS wavelet in
  let* delays := append_delays delays stages in
  let* stages := dict_getitem SYNTHESIS_FILTERS wavelet in
  let* delays := append_delays delays stages in
  let* last_array := list_getitem arrays (-1) in
  let* n := len last_array in
  let* m := py_max delays in
  for_each (seqZ 0 (n + m)) (λ i,
    for_each (zip delays arrays) (λ '(delay, array),
      let* n := len array in
      if bool_decide (0 ≤ i - delay < n) then
        getitem fuel array (i - delay) ;; ret tt
      else ret tt)).

Definition access_on_demand_encode_then_decode (fuel : nat) (arrays : list nat)
    (wavelet : WaveletFilters) : M unit :=
  let* stages := dict_getitem ANALYSIS_FILTERS wavelet in
  let* array := list_getitem arrays (Z.of_nat (length stages)) in
  to_list fuel array ;;
  let* array := list_getitem arrays (-1) in
  to_list fuel array ;;
  ret tt.

Definition access_on_demand (fuel : nat) (arrays : list nat)
    (wavelet : WaveletFilters) : M unit :=
  let* array := list_getitem arrays (-1) in
  to_list fuel array ;;
  ret tt.

Definition access_like_block_filter (fuel : nat) (arrays : list nat)
    (wavelet : WaveletFilters) : M unit :=
  for_each arrays (λ array, to_list fuel array ;; ret tt).

(** The start of a session: [logger = AccessLogger()] and no array yet. *)
Definition initial_state : State := mkState AccessLogger_init [].

(** * Small runs of the model *)

Definition run_roundtrip (fuel : nat) (input_values : list Z)
    (wavelet : WaveletFilters) : Result (list Z) :=
  ((let* arrays := construct_all_arrays input_values wavelet in
    let* out := list_getitem arrays (-1) in
    to_list fuel out) initial_state).1.

(** * The values the arrays denote *)

(** The clamping of [LiftedLLL.compute_value]: [min] first, then [max],
    for a source of length [n]. *)
Definition clamp_pos (lift_type : LiftingFilterTypes) (n pos : Z) : Z :=
  let pos := Z.min pos (n - (if update_even lift_type then 1 else 2)) in
  Z.max pos (if update_even lift_type then 1 else 0).

(** The filter sum after the loop of [compute_value], when the source
    holds the values [src]. *)
Definition lift_sum (lift : LiftingStage) (src : list Z) (index : Z) : Z :=
  foldl (λ sum i,
           sum + (LiftingStage.taps lift !!! Z.to_nat (i - LiftingStage.D lift))
                 * (src !!! Z.to_nat
                      (clamp_pos (LiftingStage.lift_type lift)
                         (Z.of_nat (length src)) (index + 2 * i - 1))))
        0 (seqZ (LiftingStage.D lift) (LiftingStage.L lift)).

(** The rounding and the shift that follow the loop. *)
Definition round_shift (S sum : Z) : Z :=
  Z.shiftr (if bool_decide (S > 0) then sum + Z.shiftl 1 (S - 1) else sum) S.

(** The value [compute_value] returns for slot [index], when the source
    holds the values [src]. *)
Definition lift_value (lift : LiftingStage) (src : list Z) (index : Z) : Z :=
  let lift_type := LiftingStage.lift_type lift in
  if bool_decide (update_even lift_type = bool_decide (index `mod` 2 = 0)) then
    let sum := round_shift (LiftingStage.S lift) (lift_sum lift src index) in
    if add lift_type then src !!! Z.to_nat index + sum
    else src !!! Z.to_nat index - sum
  else src !!! Z.to_nat index.

(** All the values of a lifted array whose source holds [src]. *)
Definition lift_list (lift : LiftingStage) (src : list Z) : list Z :=
  lift_value lift src <$> seqZ 0 (Z.of_nat (length src)).

(** The values of the arrays [construct_lifted_arrays] builds over a
    source that holds [src], one list per stage. *)
Fixpoint chain_values (src : list Z) (stages : list LiftingStage) : list (list Z) :=
  match stages with
  | [] => []
  | stage :: stages' =>
      let d := lift_list stage src in d :: chain_values d stages'
  end.

(** ** The lifting stage in the words of the specification *)

Definition spec_clamp (lo hi pos : Z) : Z :=
  if bool_decide (pos < lo) then lo
  else if bool_decide (hi < pos) then hi
  else pos.

(** [Σ_{k=0..L-1} taps[k] * source[clamp(i + 2*(k+D) - 1)]] *)
Fixpoint spec_sum (taps : list Z) (src : Z → Z) (lo hi D i : Z) (k : Z) : Z :=
  match taps with
  | [] => 0
  | tap :: taps' =>
      tap * src (spec_clamp lo hi (i + 2 * (k + D) - 1))
      + spec_sum taps' src lo hi D i (k + 1)
  end.

Definition spec_lift (lift : LiftingStage) (n : Z) (src : Z → Z) (i : Z) : Z :=
  let kind := LiftingStage.lift_type lift in
  let S := LiftingStage.S lift in
  let rewrites_even := update_even kind in
  if bool_decide (Z.even i = rewrites_even) then
    let lo := if rewrites_even then 1 else 0 in
    let hi := if rewrites_even then n - 1 else n - 2 in
    let sum := spec_sum (LiftingStage.taps lift) src lo hi (LiftingStage.D lift) i 0 in
    let r := if bool_decide (S = 0) then sum else (sum + 2 ^ (S - 1)) ≫ S in
    if add kind then src i + r else src i - r
  else src i.

(** * Invariants of a session *)

(** What never changes in a call record once it is complete: everything
    but its access log. *)
Definition call_head (r : CallRecord.t) : string * Z * Z * option Z :=
  (CallRecord.array_name r, CallRecord.index r,
   CallRecord.start_time r, CallRecord.end_time r).

Definition call_heads (lg : AccessLogger) : list (string * Z * Z * option Z) :=
  call_head <$> call_log lg.

Definition access_lens (lg : AccessLogger) : list nat :=
  (λ r, length (CallRecord.access_log r)) <$> call_log lg.

(** What never changes in an array: its name, its class, its length. *)
Definition shape_of (a : LoggingLazyList) : string * LLLClass * nat :=
  (name a, class_of a, length (_values a)).

Definition heap_shape (st : State) : list (string * LLLClass * nat) :=
  shape_of <$> heap st.

Definition access_time_ok (now : Z) (a : AccessRecord.t) : Prop :=
  AccessRecord.start_time a ≤ now ∧
  ∀ e, AccessRecord.end_time a = Some e → AccessRecord.start_time a < e ≤ now.

Definition call_time_ok (now : Z) (r : CallRecord.t) : Prop :=
  CallRecord.start_time r ≤ now ∧
  (∀ e, CallRecord.end_time r = Some e → CallRecord.start_time r < e ≤ now) ∧
  Forall (access_time_ok now) (CallRecord.access_log r).

(** Every logged timestamp was read from the clock, and every record
    that has an end time started before it. *)
Definition times_ok (lg : AccessLogger) : Prop :=
  Forall (call_time_ok (_time lg)) (call_log lg).

(** Every frame of the call stack refers to a call record. *)
Definition stack_ok (lg : AccessLogger) : Prop :=
  Forall (λ c, (c < length (call_log lg))%nat) (_call_stack lg).

(** The call log grew by complete call records only. *)
Definition heads_extend (hs hs' : list (string * Z * Z * option Z)) : Prop :=
  ∃ K, hs' = hs ++ K ∧ Forall (λ hd, is_Some hd.2) K.

(** What a complete read, whatever its outcome, leaves in place. *)
Record frame (st st' : State) : Prop := mkFrame {
  frame_stack : _call_stack (logger st') = _call_stack (logger st);
  frame_time : _time (logger st) ≤ _time (logger st');
  frame_heads : heads_extend (call_heads (logger st)) (call_heads (logger st'));
  frame_access : ∀ c n, access_lens (logger st) !! c = Some n →
                 ∃ n', access_lens (logger st') !! c = Some n' ∧ (n ≤ n')%nat;
  frame_shape : heap_shape st' = heap_shape st;
  frame_times_ok : times_ok (logger st) → times_ok (logger st');
}.

(** A computation that keeps the frame and never fails the assertion of
    [new_context]. *)
Definition framed {A} (m : M A) : Prop :=
  ∀ st, frame st (m st).2 ∧ (m st).1 ≠ Raise AssertionError.

(** ** The values in the store *)

(** A stage the loop of [compute_value] can run: a shift that is not
    negative and a tap for each of the [L] rounds. *)
Definition stage_ok (lift : LiftingStage) : Prop :=
  0 ≤ LiftingStage.S lift ∧
  LiftingStage.L lift ≤ Z.of_nat (length (LiftingStage.taps lift)).

(** The value slot [j] of array [b] holds, if it is resolved. *)
Definition slot (st : State) (b : nat) (j : nat) : option Z :=
  arr ← heap st !! b; v ← _values arr !! j; v.

(** Array [a] of the store agrees with the table [D] of the values the
    arrays denote: a base array holds its values, a lifted array has
    an earlier array as its source and every slot it has resolved holds
    the lifted value. *)
Definition array_denotes (D : list (list Z)) (a : nat) (arr : LoggingLazyList) : Prop :=
  ∃ d, D !! a = Some d ∧
       length (_values arr) = length d ∧
       (∀ j v, _values arr !! j = Some (Some v) → d !! j = Some v) ∧
       match class_of arr with
       | BaseLLL => _values arr = Some <$> d
       | LiftedLLL source lift =>
           (source < a)%nat ∧ stage_ok lift ∧
           ∃ ds, D !! source = Some ds ∧ (2 ≤ length ds)%nat ∧
                 d = lift_list lift ds
       end.

Definition heap_denotes (D : list (list Z)) (h : list LoggingLazyList) : Prop :=
  length D = length h ∧
  ∀ a arr, h !! a = Some arr → array_denotes D a arr.

(** The [(array_name, index)] of the call records that have an end
    time, in the order of the call log. *)
Definition completed_keys (lg : AccessLogger) : list (string * Z) :=
  omap (λ r, match CallRecord.end_time r with
             | Some _ => Some (CallRecord.array_name r, CallRecord.index r)
             | None => None
             end) (call_log lg).

(** The same key, from the head of a call record. *)
Definition head_key (hd : string * Z * Z * option Z) : option (string * Z) :=
  match hd with
  | (nm, i, _, Some _) => Some (nm, i)
  | (_, _, _, None) => None
  end.

(** The [(name, index)] of the resolved slots among [vs], the slots of
    an array from index [j] on. *)
Fixpoint keys_from (nm : string) (j : Z) (vs : list (option Z)) : list (string * Z) :=
  match vs with
  | [] => []
  | v :: vs' =>
      match v with
      | Some _ => (nm, j) :: keys_from nm (j + 1) vs'
      | None => keys_from nm (j + 1) vs'
      end
  end.

Definition slot_keys (arr : LoggingLazyList) : list (string * Z) :=
  match class_of arr with
  | BaseLLL => []
  | LiftedLLL _ _ => keys_from (name arr) 0 (_values arr)
  end.

(** The [(name, index)] of every resolved slot of every lifted array. *)
Definition resolved_keys (h : list LoggingLazyList) : list (string * Z) :=
  h ≫= slot_keys.

(** The invariant of a session whose arrays denote the table [D]:
    besides [heap_denotes], the call stack is sound and there is one
    completed call record per computed slot. *)
Definition Inv (D : list (list Z)) (st : State) : Prop :=
  heap_denotes D (heap st) ∧
  stack_ok (logger st) ∧
  completed_keys (logger st) ≡ₚ resolved_keys (heap st).

(** Arrays after [a] are untouched. *)
Definition heap_above (a : nat) (st st' : State) : Prop :=
  ∀ b, (a < b)%nat → heap st' !! b = heap st !! b.

(** A resolved slot stays resolved, with its value. *)
Definition resolved_mono (st st' : State) : Prop :=
  ∀ b j v, slot st b j = Some v → slot st' b j = Some v.

(** What a read of array [a] that succeeds leaves behind. *)
Definition good (D : list (list Z)) (a : nat) (st st' : State) : Prop :=
  Inv D st' ∧ frame st st' ∧ heap_above a st st' ∧ resolved_mono st st'.

(** [m] returns [v] from [st] and leaves a good state. *)
Definition returns {A} (D : list (list Z)) (a : nat) (m : M A) (v : A) (st : State) : Prop :=
  ∃ st', m st = (Ok v, st') ∧ good D a st st'.

(** A step of the logger alone that keeps the stack and the heads of
    the call records. *)
Definition quiet (st st' : State) : Prop :=
  heap st' = heap st ∧
  _call_stack (logger st') = _call_stack (logger st) ∧
  call_heads (logger st') = call_heads (logger st).

(** The running access refers to an access record of the call log. *)
Definition held_ok (access_record : option (nat * nat)) (st : State) : Prop :=
  match access_record with
  | Some (c, p) => ∃ n, access_lens (logger st) !! c = Some n ∧ (p < n)%nat
  | None => True
  end.

(** ** The chain [construct_all_arrays] builds *)

(** The values of the last array of a chain over [src]. *)
Definition chain_last (src : list Z) (stages : list LiftingStage) : list Z :=
  foldl (λ d stage, lift_list stage d) src stages.

(** The name [construct_lifted_arrays] gives to the array of stage [i]. *)
Definition stage_name (num_stages : Z) (intermediate_name_prefix final_name : string)
    (i : Z) : string :=
  if bool_decide (i ≠ num_stages - 1)
  then intermediate_name_prefix +:+ pretty (i + 1)
  else final_name.

(** The arrays [construct_lifted_arrays] appends to the store, from
    stage [i] on: nothing resolved, each over the array before it. *)
Fixpoint lifted_arrays (num_stages : Z) (intermediate_name_prefix final_name : string)
    (i : Z) (stages : list LiftingStage) (source : nat) (n : nat)
    : list LoggingLazyList :=
  match stages with
  | [] => []
  | stage :: stages' =>
      mkLLL (stage_name num_stages intermediate_name_prefix final_name i)
            (replicate n None) (LiftedLLL source stage)
      :: lifted_arrays num_stages intermediate_name_prefix final_name
           (i + 1) stages' (S source) n
  end.

(** The store after [construct_all_arrays]. *)
Definition all_arrays (input_values : list Z)
    (analysis synthesis : list LiftingStage) : list LoggingLazyList :=
  mkLLL "Encoder Input" (Some <$> input_values) BaseLLL
  :: lifted_arrays (Z.of_nat (length analysis))
       "Encode Intermediate " "Encode Out/Decode In" 0 analysis 0
       (length input_values)
  ++ lifted_arrays (Z.of_nat (length synthesis))
       "Decode Intermediate " "Decoder Output" 0 synthesis (length analysis)
       (length input_values).

(** The stages of the whole chain of a wavelet: analysis, then synthesis. *)
Definition chain_stages (wavelet : WaveletFilters) : list LiftingStage :=
  default [] (ANALYSIS_FILTERS !! wavelet) ++ default [] (SYNTHESIS_FILTERS !! wavelet).

(** The table of the values the arrays of a chain denote. *)
Definition chain_table (input_values : list Z) (stages : list LiftingStage)
    : list (list Z) :=
  input_values :: chain_values input_values stages.

(** A store that holds a chain over [input_values]: the input array,
    then one lifted array per stage over the array before it. *)
Definition chain_shape (input_values : list Z) (stages : list LiftingStage)
    (h : list LoggingLazyList) : Prop :=
  length h = S (length stages) ∧
  (∃ nm, h !! 0%nat = Some (mkLLL nm (Some <$> input_values) BaseLLL)) ∧
  ∀ k stage, stages !! k = Some stage →
    ∃ arr, h !! S k = Some arr ∧ class_of arr = LiftedLLL k stage ∧
           _values arr = replicate (length input_values) None.

(** The value the table [D] gives for slot [i] of array [a]. *)
Definition table_value (D : list (list Z)) (a : nat) (i : Z) : Z :=
  (D !!! a) !!! Z.to_nat i.

(** ** Evaluation orders *)

(** A driver that forces the reads [reads], pairs of an array and an
    index, in their order. *)
Fixpoint run_reads (fuel : nat) (reads : list (nat * Z)) : M (list Z) :=
  match reads with
  | [] => ret []
  | (array, index) :: reads' =>
      let* v := getitem fuel array index in
      let* vs := run_reads fuel reads' in
      ret (v :: vs)
  end.

(** The reads are of arrays of a store of [num] arrays of length [n],
    at indices from [0] to [n - 1]. *)
Definition reads_in_range (num : nat) (n : Z) (reads : list (nat * Z)) : Prop :=
  Forall (λ r, (r.1 < num)%nat ∧ 0 ≤ r.2 < n) reads.

(** The session of the command line: a fresh logger, the chain of the
    wavelet over the input, then the reads. *)
Definition session (fuel : nat) (input_values : list Z) (wavelet : WaveletFilters)
    (reads : list (nat * Z)) : Result (list Z) * State :=
  (construct_all_arrays input_values wavelet ;; run_reads fuel reads) initial_state.

(** Every slot of array [a] is resolved, with the value of the table. *)
Definition resolved_all (D : list (list Z)) (n : Z) (a : nat) (st : State) : Prop :=
  ∀ j, 0 ≤ j < n → slot st a (Z.to_nat j) = Some (table_value D a j).

(** The computation orders of the command line ([--order]). *)
Inductive Order : Set :=
  | block
  | chained
  | lazy
  | lazy_two_steps.

Definition access (order : Order) (fuel : nat) (arrays : list nat)
    (wavelet : WaveletFilters) : M unit :=
  match order with
  | block => access_like_block_filter fuel arrays wavelet
  | chained => access_like_chained_filters fuel arrays wavelet
  | lazy => access_on_demand fuel arrays wavelet
  | lazy_two_steps => access_on_demand_encode_then_decode fuel arrays wavelet
  end.

(** A run of the command line up to the display: the chain, the access
    driver of the order, and then the current values of the last array. *)
Definition run_order (fuel : nat) (order : Order) (input_values : list Z)
    (wavelet : WaveletFilters) : Result (list (option Z)) :=
  ((let* arrays := construct_all_arrays input_values wavelet in
    access order fuel arrays wavelet ;;
    let* out := list_getitem arrays (-1) in
    iter_current_values out) initial_state).1.

(** The delays [access_like_chained_filters] accumulates. *)
Definition extend_delays (delays : list Z) (stages : list LiftingStage) : list Z :=
  foldl (λ ds stage, ds ++ [default 0 (last ds) + LiftingStage.L stage]) delays stages.

(** A chain over any list of stages, built with the constructors of the
    source the way [construct_all_arrays] builds the chain of a wavelet. *)
Definition construct_chain (input_values : list Z)
    (stages : list LiftingStage) : M (list nat) :=
  let* a := LoggingLazyList_init "Input" (inr (Some <$> input_values)) BaseLLL in
  let* lifted := construct_lifted_arrays a stages "Intermediate " "Output" in
  ret (a :: lifted).

(** A session over such a chain. *)
Definition chain_session (fuel : nat) (input_values : list Z)
    (stages : list LiftingStage) (reads : list (nat * Z)) : Result (list Z) * State :=
  (construct_chain input_values stages ;; run_reads fuel reads) initial_state.

(** The computation-count probe: the number of call records of the log
    for slot [index] of the array called [array_name]. *)
Definition computations (lg : AccessLogger) (array_name : string) (index : Z) : nat :=
  length (filter (λ r, CallRecord.array_name r = array_name
                       ∧ CallRecord.index r = index) (call_log lg)).

(** ** The access times *)

(** The clock has not run backwards from [0], the two maps of access
    times have the same keys, and for each key the first time is a tick
    of the clock, at most the last time, which is at most the clock. *)
Definition access_times_ok (lg : AccessLogger) : Prop :=
  0 ≤ _time lg ∧
  ∀ key, match first_access_time lg !! key, last_access_time lg !! key with
         | Some t, Some t' => 0 < t ∧ t ≤ t' ∧ t' ≤ _time lg
         | None, None => True
         | _, _ => False
         end.

(** What any run of the engine does to the access times: the clock
    does not go back, a first access time stays, a new one is later
    than the clock was, and [access_times_ok] is kept. *)
Record stamps (st st' : State) : Prop := mkStamps {
  stamps_time : _time (logger st) ≤ _time (logger st');
  stamps_first : ∀ key t, first_access_time (logger st) !! key = Some t →
                 first_access_time (logger st') !! key = Some t;
  stamps_new : ∀ key t, first_access_time (logger st) !! key = None →
               first_access_time (logger st') !! key = Some t →
               _time (logger st) < t;
  stamps_ok : access_times_ok (logger st) → access_times_ok (logger st');
}.

Definition stamped {A} (m : M A) : Prop := ∀ st, stamps st (m st).2.

(** ** The sources of the resolved slots *)

(** Each resolved slot of a lifted array has the slot of the same
    position resolved in its source. *)
Definition source_closed (st : State) : Prop :=
  ∀ a arr source lift j,
    heap st !! a = Some arr → class_of arr = LiftedLLL source lift →
    is_Some (slot st a j) → is_Some (slot st source j).

(** What any run of the engine does to the store: the shapes stay, a
    resolved slot stays resolved, and [source_closed] is kept. *)
Record grows (st st' : State) : Prop := mkGrows {
  grows_shape : heap_shape st' = heap_shape st;
  grows_mono : ∀ b j, is_Some (slot st b j) → is_Some (slot st' b j);
  grows_closed : source_closed st → source_closed st';
}.

Definition growing {A} (m : M A) : Prop := ∀ st, grows st (m st).2.

(** When [m] returns, slot [i] of array [b] is resolved. *)
Definition resolving {A} (b : nat) (i : Z) (m : M A) : Prop :=
  ∀ st v st', m st = (Ok v, st') → is_Some (slot st' b (Z.to_nat i)).

(** ** The data model of the filter tables *)

(** [L] is the length of [taps] (the comment of the field in
    [LiftingStage]), there is a tap, and the shift is not negative. *)
Definition stage_well_formed (lift : LiftingStage) : Prop :=
  LiftingStage.L lift = Z.of_nat (length (LiftingStage.taps lift)) ∧
  0 < LiftingStage.L lift ∧ 0 ≤ LiftingStage.S lift.

(** ** The arrays a read can change *)

(** The source of a lifted array is an earlier array of the store. *)
Definition sources_below (st : State) : Prop :=
  ∀ b arr source lift,
    heap st !! b = Some arr → class_of arr = LiftedLLL source lift →
    (source < b)%nat.

(** The arrays from [a] on are untouched. *)
Definition heap_from (a : nat) (st st' : State) : Prop :=
  ∀ b, (a ≤ b)%nat → heap st' !! b = heap st !! b.

(** [m] changes arrays before [a] only, and keeps the sources below. *)
Definition local_from {A} (a : nat) (m : M A) : Prop :=
  ∀ st, sources_below st → heap_from a st (m st).2 ∧ sources_below (m st).2.

(** ** The reads a computation logs *)

Definition is_ok {A} (r : Result A) : bool :=
  match r with
  | Ok _ => true
  | Raise _ => false
  end.

(** The [(array_name, index)] of the accesses a call record lists. *)
Definition access_keys (r : CallRecord.t) : list (string * Z) :=
  (λ acc, (AccessRecord.array_name acc, AccessRecord.index acc))
    <$> CallRecord.access_log r.

Definition call_key (r : CallRecord.t) : string * Z :=
  (CallRecord.array_name r, CallRecord.index r).

(** The access a read of array [b] at [pos] logs, in a store of shape
    [sh]. *)
Definition read_key (sh : list (string * LLLClass * nat)) (b : nat) (pos : Z)
    : list (string * Z) :=
  match sh !! b with
  | Some (nm, _, _) => [(nm, pos)]
  | None => []
  end.

(** The reads [compute_value] makes for slot [index] of an array of
    class [cls]: for a lifted array whose stage updates the parity of
    [index], the [L] clamped positions of the source, and in any case
    [index] itself in the source. *)
Definition expected_reads (sh : list (string * LLLClass * nat)) (cls : LLLClass)
    (index : Z) : list (string * Z) :=
  match cls with
  | BaseLLL => []
  | LiftedLLL source lift =>
      match sh !! source with
      | None => []
      | Some (nm, _, n) =>
          (if bool_decide (update_even (LiftingStage.lift_type lift)
                           = bool_decide (index `mod` 2 = 0))
           then (λ i, (nm, clamp_pos (LiftingStage.lift_type lift) (Z.of_nat n)
                             (index + 2 * i - 1)))
                  <$> seqZ (LiftingStage.D lift) (LiftingStage.L lift)
           else [])
          ++ [(nm, index)]
      end
  end.

(** All of the expected reads, or the first of them when the
    computation raised. *)
Definition matches (exact : bool) (K KE : list (string * Z)) : Prop :=
  if exact then K = KE else K `prefix_of` KE.

(** The call record is for an array of the store and lists the reads
    of its computation. *)
Definition record_ok (sh : list (string * LLLClass * nat)) (exact : bool)
    (r : CallRecord.t) : Prop :=
  ∃ a cls n, sh !! a = Some (CallRecord.array_name r, cls, n) ∧
             matches exact (access_keys r)
               (expected_reads sh cls (CallRecord.index r)).

(** What a run leaves in the call log: the call record [c], if any,
    has the accesses [K] appended, no other call record of before has
    a new access, and each new call record lists the reads of its
    computation. *)
Record appended (sh : list (string * LLLClass * nat)) (c : option nat)
    (K : list (string * Z)) (exact : bool) (st st' : State) : Prop := mkAppended {
  ap_stack : _call_stack (logger st') = _call_stack (logger st);
  ap_shape : heap_shape st' = heap_shape st;
  ap_old : ∀ c' r, call_log (logger st) !! c' = Some r →
           ∃ r', call_log (logger st') !! c' = Some r' ∧
                 call_key r' = call_key r ∧
                 access_keys r' = access_keys r
                                  ++ (if decide (c = Some c') then K else []);
  ap_new : ∀ c' r', (length (call_log (logger st)) ≤ c')%nat →
           call_log (logger st') !! c' = Some r' → record_ok sh exact r';
}.

(** [m], run under the call record on top of the stack, logs the
    accesses [K], or the first of them when it raises. *)
Definition traced {A} (sh : list (string * LLLClass * nat))
    (K : list (string * Z)) (m : M A) : Prop :=
  ∀ st, heap_shape st = sh → stack_ok (logger st) →
    ∃ K', appended sh (last (_call_stack (logger st))) K'
            (is_ok (m st).1) st (m st).2 ∧
          matches (is_ok (m st).1) K' K.

(** [m], run outside any computation, leaves a call log in which
    each new call record lists the reads of its computation. *)
Definition recorded {A} (sh : list (string * LLLClass * nat)) (m : M A) : Prop :=
  ∀ st, heap_shape st = sh → _call_stack (logger st) = [] →
    appended sh None [] (is_ok (m st).1) st (m st).2.

(** ** The times of the computations *)

(** The head of a new call record: it started after [t0], it has ended,
    after its start and by [t1], and it is for one of the first [bound]
    arrays of the store. *)
Definition in_window (sh : list (string * LLLClass * nat)) (bound : nat)
    (t0 t1 : Z) (hd : string * Z * Z * option Z) : Prop :=
  t0 < hd.1.2 ∧
  (∃ e, hd.2 = Some e ∧ hd.1.2 < e ∧ e ≤ t1) ∧
  ∃ b cls n, (b < bound)%nat ∧ sh !! b = Some (hd.1.1.1, cls, n).

(** Of two call records for the same array, the earlier has ended
    before the later starts. *)
Definition sequential (K : list (string * Z * Z * option Z)) : Prop :=
  ∀ i j hi hj, (i < j)%nat → K !! i = Some hi → K !! j = Some hj →
               hi.1.1.1 = hj.1.1.1 → ∃ e, hi.2 = Some e ∧ e < hj.1.2.

(** What a run does to the call log, in time: the call records of
    before keep their heads, and the new ones lie in the window of the
    run, are for the first [bound] arrays, and are sequential. *)
Record windowed (sh : list (string * LLLClass * nat)) (bound : nat)
    (st st' : State) : Prop := mkWindowed {
  w_stack : _call_stack (logger st') = _call_stack (logger st);
  w_shape : heap_shape st' = heap_shape st;
  w_time : _time (logger st) ≤ _time (logger st');
  w_heads : ∃ K, call_heads (logger st') = call_heads (logger st) ++ K ∧
                 Forall (in_window sh bound (_time (logger st))
                           (_time (logger st'))) K ∧
                 sequential K;
}.

Definition timed {A} (sh : list (string * LLLClass * nat)) (bound : nat)
    (m : M A) : Prop :=
  ∀ st, heap_shape st = sh → stack_ok (logger st) →
    windowed sh bound st (m st).2.

(** The names of the arrays are pairwise different and the source of a
    lifted array is an earlier array. *)
Definition shape_ok (sh : list (string * LLLClass * nat)) : Prop :=
  NoDup ((λ s, s.1.1) <$> sh) ∧
  ∀ b nm source lift n, sh !! b = Some (nm, LiftedLLL source lift, n) →
                        (source < b)%nat.

(** No two computations of slots of the same array overlap in time:
    of two call records for the same array, the earlier of the log has
    ended before the later starts. *)
Definition never_overlap (lg : AccessLogger) : Prop :=
  ∀ c1 c2 r1 r2, (c1 < c2)%nat →
    call_log lg !! c1 = Some r1 → call_log lg !! c2 = Some r2 →
    CallRecord.array_name r1 = CallRecord.array_name r2 →
    ∃ e, CallRecord.end_time r1 = Some e ∧ e < CallRecord.start_time r2.

(** ** The ticks of the clock *)

(** The number of access records in the call log. *)
Definition accesses_logged (lg : AccessLogger) : nat :=
  sum_list_with (λ r, length (CallRecord.access_log r)) (call_log lg).

(** The ticks of the clock that no record of the call log accounts
    for, at two ticks for a call record and two for an access record. *)
Definition clock_surplus (lg : AccessLogger) : Z :=
  _time lg - 2 * Z.of_nat (length (call_log lg)) - 2 * Z.of_nat (accesses_logged lg).

(** [m], run inside a computation, leaves the surplus as it was. *)
Definition balanced {A} (m : M A) : Prop :=
  ∀ st, stack_ok (logger st) → _call_stack (logger st) ≠ [] →
        clock_surplus (logger (m st).2) = clock_surplus (logger st).

(** [m] leaves the surplus as it was, inside a computation or not. *)
Definition neutral {A} (m : M A) : Prop :=
  ∀ st, stack_ok (logger st) →
        clock_surplus (logger (m st).2) = clock_surplus (logger st).

(** * Tactics *)

(** Reduces the projections of the state and the monadic plumbing. *)
Ltac proj :=
  cbn [logger heap _time _call_stack call_log first_access_time
       last_access_time fst snd name _values class_of].
Ltac proj_in H :=
  cbn [logger heap _time _call_stack call_log first_access_time
       last_access_time fst snd name _values class_of] in H.

(** * Theorems *)

(** ** The filter table *)

Lemma SYNTHESIS_FILTERS_total (w : WaveletFilters) :
  is_Some (SYNTHESIS_FILTERS !! w).
Proof. destruct w; vm_compute; eauto. Qed.

Lemma ANALYSIS_FILTERS_lookup (w : WaveletFilters) :
  ANALYSIS_FILTERS !! w =
  (λ stages, with_inverted_lift_type <$> reverse stages) <$> (SYNTHESIS_FILTERS !! w).
Proof. unfold ANALYSIS_FILTERS. apply lookup_fmap. Qed.

Lemma inverted_lift_type_involutive (t : LiftingFilterTypes) :
  inverted_lift_type (inverted_lift_type t) = t.
Proof. by destruct t. Qed.

Lemma with_inverted_lift_type_twice (s : LiftingStage) :
  with_inverted_lift_type (with_inverted_lift_type s) = s.
Proof.
  destruct s as [t S L D taps]. unfold with_inverted_lift_type. simpl.
  by rewrite inverted_lift_type_involutive.
Qed.

Lemma update_even_inverted (t : LiftingFilterTypes) :
  update_even (inverted_lift_type t) = update_even t.
Proof. by destruct t. Qed.

Lemma add_inverted (t : LiftingFilterTypes) :
  add (inverted_lift_type t) = negb (add t).
Proof. by destruct t. Qed.

(** ** Runs of the model on small inputs *)

Example le_gall_roundtrip :
  run_roundtrip 10 [1; 2; 3; 4] le_gall_5_3 = Ok [1; 2; 3; 4].
Proof. by vm_compute. Qed.

Example le_gall_encoded :
  (session 10 [1; 2; 3; 4] le_gall_5_3
     [(2%nat, 0); (2%nat, 1); (2%nat, 2); (2%nat, 3)]).1
  = Ok [1; 0; 3; 1].
Proof. by vm_compute. Qed.

Example le_gall_length_two :
  (session 10 [5; 9] le_gall_5_3 [(1%nat, 0); (1%nat, 1); (2%nat, 0); (2%nat, 1)]).1
  = Ok [5; 4; 7; 4].
Proof. by vm_compute. Qed.

Example chained_order_output :
  run_order 10 chained [7; 1; 8; 2; 8; 1] daubechies_9_7
  = Ok [Some 7; Some 1; Some 8; Some 2; Some 8; Some 1].
Proof. by vm_compute. Qed.

Example length_one_fails :
  run_roundtrip 10 [5] le_gall_5_3 = Raise IndexError.
Proof. by vm_compute. Qed.

Example call_log_after_one_read :
  computations (logger (session 10 [5; 9] haar_no_shift [(4%nat, 0)]).2)
    "Decoder Output" 0 = 1%nat ∧
  length (call_log (logger (session 10 [5; 9] haar_no_shift [(4%nat, 0)]).2)) = 6%nat.
Proof. by vm_compute. Qed.

(** ** The frame of a read *)

Lemma heads_extend_refl (hs : list (string * Z * Z * option Z)) :
  heads_extend hs hs.
Proof. exists []. by rewrite app_nil_r. Qed.

Lemma heads_extend_trans (hs1 hs2 hs3 : list (string * Z * Z * option Z)) :
  heads_extend hs1 hs2 → heads_extend hs2 hs3 → heads_extend hs1 hs3.
Proof.
  intros (K1 & -> & H1) (K2 & -> & H2). exists (K1 ++ K2).
  split; [by rewrite app_assoc | by apply Forall_app].
Qed.

Lemma heads_extend_length (hs hs' : list (string * Z * Z * option Z)) :
  heads_extend hs hs' → (length hs ≤ length hs')%nat.
Proof. intros (K & -> & _). rewrite length_app. lia. Qed.

Lemma frame_refl (st : State) : frame st st.
Proof.
  split; try done; [apply heads_extend_refl |].
  intros c n Hc. exists n. split; [done | lia].
Qed.

Lemma frame_trans (st1 st2 st3 : State) :
  frame st1 st2 → frame st2 st3 → frame st1 st3.
Proof.
  intros [H1 H2 H3 H4 H5 H6] [G1 G2 G3 G4 G5 G6]. split.
  - congruence.
  - lia.
  - by eapply heads_extend_trans.
  - intros c n Hc. destruct (H4 c n Hc) as (n' & Hn' & Hle).
    destruct (G4 c n' Hn') as (n'' & Hn'' & Hle'). exists n''. split; [done | lia].
  - congruence.
  - auto.
Qed.

Lemma framed_ret {A} (a : A) : framed (ret a).
Proof. intros st. split; [apply frame_refl | done]. Qed.

Lemma framed_raise {A} (e : PyError) : e ≠ AssertionError → framed (@raise A e).
Proof. intros He st. split; [apply frame_refl | simpl; congruence]. Qed.

Lemma framed_bind {A B} (m : M A) (k : A → M B) :
  framed m → (∀ a, framed (k a)) → framed (bind m k).
Proof.
  intros Hm Hk st. unfold bind. specialize (Hm st).
  destruct (m st) as [[a | e] st1]; simpl in *.
  - destruct (Hk a st1) as [Hf Hr]. split; [| done].
    eapply frame_trans; [apply Hm | done].
  - destruct Hm as [Hf Hne]. split; [done |].
    intros [= ->]. by apply Hne.
Qed.

Lemma framed_try_finally {A} (body : M A) (fin : M unit) :
  framed body → framed fin → framed (try_finally body fin).
Proof.
  intros Hb Hf st. unfold try_finally. specialize (Hb st).
  destruct (body st) as [r st1]; simpl in *.
  specialize (Hf st1). destruct (fin st1) as [[[] | e] st2]; simpl in *.
  - split; [| apply Hb]. eapply frame_trans; [apply Hb | apply Hf].
  - destruct Hf as [Hf Hne]. split.
    + eapply frame_trans; [apply Hb | apply Hf].
    + intros [= ->]. by apply Hne.
Qed.

Lemma access_time_ok_mono (now now' : Z) (a : AccessRecord.t) :
  now ≤ now' → access_time_ok now a → access_time_ok now' a.
Proof.
  intros Hle [H1 H2]. split; [lia |].
  intros e He. specialize (H2 e He). lia.
Qed.

Lemma call_time_ok_mono (now now' : Z) (r : CallRecord.t) :
  now ≤ now' → call_time_ok now r → call_time_ok now' r.
Proof.
  intros Hle (H1 & H2 & H3). split; [lia |]. split.
  - intros e He. specialize (H2 e He). lia.
  - eapply Forall_impl; [exact H3 |]. intros a. by apply access_time_ok_mono.
Qed.

Lemma times_ok_mono (now now' : Z) (log : list CallRecord.t) :
  now ≤ now' → Forall (call_time_ok now) log → Forall (call_time_ok now') log.
Proof.
  intros Hle H. eapply Forall_impl; [exact H |].
  intros r. by apply call_time_ok_mono.
Qed.

Lemma fmap_insert_same {A B} (f : A → B) (l : list A) (i : nat) (x y : A) :
  l !! i = Some x → f y = f x → f <$> <[i := y]> l = f <$> l.
Proof.
  intros Hl Hf. rewrite list_fmap_insert, Hf.
  apply list_insert_id. by rewrite list_lookup_fmap, Hl.
Qed.

(** A step that only touches the logger, keeps the stack, the heads of
    the call records and the clock's direction, keeps the frame. *)
Lemma frame_logger_step (st : State) (lg' : AccessLogger) :
  _call_stack lg' = _call_stack (logger st) →
  _time (logger st) ≤ _time lg' →
  call_heads lg' = call_heads (logger st) →
  (∀ c n, access_lens (logger st) !! c = Some n →
          ∃ n', access_lens lg' !! c = Some n' ∧ (n ≤ n')%nat) →
  (times_ok (logger st) → times_ok lg') →
  frame st (mkState lg' (heap st)).
Proof.
  intros H1 H2 H3 H4 H5. split; simpl; try done.
  rewrite H3. apply heads_extend_refl.
Qed.

Lemma framed_get_logger : framed get_logger.
Proof. intros st. split; [apply frame_refl | done]. Qed.

Lemma framed_get_heap : framed get_heap.
Proof. intros st. split; [apply frame_refl | done]. Qed.

Lemma framed_deref (self : nat) : framed (deref self).
Proof.
  apply framed_bind; [apply framed_get_heap |].
  intros h. destruct (h !! self); [apply framed_ret | by apply framed_raise].
Qed.

Lemma framed_len (self : nat) : framed (len self).
Proof.
  apply framed_bind; [apply framed_deref |]. intros a. apply framed_ret.
Qed.

Lemma framed_list_getitem {A} (l : list A) (i : Z) : framed (list_getitem l i).
Proof.
  unfold list_getitem. destruct (py_index l i) as [p |]; [| by apply framed_raise].
  destruct (l !! p); [apply framed_ret | by apply framed_raise].
Qed.

Lemma framed_list_setitem {A} (l : list A) (i : Z) (x : A) :
  framed (list_setitem l i x).
Proof.
  unfold list_setitem. destruct (py_index l i); [apply framed_ret | by apply framed_raise].
Qed.

Lemma time_run (st : State) :
  time st = (Ok (_time (logger st) + 1),
             mkState (mkAccessLogger (_time (logger st) + 1)
                        (_call_stack (logger st)) (call_log (logger st))
                        (first_access_time (logger st))
                        (last_access_time (logger st)))
                     (heap st)).
Proof. reflexivity. Qed.

Lemma framed_time : framed time.
Proof.
  intros st. rewrite time_run. simpl. split; [| done].
  apply frame_logger_step; simpl; try done; try lia.
  - intros c n Hc. exists n. split; [done | lia].
  - unfold times_ok. simpl. apply times_ok_mono. lia.
Qed.

Lemma py_index_lt {A} (l : list A) (i : Z) (p : nat) :
  py_index l i = Some p → (p < length l)%nat.
Proof.
  unfold py_index. intros H. repeat case_decide; simplify_eq; lia.
Qed.

Lemma framed_set_value (self : nat) (index value : Z) :
  framed (set_value self index value).
Proof.
  intros st. cbv [set_value deref list_setitem bind get_heap put_heap].
  destruct (heap st !! self) as [a |] eqn:Ha; simpl;
    [| split; [apply frame_refl | done]].
  destruct (py_index (_values a) index) as [p |] eqn:Hp; simpl;
    [| split; [apply frame_refl | done]].
  split; [| done]. split; simpl; try done.
  - apply heads_extend_refl.
  - intros c n Hc. exists n. split; [done | lia].
  - unfold heap_shape. simpl. eapply fmap_insert_same; [exact Ha |].
    unfold shape_of. simpl. by rewrite length_insert.
Qed.

Lemma framed_log_access_enter (array_name : string) (index : Z) :
  framed (log_access_enter array_name index).
Proof.
  intros st.
  cbv [log_access_enter time call_record_append_access call_record_deref
       set_call_log bind ret raise get_logger put_logger].
  destruct st as [[t stack log first lst] h]. cbn.
  destruct (last stack) as [top |] eqn:Htop; cbn.
  - destruct (log !! top) as [r |] eqn:Hr; cbn.
    + split; [| done].
      apply (frame_logger_step (mkState (mkAccessLogger t stack log first lst) h));
        cbn; try done; try lia.
      * unfold call_heads. cbn. by eapply fmap_insert_same.
      * intros c n Hc. unfold access_lens in *. cbn in *.
        rewrite list_fmap_insert. cbn.
        destruct (decide (c = top)) as [-> |].
        -- rewrite list_lookup_fmap, Hr in Hc. simplify_eq/=.
           eexists. split.
           ++ apply list_lookup_insert_eq. rewrite length_fmap.
              by eapply lookup_lt_Some.
           ++ rewrite length_app. lia.
        -- exists n. rewrite list_lookup_insert_ne by done. split; [done | lia].
      * unfold times_ok. cbn. intros Hok.
        apply Forall_insert.
        -- eapply times_ok_mono; [| exact Hok]. lia.
        -- eapply Forall_lookup_1 in Hok as (H1 & H2 & H3); [| exact Hr].
           split; cbn; [lia |]. split.
           ++ intros e He. specialize (H2 e He). lia.
           ++ apply Forall_app. split.
              ** eapply Forall_impl; [exact H3 |].
                 intros a. apply access_time_ok_mono. lia.
              ** apply Forall_singleton. split; cbn; [lia | done].
    + split; [| done].
      apply (frame_logger_step (mkState (mkAccessLogger t stack log first lst) h));
        cbn; try done; try lia.
      * intros c n Hc. exists n. split; [done | lia].
      * unfold times_ok. cbn. apply times_ok_mono. lia.
  - cbn. split; [| done].
    apply (frame_logger_step (mkState (mkAccessLogger t stack log first lst) h));
      cbn; try done; try lia.
    + intros c n Hc. exists n. split; [done | lia].
    + unfold times_ok. cbn. apply times_ok_mono. lia.
Qed.

Lemma framed_log_access_exit (array_name : string) (index : Z)
    (access_record : option (nat * nat)) :
  framed (log_access_exit array_name index access_record).
Proof.
  intros st.
  cbv [log_access_exit time access_record_set_end_time call_record_deref
       set_call_log bind ret raise get_logger put_logger].
  destruct st as [[t stack log first lst] h]. cbn.
  assert (Hmono : ∀ first' lst',
    frame (mkState (mkAccessLogger t stack log first lst) h)
          (mkState (mkAccessLogger (t + 1) stack log first' lst') h)).
  { intros first' lst'.
    apply (frame_logger_step (mkState (mkAccessLogger t stack log first lst) h));
      cbn; try done; try lia.
    - intros c n Hc. exists n. split; [done | lia].
    - unfold times_ok. cbn. apply times_ok_mono. lia. }
  destruct access_record as [[c p] |]; cbn; [| by split].
  destruct (log !! c) as [r |] eqn:Hr; cbn; [| by split].
  destruct (CallRecord.access_log r !! p) as [a |] eqn:Ha; cbn; [| by split].
  split; [| done].
  apply (frame_logger_step (mkState (mkAccessLogger t stack log first lst) h));
    cbn; try done; try lia.
  - unfold call_heads. cbn. by eapply fmap_insert_same.
  - intros c' n Hc. exists n. split; [| lia].
    unfold access_lens in *. cbn in *. rewrite <- Hc. f_equal.
    eapply fmap_insert_same; [exact Hr |]. cbn. by rewrite length_insert.
  - unfold times_ok. cbn. intros Hok. apply Forall_insert.
    + eapply times_ok_mono; [| exact Hok]. lia.
    + eapply Forall_lookup_1 in Hok as (H1 & H2 & H3); [| exact Hr].
      split; cbn; [lia |]. split.
      * intros e He. specialize (H2 e He). lia.
      * apply Forall_insert.
        -- eapply Forall_impl; [exact H3 |].
           intros a'. apply access_time_ok_mono. lia.
        -- eapply Forall_lookup_1 in H3 as [G1 G2]; [| exact Ha].
           split; cbn; [lia |]. intros e [= <-]. lia.
Qed.

Lemma framed_log_access {A} (array_name : string) (index : Z) (body : M A) :
  framed body → framed (log_access array_name index body).
Proof.
  intros Hb. apply framed_bind; [apply framed_log_access_enter |].
  intros h. apply framed_try_finally; [done | apply framed_log_access_exit].
Qed.

Lemma new_context_enter_run (array_name : string) (index : Z) (st : State) :
  new_context_enter array_name index st =
  (Ok (length (call_log (logger st))),
   mkState (mkAccessLogger (_time (logger st) + 1)
              (_call_stack (logger st) ++ [length (call_log (logger st))])
              (call_log (logger st)
                 ++ [CallRecord.mk array_name index (_time (logger st) + 1) None []])
              (first_access_time (logger st)) (last_access_time (logger st)))
           (heap st)).
Proof. reflexivity. Qed.

Lemma new_context_exit_run (c : nat) (r : CallRecord.t) (stack : list nat) (st : State) :
  _call_stack (logger st) = stack ++ [c] →
  call_log (logger st) !! c = Some r →
  new_context_exit c st =
  (Ok tt,
   mkState (mkAccessLogger (_time (logger st) + 1) stack
              (<[c := CallRecord.mk (CallRecord.array_name r) (CallRecord.index r)
                        (CallRecord.start_time r) (Some (_time (logger st) + 1))
                        (CallRecord.access_log r)]> (call_log (logger st)))
              (first_access_time (logger st)) (last_access_time (logger st)))
           (heap st)).
Proof.
  intros Hs Hr.
  cbv [new_context_exit time call_record_set_end_time call_record_deref
       set_call_log set_call_stack bind ret raise get_logger put_logger].
  destruct st as [[t stack' log first lst] h]. proj_in Hs. proj_in Hr. subst stack'.
  proj. rewrite last_snoc, removelast_last. proj. rewrite Hr. proj.
  rewrite Hr. proj. rewrite decide_True by done. proj. by rewrite Hr.
Qed.

Lemma call_heads_length (lg : AccessLogger) :
  length (call_heads lg) = length (call_log lg).
Proof. unfold call_heads. apply length_fmap. Qed.

Lemma frame_log_length (st st' : State) :
  frame st st' → (length (call_log (logger st)) ≤ length (call_log (logger st')))%nat.
Proof.
  intros [_ _ H _ _ _]. apply heads_extend_length in H.
  by rewrite !call_heads_length in H.
Qed.

Lemma framed_new_context {A} (array_name : string) (index : Z) (body : M A) :
  framed body → framed (new_context array_name index body).
Proof.
  intros Hb st. unfold new_context, bind. rewrite new_context_enter_run.
  unfold try_finally.
  set (t := _time (logger st)). set (c := length (call_log (logger st))).
  set (st1 := mkState _ _).
  destruct (Hb st1) as [Hf Hne]. destruct (body st1) as [r st2]. proj_in Hf. proj_in Hne.
  pose proof (frame_log_length _ _ Hf) as Hlen.
  destruct Hf as [F1 F2 F3 F4 F5 F6].
  subst st1. proj_in F1. proj_in F2. proj_in Hlen. rewrite length_app in Hlen.
  cbn [length] in Hlen.
  destruct (lookup_lt_is_Some_2 (call_log (logger st2)) c) as [rec Hrec]; [lia |].
  rewrite (new_context_exit_run c rec _ st2 F1 Hrec). proj.
  split; [| done].
  split; proj.
  - done.
  - lia.
  - destruct F3 as (k & Hk & Hck). unfold call_heads in *. proj_in Hk. proj.
    rewrite list_fmap_insert, Hk, fmap_app.
    rewrite <- app_assoc. rewrite insert_app_r_alt by (rewrite length_fmap; lia).
    rewrite length_fmap.
    replace (c - length (call_log (logger st)))%nat with 0%nat by (subst c; lia).
    eexists. split; [reflexivity |]. cbn. constructor; [by cbn | done].
  - intros c' n Hc'.
    assert (c' < c)%nat.
    { apply lookup_lt_Some in Hc'. unfold access_lens in Hc'.
      by rewrite length_fmap in Hc'. }
    destruct (F4 c' n) as (n' & Hn' & Hle).
    { unfold access_lens in *. proj. rewrite fmap_app.
      by rewrite lookup_app_l by (rewrite length_fmap; lia). }
    exists n'. split; [| done].
    unfold access_lens in *. proj. rewrite list_fmap_insert. cbn.
    by rewrite list_lookup_insert_ne by lia.
  - done.
  - intros Hok. unfold times_ok in *. proj.
    assert (Hok2 : Forall (call_time_ok (_time (logger st2))) (call_log (logger st2))).
    { apply F6. proj. apply Forall_app. split.
      - eapply times_ok_mono; [| exact Hok]. lia.
      - apply Forall_singleton. split; cbn; [lia |]. split; [done | constructor]. }
    apply Forall_insert.
    + eapply times_ok_mono; [| exact Hok2]. lia.
    + eapply Forall_lookup_1 in Hok2 as (H1 & H2 & H3); [| exact Hrec].
      split; cbn; [lia |]. split.
      * intros e [= <-]. lia.
      * eapply Forall_impl; [exact H3 |]. intros a. apply access_time_ok_mono. lia.
Qed.

Lemma framed_compute_value_loop (read : Z → M Z) (source : nat)
    (lift : LiftingStage) (index : Z) (range : list Z) (sum : Z) :
  (∀ pos, framed (read pos)) →
  framed (compute_value_loop read source lift index range sum).
Proof.
  intros Hread. revert sum. induction range as [| i range IH]; intros sum; cbn.
  - apply framed_ret.
  - apply framed_bind; [apply framed_len |]. intros n.
    apply framed_bind; [apply framed_list_getitem |]. intros tap.
    apply framed_bind; [apply Hread |]. intros v. apply IH.
Qed.

Lemma framed_LiftedLLL_compute_value (read : Z → M Z) (source : nat)
    (lift : LiftingStage) (index : Z) :
  (∀ pos, framed (read pos)) →
  framed (LiftedLLL_compute_value read source lift index).
Proof.
  intros Hread. unfold LiftedLLL_compute_value.
  destruct (bool_decide (update_even _ = _)); [| apply Hread].
  apply framed_bind; [by apply framed_compute_value_loop |]. intros sum.
  apply framed_bind.
  { destruct (bool_decide (LiftingStage.S lift < 0));
      [by apply framed_raise | apply framed_ret]. }
  intros sum'.
  destruct (add _); (apply framed_bind; [apply Hread |]); intros v; apply framed_ret.
Qed.

Lemma framed_compute_value (read : nat → Z → M Z) (self : nat) (index : Z) :
  (∀ a pos, framed (read a pos)) →
  framed (compute_value read self index).
Proof.
  intros Hread. apply framed_bind; [apply framed_deref |]. intros a.
  destruct (class_of a) as [| source lift]; [by apply framed_raise |].
  by apply framed_LiftedLLL_compute_value.
Qed.

Lemma framed_getitem_body (read : nat → Z → M Z) (self : nat) (index : Z) :
  (∀ a pos, framed (read a pos)) →
  framed (getitem_body read self index).
Proof.
  intros Hread.
  apply framed_bind; [apply framed_deref |]. intros a.
  apply framed_bind; [apply framed_list_getitem |]. intros [v |].
  - apply framed_ret.
  - apply framed_bind.
    + apply framed_new_context. by apply framed_compute_value.
    + intros value. apply framed_bind; [apply framed_set_value |].
      intros _. apply framed_ret.
Qed.

Lemma framed_getitem (fuel : nat) (self : nat) (index : Z) :
  framed (getitem fuel self index).
Proof.
  revert self index. induction fuel as [| fuel IH]; intros self index; cbn.
  - by apply framed_raise.
  - apply framed_bind; [apply framed_deref |]. intros a.
    apply framed_log_access. by apply framed_getitem_body.
Qed.

(** ** The keys of the completed calls and of the resolved slots *)

Lemma completed_keys_heads (lg : AccessLogger) :
  completed_keys lg = omap head_key (call_heads lg).
Proof.
  unfold completed_keys, call_heads.
  induction (call_log lg) as [| r l IH]; [done |].
  cbn. rewrite IH. by destruct r as [nm i s [e |] acc].
Qed.

Lemma completed_keys_quiet (st st' : State) :
  quiet st st' → completed_keys (logger st') = completed_keys (logger st).
Proof. intros (_ & _ & H). by rewrite !completed_keys_heads, H. Qed.

Lemma stack_ok_heads (lg lg' : AccessLogger) :
  _call_stack lg' = _call_stack lg →
  call_heads lg `prefix_of` call_heads lg' →
  stack_ok lg → stack_ok lg'.
Proof.
  intros Hs Hp. unfold stack_ok. rewrite Hs.
  apply prefix_length in Hp. rewrite !call_heads_length in Hp.
  intros H. eapply Forall_impl; [exact H |]. intros c Hc. cbn in Hc. lia.
Qed.

Lemma Inv_quiet (D : list (list Z)) (st st' : State) :
  Inv D st → quiet st st' → Inv D st'.
Proof.
  intros (H1 & H2 & H3) Hq. pose proof (completed_keys_quiet _ _ Hq) as Hk.
  destruct Hq as (Hh & Hs & Hc). split; [by rewrite Hh |]. split.
  - eapply stack_ok_heads; [done | | done]. by rewrite Hc.
  - by rewrite Hk, Hh.
Qed.

Lemma keys_from_insert (nm : string) (j : Z) (vs : list (option Z)) (p : nat) (x : Z) :
  vs !! p = Some None →
  keys_from nm j (<[p := Some x]> vs) ≡ₚ (nm, j + Z.of_nat p) :: keys_from nm j vs.
Proof.
  revert j p. induction vs as [| v vs IH]; intros j p Hp; [done |].
  destruct p as [| p]; simpl in *.
  - simplify_eq. by rewrite Z.add_0_r.
  - pose proof (IH (j + 1) p Hp) as IH'.
    replace (j + 1 + Z.of_nat p) with (j + Z.pos (Pos.of_succ_nat p)) in IH' by lia.
    destruct v; rewrite IH'; [apply Permutation_swap | done].
Qed.

Lemma resolved_keys_insert (h : list LoggingLazyList) (a : nat)
    (arr arr' : LoggingLazyList) (k : string * Z) :
  h !! a = Some arr →
  slot_keys arr' ≡ₚ k :: slot_keys arr →
  resolved_keys (<[a := arr']> h) ≡ₚ k :: resolved_keys h.
Proof.
  unfold resolved_keys. revert a. induction h as [| x h IH]; intros a Ha Hk; [done |].
  destruct a as [| a]; cbn in Ha.
  - simplify_eq. change (<[0%nat := arr']> (arr :: h)) with (arr' :: h).
    rewrite !bind_cons. by rewrite Hk.
  - change (<[S a := arr']> (x :: h)) with (x :: <[a := arr']> h).
    rewrite !bind_cons. rewrite (IH a Ha Hk).
    by rewrite Permutation_middle.
Qed.

Lemma completed_keys_set_end (lg : AccessLogger)
    (c : nat) (r : CallRecord.t) (e : Z) :
  call_log lg !! c = Some r →
  CallRecord.end_time r = None →
  omap head_key
    (call_head <$> <[c := CallRecord.mk (CallRecord.array_name r) (CallRecord.index r)
                           (CallRecord.start_time r) (Some e)
                           (CallRecord.access_log r)]> (call_log lg))
  ≡ₚ (CallRecord.array_name r, CallRecord.index r) :: completed_keys lg.
Proof.
  rewrite completed_keys_heads. unfold call_heads.
  generalize (call_log lg). intros l. revert c.
  induction l as [| x l IH]; intros c Hc He; [done |].
  destruct c as [| c]; cbn in *.
  - simplify_eq. destruct r as [nm i s en acc]. cbn in *. by subst en.
  - pose proof (IH c Hc He) as IH'.
    destruct (CallRecord.end_time x); rewrite IH'; [| done].
    apply Permutation_swap.
Qed.

(** ** The context managers on a sound call stack *)

Lemma log_access_enter_ok (array_name : string) (index : Z) (st : State) :
  stack_ok (logger st) →
  ∃ held st1, log_access_enter array_name index st = (Ok held, st1) ∧
              quiet st st1 ∧ held_ok held st1.
Proof.
  intros Hok.
  cbv [log_access_enter time call_record_append_access call_record_deref
       set_call_log bind ret raise get_logger put_logger].
  destruct st as [[t stack log first lst] h]. unfold stack_ok in Hok. proj_in Hok. proj.
  destruct (last stack) as [top |] eqn:Htop; proj.
  - assert (Hlt : (top < length log)%nat).
    { apply last_Some in Htop as [l' ->]. apply Forall_app in Hok as [_ Hok].
      by apply (Forall_singleton (λ c : nat, (c < length log)%nat)) in Hok. }
    destruct (lookup_lt_is_Some_2 log top Hlt) as [r Hr]. rewrite Hr. proj.
    eexists _, _. split; [done |]. split.
    + split; proj; [done |]. split; [done |].
      unfold call_heads. proj. by eapply fmap_insert_same.
    + cbn. eexists. split.
      * unfold access_lens. proj. rewrite list_lookup_fmap.
        rewrite list_lookup_insert_eq by done. done.
      * cbn. rewrite length_app. cbn. lia.
  - eexists _, _. split; [done |]. split; [| done]. by split.
Qed.

Lemma log_access_exit_ok (array_name : string) (index : Z)
    (held : option (nat * nat)) (st : State) :
  held_ok held st →
  ∃ st', log_access_exit array_name index held st = (Ok tt, st') ∧ quiet st st'.
Proof.
  intros Hh.
  cbv [log_access_exit time access_record_set_end_time call_record_deref
       set_call_log bind ret raise get_logger put_logger].
  destruct st as [[t stack log first lst] h]. proj.
  destruct held as [[c p] |]; proj.
  - destruct Hh as (n & Hn & Hp). unfold access_lens in Hn. proj_in Hn.
    rewrite list_lookup_fmap in Hn.
    destruct (log !! c) as [r |] eqn:Hr; [| done]. cbn in Hn. simplify_eq. proj.
    destruct (lookup_lt_is_Some_2 (CallRecord.access_log r) p Hp) as [a Ha].
    rewrite Ha. proj. eexists. split; [done |].
    split; proj; [done |]. split; [done |].
    unfold call_heads. proj. by eapply fmap_insert_same.
  - eexists. split; [done |]. by split.
Qed.

Lemma held_ok_frame (held : option (nat * nat)) (st st' : State) :
  frame st st' → held_ok held st → held_ok held st'.
Proof.
  intros Hf. destruct held as [[c p] |]; [| done].
  intros (n & Hn & Hp). destruct (frame_access _ _ Hf c n Hn) as (n' & Hn' & Hle).
  exists n'. split; [done | lia].
Qed.

Lemma quiet_frame_heap (st st' : State) :
  quiet st st' → heap st' = heap st.
Proof. by intros (H & _). Qed.

(** ** Reads that succeed *)

Lemma good_refl (D : list (list Z)) (a : nat) (st : State) :
  Inv D st → good D a st st.
Proof.
  intros H. split; [done |]. split; [apply frame_refl |].
  split; [by intros b Hb | by intros b j v Hs].
Qed.

Lemma good_trans (D : list (list Z)) (a : nat) (st1 st2 st3 : State) :
  good D a st1 st2 → good D a st2 st3 → good D a st1 st3.
Proof.
  intros (_ & F1 & A1 & R1) (I2 & F2 & A2 & R2). split; [done |].
  split; [by eapply frame_trans |]. split.
  - intros b Hb. by rewrite A2, A1.
  - intros b j v Hs. by apply R2, R1.
Qed.

Lemma good_weaken (D : list (list Z)) (a b : nat) (st st' : State) :
  (a ≤ b)%nat → good D a st st' → good D b st st'.
Proof.
  intros Hab (I & F & A & R). split; [done |]. split; [done |]. split; [| done].
  intros c Hc. apply A. lia.
Qed.

Lemma good_quiet (D : list (list Z)) (a : nat) (st st' : State) :
  Inv D st → quiet st st' → frame st st' → good D a st st'.
Proof.
  intros HI Hq Hf. split; [by eapply Inv_quiet |]. split; [done |].
  destruct Hq as (Hh & _). split.
  - intros b _. by rewrite Hh.
  - intros b j v. unfold slot. by rewrite Hh.
Qed.

Lemma returns_ret {A} (D : list (list Z)) (a : nat) (v : A) (st : State) :
  Inv D st → returns D a (ret v) v st.
Proof. intros H. exists st. split; [done | by apply good_refl]. Qed.

Lemma returns_bind {A B} (D : list (list Z)) (a : nat) (m : M A) (k : A → M B)
    (v : A) (w : B) (st : State) :
  returns D a m v st →
  (∀ st', good D a st st' → returns D a (k v) w st') →
  returns D a (bind m k) w st.
Proof.
  intros (st1 & Hm & G1) Hk. destruct (Hk st1 G1) as (st2 & Hk2 & G2).
  exists st2. split; [| by eapply good_trans].
  unfold bind. by rewrite Hm.
Qed.

Lemma returns_bind_pure {A B} (D : list (list Z)) (a : nat) (m : M A) (k : A → M B)
    (v : A) (w : B) (st : State) :
  m st = (Ok v, st) →
  returns D a (k v) w st →
  returns D a (bind m k) w st.
Proof.
  intros Hm (st' & Hk & G). exists st'. split; [| done].
  unfold bind. by rewrite Hm.
Qed.

Lemma returns_weaken {A} (D : list (list Z)) (a b : nat) (m : M A) (v : A) (st : State) :
  (a ≤ b)%nat → returns D a m v st → returns D b m v st.
Proof.
  intros Hab (st' & Hm & G). exists st'. split; [done | by eapply good_weaken].
Qed.

Lemma Inv_lookup (D : list (list Z)) (st : State) (a : nat) (d : list Z) :
  Inv D st → D !! a = Some d →
  ∃ arr, heap st !! a = Some arr ∧
         length (_values arr) = length d ∧
         (∀ j v, _values arr !! j = Some (Some v) → d !! j = Some v) ∧
         match class_of arr with
         | BaseLLL => _values arr = Some <$> d
         | LiftedLLL source lift =>
             (source < a)%nat ∧ stage_ok lift ∧
             ∃ ds, D !! source = Some ds ∧ (2 ≤ length ds)%nat ∧
                   d = lift_list lift ds
         end.
Proof.
  intros ((Hlen & Hden) & _) Hd.
  destruct (lookup_lt_is_Some_2 (heap st) a) as [arr Harr].
  { rewrite <- Hlen. by eapply lookup_lt_Some. }
  exists arr. split; [done |].
  destruct (Hden a arr Harr) as (d' & Hd' & H1 & H2 & H3).
  by simplify_eq.
Qed.

Lemma deref_run (st : State) (a : nat) (arr : LoggingLazyList) :
  heap st !! a = Some arr → deref a st = (Ok arr, st).
Proof. intros H. cbv [deref bind get_heap]. by rewrite H. Qed.

Lemma len_run (st : State) (a : nat) (arr : LoggingLazyList) :
  heap st !! a = Some arr → len a st = (Ok (Z.of_nat (length (_values arr))), st).
Proof. intros H. unfold len, bind. by rewrite (deref_run _ _ _ H). Qed.

Lemma py_index_nonneg {A} (l : list A) (i : Z) :
  0 ≤ i < Z.of_nat (length l) → py_index l i = Some (Z.to_nat i).
Proof. intros H. unfold py_index. by rewrite decide_True. Qed.

Lemma list_getitem_run {A} (l : list A) (i : Z) (x : A) (st : State) :
  0 ≤ i → l !! Z.to_nat i = Some x → list_getitem l i st = (Ok x, st).
Proof.
  intros Hi Hx. unfold list_getitem. rewrite py_index_nonneg.
  - by rewrite Hx.
  - apply lookup_lt_Some in Hx. lia.
Qed.

Lemma clamp_pos_range (t : LiftingFilterTypes) (n pos : Z) :
  2 ≤ n → 0 ≤ clamp_pos t n pos < n.
Proof. intros Hn. unfold clamp_pos. destruct (update_even t); lia. Qed.

Lemma lookup_total_Some (l : list Z) (i : nat) :
  (i < length l)%nat → l !! i = Some (l !!! i).
Proof.
  intros H. destruct (lookup_lt_is_Some_2 l i H) as [x Hx].
  by rewrite (list_lookup_total_correct _ _ _ Hx).
Qed.

Lemma compute_value_loop_returns (D : list (list Z)) (s : nat) (lift : LiftingStage)
    (index : Z) (ds : list Z) (read : Z → M Z) :
  D !! s = Some ds → (2 ≤ length ds)%nat →
  (∀ pos st, Inv D st → 0 ≤ pos < Z.of_nat (length ds) →
             returns D s (read pos) (ds !!! Z.to_nat pos) st) →
  ∀ range sum st, Inv D st →
    Forall (λ i, 0 ≤ i - LiftingStage.D lift
                 < Z.of_nat (length (LiftingStage.taps lift))) range →
    returns D s (compute_value_loop read s lift index range sum)
      (foldl (λ sum i,
                sum + (LiftingStage.taps lift !!! Z.to_nat (i - LiftingStage.D lift))
                      * (ds !!! Z.to_nat
                           (clamp_pos (LiftingStage.lift_type lift)
                              (Z.of_nat (length ds)) (index + 2 * i - 1))))
             sum range) st.
Proof.
  intros Hds Hn Hread range.
  induction range as [| i range IH]; intros sum st HI Hr; cbn [compute_value_loop foldl].
  - by apply returns_ret.
  - apply Forall_cons in Hr as [Hi Hr].
    destruct (Inv_lookup D st s ds HI Hds) as (arr & Harr & Hlen & _).
    eapply returns_bind_pure; [by apply len_run |]. rewrite Hlen.
    eapply returns_bind_pure.
    { apply list_getitem_run; [lia | apply lookup_total_Some; lia]. }
    eapply returns_bind.
    + apply Hread; [done |]. apply clamp_pos_range. lia.
    + intros st' G. apply IH; [apply G | done].
Qed.

Lemma LiftedLLL_compute_value_returns (D : list (list Z)) (s : nat) (lift : LiftingStage)
    (index : Z) (ds : list Z) (read : Z → M Z) (st : State) :
  D !! s = Some ds → (2 ≤ length ds)%nat → stage_ok lift →
  (∀ pos st, Inv D st → 0 ≤ pos < Z.of_nat (length ds) →
             returns D s (read pos) (ds !!! Z.to_nat pos) st) →
  Inv D st → 0 ≤ index < Z.of_nat (length ds) →
  returns D s (LiftedLLL_compute_value read s lift index) (lift_value lift ds index) st.
Proof.
  intros Hds Hn [HS HL] Hread HI Hi. unfold LiftedLLL_compute_value, lift_value.
  destruct (bool_decide (update_even _ = _)); [| by apply Hread].
  eapply returns_bind.
  { eapply compute_value_loop_returns; try done.
    apply Forall_seqZ. intros i Hi'. lia. }
  intros st1 G1. fold (lift_sum lift ds index).
  rewrite bool_decide_eq_false_2 by lia.
  eapply returns_bind_pure; [reflexivity |].
  fold (round_shift (LiftingStage.S lift) (lift_sum lift ds index)).
  destruct (add _).
  - eapply returns_bind; [apply Hread; [apply G1 | done] |].
    intros st2 G2. apply returns_ret, G2.
  - eapply returns_bind; [apply Hread; [apply G1 | done] |].
    intros st2 G2. apply returns_ret, G2.
Qed.

Lemma new_context_ok {A} (array_name : string) (index : Z) (body : M A)
    (st st2 : State) (v : A) :
  body (new_context_enter array_name index st).2 = (Ok v, st2) →
  frame (new_context_enter array_name index st).2 st2 →
  ∃ st3, new_context array_name index body st = (Ok v, st3) ∧
         heap st3 = heap st2 ∧
         _call_stack (logger st3) = _call_stack (logger st) ∧
         length (call_log (logger st3)) = length (call_log (logger st2)) ∧
         completed_keys (logger st3)
           ≡ₚ (array_name, index) :: completed_keys (logger st2).
Proof.
  unfold new_context, bind. rewrite new_context_enter_run. unfold try_finally. proj.
  set (t := _time (logger st)). set (c := length (call_log (logger st))).
  set (st1 := mkState _ _). intros Hbody Hf. rewrite Hbody.
  pose proof (frame_log_length _ _ Hf) as Hlen.
  destruct Hf as [F1 F2 F3 F4 F5 F6].
  subst st1. proj_in F1. proj_in Hlen. rewrite length_app in Hlen.
  cbn [length] in Hlen.
  destruct (lookup_lt_is_Some_2 (call_log (logger st2)) c) as [rec Hrec];
    [subst c; lia |].
  rewrite (new_context_exit_run c rec _ st2 F1 Hrec).
  assert (Hhead : call_head rec = (array_name, index, t + 1, None)).
  { destruct F3 as (k & Hk & _). unfold call_heads in Hk. proj_in Hk.
    assert (Hx : (call_head <$> call_log (logger st2)) !! c = Some (call_head rec))
      by (by rewrite list_lookup_fmap, Hrec).
    rewrite Hk, fmap_app in Hx. rewrite <- app_assoc in Hx.
    rewrite lookup_app_r in Hx by (rewrite length_fmap; lia).
    rewrite length_fmap in Hx.
    replace (c - length (call_log (logger st)))%nat with 0%nat in Hx
      by (subst c; lia).
    unfold call_head in *. cbn in Hx. congruence. }
  unfold call_head in Hhead. injection Hhead as Hnm Hidx Hstart Hend.
  eexists. split; [done |]. proj. split; [done |]. split; [done |].
  split; [by rewrite length_insert |].
  rewrite completed_keys_heads. unfold call_heads. proj.
  rewrite (completed_keys_set_end (logger st2) c rec _ Hrec Hend).
  by rewrite Hnm, Hidx.
Qed.

Lemma Inv_new_context_enter (D : list (list Z)) (array_name : string)
    (index : Z) (st : State) :
  Inv D st → Inv D (new_context_enter array_name index st).2.
Proof.
  intros (H1 & H2 & H3). rewrite new_context_enter_run. proj.
  split; [done |]. split.
  - unfold stack_ok in *. proj. rewrite length_app. cbn [length].
    apply Forall_app. split.
    + eapply Forall_impl; [exact H2 |]. intros c Hc. cbn in Hc. lia.
    + apply Forall_singleton. lia.
  - proj. rewrite <- H3. unfold completed_keys. proj.
    rewrite omap_app. cbn. by rewrite app_nil_r.
Qed.

Lemma Inv_resolve (D : list (list Z)) (st : State) (lg' : AccessLogger)
    (a : nat) (arr : LoggingLazyList) (s : nat) (lift : LiftingStage)
    (p : nat) (d : list Z) (v : Z) :
  Inv D st → heap st !! a = Some arr → class_of arr = LiftedLLL s lift →
  _values arr !! p = Some None → D !! a = Some d → d !! p = Some v →
  stack_ok lg' →
  completed_keys lg' ≡ₚ (name arr, Z.of_nat p) :: completed_keys (logger st) →
  Inv D (mkState lg'
           (<[a := mkLLL (name arr) (<[p := Some v]> (_values arr)) (class_of arr)]>
              (heap st))).
Proof.
  intros ((Hlen & Hden) & Hst & Hperm) Harr Hcls Hp Hd Hv Hst' Hperm'.
  split; [| split; [done |]]; proj.
  - split; [by rewrite length_insert |].
    intros b arrb Hb. destruct (decide (b = a)) as [-> | Hne].
    + rewrite list_lookup_insert_eq in Hb by (by eapply lookup_lt_Some).
      simplify_eq. destruct (Hden a arr Harr) as (d' & Hd' & H1 & H2 & H3).
      simplify_eq. exists d. split; [done |]. proj.
      split; [by rewrite length_insert |]. split; [| by rewrite Hcls in *].
      intros j w Hj. destruct (decide (j = p)) as [-> |].
      * rewrite list_lookup_insert_eq in Hj by (by eapply lookup_lt_Some).
        by simplify_eq.
      * rewrite list_lookup_insert_ne in Hj by done. by apply H2.
    + rewrite list_lookup_insert_ne in Hb by done. by apply Hden.
  - rewrite Hperm', Hperm. symmetry.
    eapply resolved_keys_insert; [done |].
    unfold slot_keys. proj. rewrite Hcls.
    by rewrite (keys_from_insert _ _ _ _ _ Hp).
Qed.

Lemma set_value_run (st : State) (a : nat) (arr : LoggingLazyList) (i v : Z) :
  heap st !! a = Some arr → 0 ≤ i < Z.of_nat (length (_values arr)) →
  set_value a i v st =
  (Ok tt, mkState (logger st)
            (<[a := mkLLL (name arr) (<[Z.to_nat i := Some v]> (_values arr))
                      (class_of arr)]> (heap st))).
Proof.
  intros Harr Hi. unfold set_value, bind. rewrite (deref_run _ _ _ Harr).
  unfold list_setitem. by rewrite py_index_nonneg.
Qed.

Lemma lift_list_lookup (lift : LiftingStage) (ds : list Z) (i : Z) :
  0 ≤ i < Z.of_nat (length ds) →
  lift_list lift ds !! Z.to_nat i = Some (lift_value lift ds i).
Proof.
  intros Hi. unfold lift_list. rewrite list_lookup_fmap.
  rewrite lookup_seqZ_lt by lia. cbn. f_equal. f_equal. lia.
Qed.

Lemma lift_list_length (lift : LiftingStage) (ds : list Z) :
  length (lift_list lift ds) = length ds.
Proof. unfold lift_list. rewrite length_fmap, length_seqZ. lia. Qed.

Lemma getitem_body_returns (D : list (list Z)) (read : nat → Z → M Z)
    (a : nat) (d : list Z) (i : Z) (st : State) :
  (∀ s ds pos st, Inv D st → D !! s = Some ds → (s < a)%nat →
                  0 ≤ pos < Z.of_nat (length ds) →
                  returns D s (read s pos) (ds !!! Z.to_nat pos) st) →
  (∀ s pos, framed (read s pos)) →
  Inv D st → D !! a = Some d → 0 ≤ i < Z.of_nat (length d) →
  ∃ st', getitem_body read a i st = (Ok (d !!! Z.to_nat i), st') ∧
         Inv D st' ∧ heap_above a st st' ∧ resolved_mono st st' ∧
         slot st' a (Z.to_nat i) = Some (d !!! Z.to_nat i).
Proof.
  intros Hread Hframed HI Hd Hi.
  destruct (Inv_lookup D st a d HI Hd) as (arr & Harr & Hlen & Hres & Hcls).
  unfold getitem_body. unfold bind at 1. rewrite (deref_run _ _ _ Harr).
  destruct (lookup_lt_is_Some_2 (_values arr) (Z.to_nat i)) as [ev Hev]; [lia |].
  unfold bind at 1. rewrite (list_getitem_run _ _ ev) by (done || lia).
  destruct ev as [v |].
  { (* the slot is resolved *)
    rewrite (list_lookup_total_correct _ _ _ (Hres _ _ Hev)).
    exists st. split; [done |]. split; [done |].
    split; [by intros b Hb |]. split; [by intros b j w Hs |].
    unfold slot. rewrite Harr. cbn. by rewrite Hev. }
  destruct (class_of arr) as [| s lift] eqn:Hc.
  { rewrite Hcls, list_lookup_fmap in Hev. by destruct (d !! Z.to_nat i). }
  destruct Hcls as (Hs & Hok & ds & Hds & Hn & ->).
  rewrite lift_list_length in Hi, Hlen.
  rewrite (list_lookup_total_correct _ _ _ (lift_list_lookup lift ds i Hi)).
  pose proof (Inv_new_context_enter D (name arr) i st HI) as I2.
  pose proof (new_context_enter_run (name arr) i st) as Hrun.
  set (st2 := (new_context_enter (name arr) i st).2) in *.
  assert (Hheap2 : heap st2 = heap st) by (subst st2; by rewrite Hrun).
  assert (Hstack2 : _call_stack (logger st2)
                    = _call_stack (logger st) ++ [length (call_log (logger st))])
    by (subst st2; by rewrite Hrun).
  assert (Hlog2 : length (call_log (logger st2))
                  = S (length (call_log (logger st)))).
  { subst st2. rewrite Hrun. proj. rewrite length_app. cbn. lia. }
  assert (Hcv : returns D s (compute_value read a i) (lift_value lift ds i) st2).
  { unfold compute_value. eapply returns_bind_pure.
    - apply deref_run. by rewrite Hheap2.
    - rewrite Hc. apply LiftedLLL_compute_value_returns; try done.
      intros pos st' HI' Hpos. by apply Hread. }
  destruct Hcv as (st4 & Hcv & I4 & F4 & A4 & R4).
  destruct (new_context_ok (name arr) i (compute_value read a i) st st4
              (lift_value lift ds i) Hcv F4)
    as (st5 & Hnc & Hheap5 & Hstack5 & Hlog5 & Hkeys5).
  unfold bind at 1. rewrite Hnc.
  assert (Harr4 : heap st4 !! a = Some arr).
  { rewrite (A4 a Hs), Hheap2. exact Harr. }
  unfold bind at 1. rewrite (set_value_run st5 a arr) by (by rewrite ?Hheap5 || lia).
  cbn [ret]. eexists. split; [done |]. rewrite Hheap5.
  split; [| split; [| split]].
  - eapply (Inv_resolve D st4); try done.
    + by apply lift_list_lookup.
    + unfold stack_ok. rewrite Hstack5, Hlog5.
      pose proof (frame_log_length _ _ F4) as Hle. rewrite Hlog2 in Hle.
      destruct HI as (_ & Hst & _). eapply Forall_impl; [exact Hst |].
      intros c Hc'. cbn in Hc'. lia.
    + by rewrite Z2Nat.id by lia.
  - intros b Hb. proj. rewrite list_lookup_insert_ne by lia.
    rewrite (A4 b) by lia. by rewrite Hheap2.
  - intros b j w Hsl.
    assert (Hsl4 : slot st4 b j = Some w).
    { apply R4. unfold slot in *. by rewrite Hheap2. }
    unfold slot in *. proj. destruct (decide (b = a)) as [-> | Hne].
    + rewrite list_lookup_insert_eq by (by eapply lookup_lt_Some).
      rewrite Harr4 in Hsl4. cbn in *.
      destruct (decide (j = Z.to_nat i)) as [-> |].
      * by rewrite Hev in Hsl4.
      * by rewrite list_lookup_insert_ne by done.
    + by rewrite list_lookup_insert_ne by done.
  - unfold slot. proj.
    rewrite list_lookup_insert_eq by (by eapply lookup_lt_Some). cbn.
    by rewrite list_lookup_insert_eq by lia.
Qed.

(** A read of an in-range slot returns the value the array denotes,
    whatever has been resolved so far, once the recursion budget
    exceeds the position of the array in the store. *)
Lemma getitem_returns (D : list (list Z)) (fuel : nat) :
  ∀ a d i st, Inv D st → D !! a = Some d → (a < fuel)%nat →
    0 ≤ i < Z.of_nat (length d) →
    ∃ st', getitem fuel a i st = (Ok (d !!! Z.to_nat i), st') ∧
           good D a st st' ∧
           slot st' a (Z.to_nat i) = Some (d !!! Z.to_nat i).
Proof.
  induction fuel as [| fuel IH]; intros a d i st HI Hd Hfuel Hi; [lia |].
  destruct (Inv_lookup D st a d HI Hd) as (arr & Harr & _).
  cbn [getitem]. unfold bind at 1. rewrite (deref_run _ _ _ Harr).
  unfold log_access. unfold bind at 1.
  destruct (log_access_enter_ok (name arr) i st) as (held & st1 & Henter & Hq1 & Hheld);
    [apply HI |].
  pose proof (framed_log_access_enter (name arr) i st) as [Hf1 _].
  rewrite Henter in Hf1 |- *. proj_in Hf1.
  pose proof (good_quiet D a st st1 HI Hq1 Hf1) as G1.
  unfold try_finally.
  pose proof (framed_getitem_body (getitem fuel) a i (framed_getitem fuel) st1)
    as [Hfb _].
  destruct (getitem_body_returns D (getitem fuel) a d i st1)
    as (st6 & Hb & I6 & A6 & R6 & S6); try done.
  { intros s ds pos st' HI' Hds Hs Hpos.
    destruct (IH s ds pos st' HI' Hds) as (st'' & Hg & G & _); [lia | done |].
    by exists st''. }
  { apply framed_getitem. }
  { apply G1. }
  rewrite Hb in Hfb |- *. proj_in Hfb.
  destruct (log_access_exit_ok (name arr) i held st6) as (st7 & Hexit & Hq7);
    [by eapply held_ok_frame |].
  pose proof (framed_log_access_exit (name arr) i held st6) as [Hf7 _].
  rewrite Hexit in Hf7 |- *. proj_in Hf7.
  exists st7. split; [done |]. split.
  - eapply good_trans; [exact G1 |].
    eapply good_trans; [| by apply good_quiet].
    split; [done |]. split; [done |]. by split.
  - unfold slot. rewrite (quiet_frame_heap _ _ Hq7). exact S6.
Qed.

(** ** A stage and its inverse, on the values *)

Lemma foldl_ext_in {A B} (f g : A → B → A) (l : list B) (a : A) :
  (∀ a x, x ∈ l → f a x = g a x) → foldl f a l = foldl g a l.
Proof.
  revert a. induction l as [| x l IH]; intros a H; [done |]. cbn.
  rewrite (H a x) by left. apply IH. intros a' y Hy. apply H. by right.
Qed.

Lemma lift_value_pass (lift : LiftingStage) (src : list Z) (i : Z) :
  update_even (LiftingStage.lift_type lift) ≠ bool_decide (i `mod` 2 = 0) →
  lift_value lift src i = src !!! Z.to_nat i.
Proof. intros H. unfold lift_value. by rewrite bool_decide_eq_false_2. Qed.

(** On a source of even length the clamped positions keep the parity
    opposite to that of the rewritten slot. *)
Lemma clamp_pos_parity (t : LiftingFilterTypes) (n i k : Z) :
  2 ≤ n → n `mod` 2 = 0 →
  update_even t = bool_decide (i `mod` 2 = 0) →
  update_even t ≠ bool_decide (clamp_pos t n (i + 2 * k - 1) `mod` 2 = 0).
Proof.
  intros Hn Heven Hi. unfold clamp_pos.
  destruct (update_even t); symmetry in Hi.
  - apply bool_decide_eq_true_1 in Hi. intros Hc. symmetry in Hc.
    apply bool_decide_eq_true_1 in Hc. revert Hc.
    Z.div_mod_to_equations. lia.
  - apply bool_decide_eq_false_1 in Hi. intros Hc. symmetry in Hc.
    apply bool_decide_eq_false_1 in Hc. apply Hc. clear Hc.
    Z.div_mod_to_equations. lia.
Qed.

Lemma lift_list_lookup_total (lift : LiftingStage) (src : list Z) (i : Z) :
  0 ≤ i < Z.of_nat (length src) →
  lift_list lift src !!! Z.to_nat i = lift_value lift src i.
Proof.
  intros Hi. apply list_lookup_total_correct. by apply lift_list_lookup.
Qed.

Lemma lift_sum_inverted (lift : LiftingStage) (src : list Z) (i : Z) :
  (2 ≤ length src)%nat → Z.of_nat (length src) `mod` 2 = 0 →
  update_even (LiftingStage.lift_type lift) = bool_decide (i `mod` 2 = 0) →
  lift_sum (with_inverted_lift_type lift) (lift_list lift src) i = lift_sum lift src i.
Proof.
  intros Hn Heven Hi. unfold lift_sum. cbn [with_inverted_lift_type LiftingStage.taps
    LiftingStage.D LiftingStage.L LiftingStage.lift_type].
  apply foldl_ext_in. intros sum k _. cbv beta. rewrite lift_list_length.
  f_equal. f_equal.
  unfold clamp_pos at 1. rewrite update_even_inverted.
  fold (clamp_pos (LiftingStage.lift_type lift) (Z.of_nat (length src)) (i + 2 * k - 1)).
  rewrite lift_list_lookup_total by (apply clamp_pos_range; lia).
  apply lift_value_pass. apply clamp_pos_parity; [lia | done | done].
Qed.

(** The inverted stage undoes the stage on every source of even length. *)
Lemma lift_list_inverse (lift : LiftingStage) (src : list Z) :
  (2 ≤ length src)%nat → Z.of_nat (length src) `mod` 2 = 0 →
  lift_list (with_inverted_lift_type lift) (lift_list lift src) = src.
Proof.
  intros Hn Heven. apply list_eq_same_length with (length src);
    [done | by rewrite !lift_list_length |].
  intros j x y Hj Hx Hy.
  rewrite <- (Nat2Z.id j) in Hx, Hy.
  rewrite lift_list_lookup in Hx by (rewrite lift_list_length; lia).
  apply list_lookup_total_correct in Hy.
  injection Hx as <-. subst y.
  set (i := Z.of_nat j). assert (Hi : 0 ≤ i < Z.of_nat (length src)) by lia.
  clearbody i. unfold lift_value at 1.
  cbn [with_inverted_lift_type LiftingStage.lift_type LiftingStage.S].
  rewrite update_even_inverted, add_inverted.
  rewrite lift_list_lookup_total by done.
  destruct (decide (update_even (LiftingStage.lift_type lift)
                    = bool_decide (i `mod` 2 = 0))) as [Hp | Hp].
  - rewrite bool_decide_eq_true_2 by done.
    rewrite lift_sum_inverted by done.
    unfold lift_value. rewrite bool_decide_eq_true_2 by done.
    destruct (add _); cbn; lia.
  - rewrite bool_decide_eq_false_2 by done. by apply lift_value_pass.
Qed.

(** ** Building the chain *)

Lemma LiftedLLL_init_run (nm : string) (source : nat) (lift : LiftingStage)
    (st : State) (arr : LoggingLazyList) :
  heap st !! source = Some arr →
  LiftedLLL_init nm source lift st =
  (Ok (length (heap st)),
   mkState (logger st)
     (heap st ++ [mkLLL nm (replicate (length (_values arr)) None)
                    (LiftedLLL source lift)])).
Proof.
  intros Harr. unfold LiftedLLL_init, bind. rewrite (len_run _ _ _ Harr).
  cbv [LoggingLazyList_init bind get_heap put_heap ret]. proj.
  by rewrite Nat2Z.id.
Qed.

Lemma construct_lifted_arrays_loop_run (num : Z) (prefix final : string)
    (stages : list LiftingStage) :
  ∀ (i : Z) (prev : nat) (out : list nat) (st : State) (arr : LoggingLazyList),
    heap st !! prev = Some arr → length (heap st) = S prev →
    construct_lifted_arrays_loop num prefix final i stages prev out st =
    (Ok (out ++ seq (S prev) (length stages)),
     mkState (logger st)
       (heap st ++ lifted_arrays num prefix final i stages prev
                     (length (_values arr)))).
Proof.
  induction stages as [| stage stages IH]; intros i prev out st arr Harr Hlen.
  - cbn. rewrite !app_nil_r. by destruct st.
  - cbn [construct_lifted_arrays_loop lifted_arrays]. unfold bind at 1.
    fold (stage_name num prefix final i).
    rewrite (LiftedLLL_init_run _ _ _ _ _ Harr). rewrite Hlen.
    rewrite (IH (i + 1) (S prev) (out ++ [S prev]) _
               (mkLLL (stage_name num prefix final i)
                      (replicate (length (_values arr)) None)
                      (LiftedLLL prev stage))); proj.
    + cbn [_values length seq]. rewrite length_replicate.
      by rewrite <- !app_assoc.
    + rewrite lookup_app_r by lia. by rewrite Hlen, Nat.sub_diag.
    + rewrite length_app. cbn. lia.
Qed.

Lemma lifted_arrays_length (num : Z) (prefix final : string)
    (stages : list LiftingStage) (i : Z) (source n : nat) :
  length (lifted_arrays num prefix final i stages source n) = length stages.
Proof.
  revert i source. induction stages as [| s stages IH]; intros i source; [done |].
  cbn. by rewrite IH.
Qed.

Lemma lifted_arrays_lookup (num : Z) (prefix final : string)
    (stages : list LiftingStage) (i : Z) (source n : nat) (k : nat)
    (stage : LiftingStage) :
  stages !! k = Some stage →
  lifted_arrays num prefix final i stages source n !! k =
  Some (mkLLL (stage_name num prefix final (i + Z.of_nat k))
          (replicate n None) (LiftedLLL (source + k) stage)).
Proof.
  revert i source k. induction stages as [| s stages IH]; intros i source k Hk; [done |].
  destruct k as [| k]; cbn [lookup list_lookup lifted_arrays] in Hk |- *.
  - simplify_eq. by rewrite Z.add_0_r, Nat.add_0_r.
  - rewrite (IH _ _ _ Hk).
    replace (i + 1 + Z.of_nat k) with (i + Z.of_nat (S k)) by lia.
    by replace (S source + k)%nat with (source + S k)%nat by lia.
Qed.

Lemma lifted_arrays_values (num : Z) (prefix final : string)
    (stages : list LiftingStage) (i : Z) (source n : nat) :
  Forall (λ arr, length (_values arr) = n)
         (lifted_arrays num prefix final i stages source n).
Proof.
  revert i source. induction stages as [| s stages IH]; intros i source; cbn.
  - constructor.
  - constructor; [cbn; by rewrite length_replicate | apply IH].
Qed.

Lemma list_getitem_last_seq (k : nat) (st : State) :
  list_getitem (0%nat :: seq 1 k) (-1) st = (Ok k, st).
Proof.
  unfold list_getitem, py_index. cbn [length]. rewrite length_seq.
  rewrite decide_False by lia. rewrite decide_True by lia.
  replace (Z.to_nat (Z.of_nat (S k) + -1)) with k by lia.
  change (0%nat :: seq 1 k) with (seq 0 (S k)).
  by rewrite lookup_seq_lt by lia.
Qed.

Lemma construct_all_arrays_run (input_values : list Z) (wavelet : WaveletFilters)
    (lg : AccessLogger) (analysis synthesis : list LiftingStage) :
  ANALYSIS_FILTERS !! wavelet = Some analysis →
  SYNTHESIS_FILTERS !! wavelet = Some synthesis →
  construct_all_arrays input_values wavelet (mkState lg []) =
  (Ok (seq 0 (1 + length analysis + length synthesis)),
   mkState lg (all_arrays input_values analysis synthesis)).
Proof.
  intros HA HS. unfold construct_all_arrays.
  unfold bind at 1. cbv [LoggingLazyList_init bind get_heap put_heap ret]. proj.
  cbn [app length].
  assert (H0 : ∀ st, list_getitem [0%nat] (-1) st = (Ok 0%nat, st))
    by (intros st; apply (list_getitem_last_seq 0)).
  rewrite H0.
  unfold dict_getitem at 1. rewrite HA. cbn [ret].
  unfold construct_lifted_arrays at 1.
  rewrite (construct_lifted_arrays_loop_run _ _ _ _ _ _ _ _
             (mkLLL "Encoder Input" (Some <$> input_values) BaseLLL))
    by reflexivity.
  proj. cbn [app]. rewrite list_getitem_last_seq.
  unfold dict_getitem. rewrite HS. cbn [ret].
  unfold construct_lifted_arrays.
  set (h := _ :: lifted_arrays _ _ _ _ _ _ _).
  assert (Hh : length h = S (length analysis)).
  { subst h. cbn. by rewrite lifted_arrays_length. }
  destruct (lookup_lt_is_Some_2 h (length analysis)) as [arr Harr]; [lia |].
  assert (Hvals : length (_values arr) = length input_values).
  { assert (Hall : Forall (λ arr, length (_values arr) = length input_values) h).
    { subst h. constructor; [cbn; by rewrite length_fmap |].
      rewrite length_fmap. apply lifted_arrays_values. }
    by eapply Forall_lookup_1 in Hall. }
  rewrite (construct_lifted_arrays_loop_run _ _ _ _ _ _ _ _ arr) by done.
  proj. rewrite Hvals. subst h. unfold all_arrays. cbn [_values].
  rewrite length_fmap. f_equal.
  f_equal. cbn [app].
  change (0%nat :: seq 1 (length analysis)) with (seq 0 (S (length analysis))).
  by rewrite <- seq_app.
Qed.

Lemma all_arrays_shape (input_values : list Z) (analysis synthesis : list LiftingStage) :
  chain_shape input_values (analysis ++ synthesis)
    (all_arrays input_values analysis synthesis).
Proof.
  unfold all_arrays. split; [| split].
  - cbn. by rewrite !length_app, !lifted_arrays_length.
  - by eexists.
  - intros k stage Hk. rewrite lookup_cons.
    destruct (decide (k < length analysis)%nat) as [Hlt | Hge].
    + rewrite lookup_app_l in Hk by done.
      rewrite lookup_app_l by (by rewrite lifted_arrays_length).
      rewrite (lifted_arrays_lookup _ _ _ _ _ _ _ _ _ Hk).
      eexists. split; [done |]. by split.
    + rewrite lookup_app_r in Hk by lia.
      rewrite lookup_app_r by (rewrite lifted_arrays_length; lia).
      rewrite lifted_arrays_length.
      rewrite (lifted_arrays_lookup _ _ _ _ _ _ _ _ _ Hk).
      eexists. split; [done |]. cbn. split; [| done].
      f_equal. lia.
Qed.

Lemma chain_values_length (src : list Z) (stages : list LiftingStage) :
  length (chain_values src stages) = length stages.
Proof.
  revert src. induction stages as [| s stages IH]; intros src; [done |].
  cbn. by rewrite IH.
Qed.

Lemma chain_table_lookup (src : list Z) (stages : list LiftingStage)
    (k : nat) (stage : LiftingStage) :
  stages !! k = Some stage →
  ∃ ds, chain_table src stages !! k = Some ds ∧
        length ds = length src ∧
        chain_table src stages !! S k = Some (lift_list stage ds).
Proof.
  unfold chain_table. revert src k.
  induction stages as [| s stages IH]; intros src k Hk; [done |].
  destruct k as [| k]; cbn in Hk.
  - simplify_eq. by exists src.
  - destruct (IH (lift_list s src) k Hk) as (ds & H1 & H2 & H3).
    exists ds. cbn. split; [done |]. split; [| done].
    by rewrite H2, lift_list_length.
Qed.

Lemma chain_table_all_length (src : list Z) (stages : list LiftingStage) :
  Forall (λ d, length d = length src) (chain_table src stages).
Proof.
  unfold chain_table. constructor; [done |]. revert src.
  induction stages as [| s stages IH]; intros src; cbn; [constructor |].
  constructor; [apply lift_list_length |].
  eapply Forall_impl; [apply IH |]. intros d Hd. cbn in Hd.
  by rewrite Hd, lift_list_length.
Qed.

Lemma keys_from_unresolved (nm : string) (j : Z) (n : nat) :
  keys_from nm j (replicate n None) = [].
Proof. revert j. induction n as [| n IH]; intros j; [done |]. cbn. apply IH. Qed.

Lemma chain_shape_unresolved (input_values : list Z) (stages : list LiftingStage)
    (h : list LoggingLazyList) :
  chain_shape input_values stages h → resolved_keys h = [].
Proof.
  intros (Hlen & (nm & H0) & Hk). unfold resolved_keys.
  assert (Hall : Forall (λ arr, slot_keys arr = []) h).
  { apply Forall_lookup. intros a arr Ha. destruct a as [| k].
    - by simplify_eq.
    - destruct (lookup_lt_is_Some_2 stages k) as [stage Hs].
      { apply lookup_lt_Some in Ha. lia. }
      destruct (Hk k stage Hs) as (arr' & Ha' & Hc & Hv). simplify_eq.
      unfold slot_keys. rewrite Hc, Hv. apply keys_from_unresolved. }
  clear -Hall. induction Hall as [| arr h Harr _ IH]; [done |].
  rewrite bind_cons, Harr, IH. done.
Qed.

(** A fresh chain over an input of at least two values satisfies the
    invariant, with the table of the chain. *)
Lemma Inv_chain (input_values : list Z) (stages : list LiftingStage)
    (h : list LoggingLazyList) (lg : AccessLogger) :
  chain_shape input_values stages h →
  (2 ≤ length input_values)%nat → Forall stage_ok stages →
  _call_stack lg = [] → call_log lg = [] →
  Inv (chain_table input_values stages) (mkState lg h).
Proof.
  intros Hshape Hn Hok Hstack Hlog.
  pose proof (chain_shape_unresolved _ _ _ Hshape) as Hkeys.
  destruct Hshape as (Hlen & (nm & H0) & Hk).
  split; [| split]; proj.
  - split.
    + unfold chain_table. cbn. by rewrite chain_values_length, Hlen.
    + intros a arr Ha. destruct a as [| k].
      * simplify_eq. exists input_values. split; [done |]. proj.
        split; [by rewrite length_fmap |]. split; [| done].
        intros j v Hj. rewrite list_lookup_fmap in Hj.
        destruct (input_values !! j); by simplify_eq/=.
      * destruct (lookup_lt_is_Some_2 stages k) as [stage Hs].
        { apply lookup_lt_Some in Ha. lia. }
        destruct (Hk k stage Hs) as (arr' & Ha' & Hc & Hv). simplify_eq.
        destruct (chain_table_lookup input_values stages k stage Hs)
          as (ds & Hds & Hdl & Hd).
        exists (lift_list stage ds). split; [done |]. rewrite Hc, Hv.
        split; [by rewrite length_replicate, lift_list_length |]. split.
        -- intros j v Hj. by apply lookup_replicate in Hj as [[=] _].
        -- split; [lia |]. split; [by eapply Forall_lookup_1 in Hok |].
           exists ds. split; [done |]. split; [lia | done].
  - unfold stack_ok. by rewrite Hstack.
  - rewrite Hkeys. unfold completed_keys. by rewrite Hlog.
Qed.

Lemma filter_tables (w : WaveletFilters) :
  ∃ analysis synthesis,
    ANALYSIS_FILTERS !! w = Some analysis ∧
    SYNTHESIS_FILTERS !! w = Some synthesis ∧
    analysis = with_inverted_lift_type <$> reverse synthesis ∧
    chain_stages w = analysis ++ synthesis ∧
    Forall stage_ok (analysis ++ synthesis).
Proof.
  destruct (SYNTHESIS_FILTERS_total w) as [synthesis HS].
  exists (with_inverted_lift_type <$> reverse synthesis), synthesis.
  assert (HA : ANALYSIS_FILTERS !! w
               = Some (with_inverted_lift_type <$> reverse synthesis))
    by (by rewrite ANALYSIS_FILTERS_lookup, HS).
  split; [done |]. split; [done |]. split; [done |].
  split; [unfold chain_stages; by rewrite HA, HS |].
  destruct w; vm_compute in HS; injection HS as <-;
    repeat constructor; unfold stage_ok; cbn; lia.
Qed.

Lemma getitem_fuel_returns (D : list (list Z)) (n : Z) (fuel : nat) (a : nat) (i : Z)
    (st : State) :
  Inv D st → Forall (λ d, Z.of_nat (length d) = n) D →
  (a < length D)%nat → (a < fuel)%nat → 0 ≤ i < n →
  ∃ st', getitem fuel a i st = (Ok (table_value D a i), st') ∧
         good D a st st' ∧
         slot st' a (Z.to_nat i) = Some (table_value D a i).
Proof.
  intros HI Hall Ha Hfuel Hi.
  destruct (lookup_lt_is_Some_2 D a Ha) as [d Hd].
  pose proof (Forall_lookup_1 _ _ _ _ Hall Hd) as Hlen. cbn in Hlen.
  unfold table_value. rewrite (list_lookup_total_correct _ _ _ Hd).
  apply getitem_returns; try done. lia.
Qed.

Lemma run_reads_returns (D : list (list Z)) (n : Z) (fuel : nat)
    (reads : list (nat * Z)) :
  Forall (λ d, Z.of_nat (length d) = n) D → (length D ≤ fuel)%nat →
  reads_in_range (length D) n reads →
  ∀ st, Inv D st →
    ∃ st', run_reads fuel reads st
           = (Ok ((λ r, table_value D r.1 r.2) <$> reads), st') ∧
           good D (length D) st st' ∧
           Forall (λ r, slot st' r.1 (Z.to_nat r.2) = Some (table_value D r.1 r.2)) reads.
Proof.
  intros Hall Hfuel Hreads. induction Hreads as [| [a i] reads [Ha Hi] _ IH];
    intros st HI.
  - exists st. split; [done |]. split; [by apply good_refl | constructor].
  - cbn [fst snd] in Ha, Hi.
    destruct (getitem_fuel_returns D n fuel a i st) as (st1 & H1 & G1 & S1);
      try done; [lia |].
    destruct (IH st1) as (st2 & H2 & G2 & S2); [apply G1 |].
    exists st2. cbn [run_reads]. unfold bind at 1. rewrite H1.
    unfold bind at 1. rewrite H2. split; [done |]. split.
    + eapply good_trans; [| exact G2]. eapply good_weaken; [| exact G1]. lia.
    + constructor; [| done]. cbn [fst snd].
      destruct G2 as (_ & _ & _ & R2). by apply R2.
Qed.

(** ** The access drivers *)

Lemma iter_loop_run_reads (fuel : nat) (self : nat) (range : list Z) :
  iter_loop fuel self range = run_reads fuel (pair self <$> range).
Proof.
  induction range as [| i range IH]; [done |].
  cbn [iter_loop run_reads fmap list_fmap]. by rewrite IH.
Qed.

Lemma resolved_all_good (D : list (list Z)) (n : Z) (a b : nat) (st st' : State) :
  resolved_all D n a st → good D b st st' → resolved_all D n a st'.
Proof. intros H (_ & _ & _ & R) j Hj. apply R. by apply H. Qed.

Lemma to_list_returns (D : list (list Z)) (n : Z) (fuel : nat) (a : nat) (st : State) :
  Forall (λ d, Z.of_nat (length d) = n) D → (length D ≤ fuel)%nat →
  (a < length D)%nat → Inv D st →
  ∃ st', to_list fuel a st = (Ok (table_value D a <$> seqZ 0 n), st') ∧
         good D (length D) st st' ∧ resolved_all D n a st'.
Proof.
  intros Hall Hfuel Ha HI.
  destruct (lookup_lt_is_Some_2 D a Ha) as [d Hd].
  pose proof (Forall_lookup_1 _ _ _ _ Hall Hd) as Hlen. cbn in Hlen.
  destruct (Inv_lookup D st a d HI Hd) as (arr & Harr & Hl & _).
  unfold to_list, bind. rewrite (len_run _ _ _ Harr). rewrite Hl, Hlen.
  rewrite iter_loop_run_reads.
  destruct (run_reads_returns D n fuel (pair a <$> seqZ 0 n) Hall Hfuel) with (st := st)
    as (st' & Hr & G & S); [| done |].
  { apply Forall_fmap, Forall_seqZ. intros j Hj. cbn. split; [done | lia]. }
  exists st'. split.
  - rewrite Hr. f_equal. f_equal. rewrite <- list_fmap_compose. done.
  - split; [done |]. intros j Hj.
    rewrite Forall_fmap in S. rewrite Forall_seqZ in S. apply (S j). lia.
Qed.

Lemma for_each_returns {A} (D : list (list Z)) (N : nat) (xs : list A)
    (body : A → M unit) (P : A → State → Prop) :
  (∀ x st, x ∈ xs → Inv D st →
           ∃ st', body x st = (Ok tt, st') ∧ good D N st st' ∧ P x st') →
  (∀ x st st', P x st → good D N st st' → P x st') →
  ∀ st, Inv D st →
    ∃ st', for_each xs body st = (Ok tt, st') ∧ good D N st st' ∧
           ∀ x, x ∈ xs → P x st'.
Proof.
  intros Hbody Hmono. induction xs as [| x xs IH]; intros st HI.
  - exists st. split; [done |]. split; [by apply good_refl |].
    intros x Hx. by apply elem_of_nil in Hx.
  - destruct (Hbody x st) as (st1 & H1 & G1 & P1); [by left | done |].
    destruct IH with (st := st1) as (st2 & H2 & G2 & P2).
    { intros y st' Hy. apply Hbody. by right. }
    { apply G1. }
    exists st2. cbn [for_each]. unfold bind. rewrite H1. split; [done |].
    split; [by eapply good_trans |].
    intros y Hy. apply elem_of_cons in Hy as [-> | Hy]; [| by apply P2].
    by eapply Hmono.
Qed.

Lemma list_getitem_seq (N k : nat) (st : State) :
  (k < N)%nat → list_getitem (seq 0 N) (Z.of_nat k) st = (Ok k, st).
Proof.
  intros Hk. apply list_getitem_run; [lia |].
  rewrite Nat2Z.id. by rewrite lookup_seq_lt by lia.
Qed.

Lemma list_getitem_seq_last (N : nat) (st : State) :
  list_getitem (seq 0 (S N)) (-1) st = (Ok N, st).
Proof. apply list_getitem_last_seq. Qed.

Lemma list_getitem_len_last {A} (D : list A) (N : nat) (st : State) :
  length D = S N → list_getitem (seq 0 (length D)) (-1) st = (Ok N, st).
Proof. intros ->. apply list_getitem_seq_last. Qed.

Lemma append_delays_run (stages : list LiftingStage) :
  ∀ delays st, delays ≠ [] →
    append_delays delays stages st = (Ok (extend_delays delays stages), st).
Proof.
  induction stages as [| stage stages IH]; intros delays st Hne; [done |].
  cbn [append_delays extend_delays foldl].
  destruct (last delays) as [d |] eqn:Hlast; [| by apply last_None in Hlast].
  unfold bind.
  assert (Hget : list_getitem delays (-1) st = (Ok d, st)).
  { unfold list_getitem, py_index.
    assert (0 < length delays)%nat by (destruct delays; [done | cbn; lia]).
    rewrite decide_False by lia. rewrite decide_True by lia.
    rewrite last_lookup in Hlast.
    replace (Z.to_nat (Z.of_nat (length delays) + -1)) with (pred (length delays)) by lia.
    by rewrite Hlast. }
  rewrite Hget. cbn [default]. apply IH. by destruct delays.
Qed.

Lemma block_returns (D : list (list Z)) (n : Z) (fuel : nat) (w : WaveletFilters)
    (st : State) :
  Forall (λ d, Z.of_nat (length d) = n) D → (length D ≤ fuel)%nat → Inv D st →
  ∃ st', access_like_block_filter fuel (seq 0 (length D)) w st = (Ok tt, st') ∧
         good D (length D) st st' ∧
         ∀ a, (a < length D)%nat → resolved_all D n a st'.
Proof.
  intros Hall Hfuel HI. unfold access_like_block_filter.
  destruct (for_each_returns D (length D) (seq 0 (length D))
              (λ array, to_list fuel array ;; ret tt) (resolved_all D n))
    with (st := st) as (st' & Hr & G & P); [| | done |].
  - intros a st1 Ha HI1. apply elem_of_seq in Ha.
    destruct (to_list_returns D n fuel a st1) as (st2 & H2 & G2 & R2);
      try done; [lia |].
    exists st2. unfold bind. by rewrite H2.
  - intros a st1 st2. apply resolved_all_good.
  - exists st'. split; [done |]. split; [done |].
    intros a Ha. apply P. apply elem_of_seq. lia.
Qed.

Lemma on_demand_returns (D : list (list Z)) (n : Z) (fuel : nat) (w : WaveletFilters)
    (N : nat) (st : State) :
  Forall (λ d, Z.of_nat (length d) = n) D → (length D ≤ fuel)%nat → Inv D st →
  length D = S N →
  ∃ st', access_on_demand fuel (seq 0 (length D)) w st = (Ok tt, st') ∧
         good D (length D) st st' ∧ resolved_all D n N st'.
Proof.
  intros Hall Hfuel HI HN. unfold access_on_demand, bind.
  rewrite (list_getitem_len_last D N) by done.
  destruct (to_list_returns D n fuel N st) as (st2 & H2 & G2 & R2);
    try done; [lia |].
  exists st2. by rewrite H2.
Qed.

Lemma two_steps_returns (D : list (list Z)) (n : Z) (fuel : nat) (w : WaveletFilters)
    (N : nat) (analysis : list LiftingStage) (st : State) :
  Forall (λ d, Z.of_nat (length d) = n) D → (length D ≤ fuel)%nat → Inv D st →
  length D = S N → ANALYSIS_FILTERS !! w = Some analysis →
  (length analysis < length D)%nat →
  ∃ st', access_on_demand_encode_then_decode fuel (seq 0 (length D)) w st
         = (Ok tt, st') ∧
         good D (length D) st st' ∧ resolved_all D n N st'.
Proof.
  intros Hall Hfuel HI HN HA Hlt.
  unfold access_on_demand_encode_then_decode, bind, dict_getitem.
  rewrite HA. cbn [ret]. rewrite list_getitem_seq by done.
  destruct (to_list_returns D n fuel (length analysis) st) as (st1 & H1 & G1 & R1);
    try done.
  rewrite H1. rewrite (list_getitem_len_last D N) by done.
  destruct (to_list_returns D n fuel N st1) as (st2 & H2 & G2 & R2);
    try done; [lia | apply G1 |].
  exists st2. rewrite H2. split; [done |]. split; [by eapply good_trans | done].
Qed.

Lemma extend_delays_length (stages : list LiftingStage) (delays : list Z) :
  length (extend_delays delays stages) = (length delays + length stages)%nat.
Proof.
  revert delays. induction stages as [| s stages IH]; intros delays; cbn.
  - lia.
  - unfold extend_delays in IH. rewrite IH, length_app. cbn. lia.
Qed.

Lemma extend_delays_nonempty (stages : list LiftingStage) (delays : list Z) :
  delays ≠ [] → extend_delays delays stages ≠ [].
Proof.
  intros Hne Heq. apply (f_equal length) in Heq.
  rewrite extend_delays_length in Heq. destruct delays; [done | cbn in Heq; lia].
Qed.

Lemma foldl_max_ge (x : Z) (l : list Z) :
  x ≤ foldl Z.max x l ∧ Forall (λ y, y ≤ foldl Z.max x l) l.
Proof.
  revert x. induction l as [| y l IH]; intros x; cbn; [split; [lia | constructor] |].
  destruct (IH (Z.max x y)) as [H1 H2]. split; [lia |].
  constructor; [lia | done].
Qed.

Lemma py_max_run (l : list Z) (st : State) :
  l ≠ [] → ∃ m, py_max l st = (Ok m, st) ∧ Forall (λ y, y ≤ m) l.
Proof.
  destruct l as [| x l]; [done |]. intros _. eexists. split; [done |].
  destruct (foldl_max_ge x l) as [H1 H2]. by constructor.
Qed.

(** The delays of the chained order, for the stages of a wavelet. *)
Lemma chained_delays (w : WaveletFilters) (analysis synthesis : list LiftingStage) :
  ANALYSIS_FILTERS !! w = Some analysis →
  SYNTHESIS_FILTERS !! w = Some synthesis →
  Forall (λ dl, 0 ≤ dl) (extend_delays (extend_delays [0] analysis) synthesis).
Proof.
  intros HA HS. rewrite ANALYSIS_FILTERS_lookup, HS in HA. injection HA as <-.
  destruct w; vm_compute in HS; injection HS as <-; vm_compute;
    repeat constructor; discriminate.
Qed.

Lemma chained_returns (D : list (list Z)) (n : Z) (fuel : nat) (w : WaveletFilters)
    (N : nat) (analysis synthesis : list LiftingStage) (st : State) :
  Forall (λ d, Z.of_nat (length d) = n) D → (length D ≤ fuel)%nat → Inv D st →
  length D = S N →
  ANALYSIS_FILTERS !! w = Some analysis →
  SYNTHESIS_FILTERS !! w = Some synthesis →
  N = length (analysis ++ synthesis) →
  ∃ st', access_like_chained_filters fuel (seq 0 (length D)) w st = (Ok tt, st') ∧
         good D (length D) st st' ∧ resolved_all D n N st'.
Proof.
  intros Hall Hfuel HI HN HA HS HNs.
  pose proof (chained_delays w analysis synthesis HA HS) as Hpos.
  unfold access_like_chained_filters, dict_getitem. unfold bind at 1.
  rewrite HA. cbn [ret]. unfold bind at 1.
  rewrite append_delays_run by done. unfold bind at 1. rewrite HS. cbn [ret].
  unfold bind at 1.
  rewrite append_delays_run by (by apply extend_delays_nonempty).
  set (delays := extend_delays (extend_delays [0] analysis) synthesis) in *.
  assert (Hdl : length delays = S N).
  { subst delays. rewrite !extend_delays_length, HNs, length_app. cbn. lia. }
  unfold bind at 1. rewrite (list_getitem_len_last D N) by done.
  destruct (lookup_lt_is_Some_2 D N) as [d Hd]; [lia |].
  pose proof (Forall_lookup_1 _ _ _ _ Hall Hd) as Hlen. cbn in Hlen.
  destruct (Inv_lookup D st N d HI Hd) as (arr & Harr & Hl & _).
  unfold bind at 1. rewrite (len_run _ _ _ Harr). rewrite Hl, Hlen.
  destruct (py_max_run delays st) as (m & Hm & Hmax);
    [by intros Heq; rewrite Heq in Hdl |].
  unfold bind at 1. rewrite Hm.
  set (inner := λ (i : Z) '(delay, array),
         (let* n0 := len array in
          if bool_decide (0 ≤ i - delay < n0)
          then getitem fuel array (i - delay) ;; ret tt else ret tt)).
  set (Pin := λ (i : Z) (p : Z * nat) (st : State),
         0 ≤ i - p.1 < n →
         slot st p.2 (Z.to_nat (i - p.1)) = Some (table_value D p.2 (i - p.1))).
  assert (Hinner : ∀ i st1, Inv D st1 →
    ∃ st2, for_each (zip delays (seq 0 (length D))) (inner i) st1 = (Ok tt, st2) ∧
           good D (length D) st1 st2 ∧
           ∀ p, p ∈ zip delays (seq 0 (length D)) → Pin i p st2).
  { intros i st1 HI1. apply for_each_returns; [| | done].
    - intros [dl a] st2 Hin HI2. apply elem_of_zip_r in Hin. apply elem_of_seq in Hin.
      destruct (lookup_lt_is_Some_2 D a) as [da Hda]; [lia |].
      pose proof (Forall_lookup_1 _ _ _ _ Hall Hda) as Hlena. cbn in Hlena.
      destruct (Inv_lookup D st2 a da HI2 Hda) as (arra & Harra & Hla & _).
      unfold inner, bind. rewrite (len_run _ _ _ Harra). rewrite Hla, Hlena.
      case_bool_decide as Hrange.
      + destruct (getitem_fuel_returns D n fuel a (i - dl) st2)
          as (st3 & H3 & G3 & S3); try done; [lia | lia |].
        rewrite H3. exists st3. split; [done |]. split.
        * eapply good_weaken; [| exact G3]. lia.
        * by intros _.
      + exists st2. split; [done |]. split; [by apply good_refl |].
        intros Hr. by destruct Hrange.
    - intros p st2 st3 HP (_ & _ & _ & R) Hr. apply R. by apply HP. }
  destruct (for_each_returns D (length D) (seqZ 0 (n + m))
              (λ i, for_each (zip delays (seq 0 (length D))) (inner i))
              (λ i st, ∀ p, p ∈ zip delays (seq 0 (length D)) → Pin i p st))
    with (st := st) as (st' & Hr & G & P); [| | done |].
  - intros i st1 _ HI1. apply Hinner, HI1.
  - intros i st1 st2 HP (_ & _ & _ & R) p Hp Hrange. apply R. by apply HP.
  - exists st'. split; [exact Hr |]. split; [done |].
    intros j Hj.
    destruct (lookup_lt_is_Some_2 delays N) as [dl Hdl']; [lia |].
    assert (Hdl0 : 0 ≤ dl) by (by eapply Forall_lookup_1 in Hpos).
    assert (Hdlm : dl ≤ m) by (by eapply Forall_lookup_1 in Hmax).
    assert (HP : Pin (j + dl) (dl, N) st').
    { apply P.
      - apply elem_of_seqZ. lia.
      - apply (list_elem_of_lookup_2 _ N). rewrite lookup_zip_with, Hdl'. cbn.
        by rewrite lookup_seq_lt by lia. }
    unfold Pin in HP. cbn [fst snd] in HP.
    replace (j + dl - dl) with j in HP by lia. by apply HP.
Qed.

(** ** Sessions *)

Lemma built_state (input_values : list Z) (w : WaveletFilters) :
  (2 ≤ length input_values)%nat →
  ∃ analysis synthesis,
    ANALYSIS_FILTERS !! w = Some analysis ∧
    SYNTHESIS_FILTERS !! w = Some synthesis ∧
    analysis = with_inverted_lift_type <$> reverse synthesis ∧
    chain_stages w = analysis ++ synthesis ∧
    construct_all_arrays input_values w initial_state
    = (Ok (seq 0 (length (chain_table input_values (chain_stages w)))),
       mkState AccessLogger_init (all_arrays input_values analysis synthesis)) ∧
    Inv (chain_table input_values (chain_stages w))
        (mkState AccessLogger_init (all_arrays input_values analysis synthesis)).
Proof.
  intros Hn. destruct (filter_tables w) as (A & S & HA & HS & Hinv & Hst & Hok).
  exists A, S. split; [done |]. split; [done |]. split; [done |]. split; [done |].
  split.
  - unfold initial_state. rewrite (construct_all_arrays_run _ _ _ A S) by done.
    do 3 f_equal. unfold chain_table. cbn [length].
    rewrite chain_values_length, Hst, length_app. lia.
  - rewrite Hst. apply Inv_chain; try done. apply all_arrays_shape.
Qed.

Lemma chain_table_length (input_values : list Z) (stages : list LiftingStage) :
  length (chain_table input_values stages) = S (length stages).
Proof. unfold chain_table. cbn. by rewrite chain_values_length. Qed.

Lemma chain_table_lengths (input_values : list Z) (stages : list LiftingStage) :
  Forall (λ d, Z.of_nat (length d) = Z.of_nat (length input_values))
         (chain_table input_values stages).
Proof.
  eapply Forall_impl; [apply chain_table_all_length |].
  intros d Hd. cbn in Hd. by rewrite Hd.
Qed.

Lemma chain_table_last (src : list Z) (stages : list LiftingStage) :
  chain_table src stages !! length stages = Some (chain_last src stages).
Proof.
  unfold chain_table, chain_last. revert src.
  induction stages as [| s stages IH]; intros src; [done |].
  cbn [length chain_values foldl]. rewrite lookup_cons.
  specialize (IH (lift_list s src)). by destruct stages.
Qed.

Lemma chain_last_app (src : list Z) (s1 s2 : list LiftingStage) :
  chain_last src (s1 ++ s2) = chain_last (chain_last src s1) s2.
Proof. unfold chain_last. apply foldl_app. Qed.

Lemma chain_last_length (src : list Z) (stages : list LiftingStage) :
  length (chain_last src stages) = length src.
Proof.
  revert src. induction stages as [| s stages IH]; intros src; [done |].
  cbn. unfold chain_last in IH. by rewrite IH, lift_list_length.
Qed.

(** Analysis followed by synthesis is the identity on the values of a
    sequence of even length. *)
Lemma chain_last_roundtrip (src : list Z) (synthesis : list LiftingStage) :
  (2 ≤ length src)%nat → Z.of_nat (length src) `mod` 2 = 0 →
  chain_last src ((with_inverted_lift_type <$> reverse synthesis) ++ synthesis) = src.
Proof.
  intros Hn Heven. induction synthesis as [| s synthesis IH]; [done |].
  rewrite reverse_cons, fmap_app. cbn [fmap list_fmap].
  rewrite <- app_assoc. cbn [app].
  rewrite chain_last_app. cbn [chain_last foldl].
  fold (chain_last (lift_list s
          (lift_list (with_inverted_lift_type s)
             (chain_last src (with_inverted_lift_type <$> reverse synthesis))))
          synthesis).
  rewrite <- (with_inverted_lift_type_twice s) at 1.
  rewrite lift_list_inverse by (by rewrite chain_last_length).
  by rewrite <- chain_last_app.
Qed.

Lemma table_value_row (D : list (list Z)) (a : nat) (d : list Z) :
  D !! a = Some d →
  table_value D a <$> seqZ 0 (Z.of_nat (length d)) = d.
Proof.
  intros Hd. apply list_eq_same_length with (length d);
    [done | by rewrite length_fmap, length_seqZ, Nat2Z.id |].
  intros j x y Hj Hx Hy. rewrite list_lookup_fmap in Hx.
  rewrite lookup_seqZ_lt in Hx by lia. cbn in Hx. injection Hx as <-.
  unfold table_value. rewrite (list_lookup_total_correct _ _ _ Hd).
  rewrite Z.add_0_l, Nat2Z.id. by apply list_lookup_total_correct.
Qed.

(** * The claims *)

(** C6.  Inverting a stage twice gives the stage back; one inversion
    keeps [S], [L], [D] and the taps, and swaps add and subtract within
    the even-update and within the odd-update kinds. *)
Theorem inversion_involution :
  ∀ s : LiftingStage,
    with_inverted_lift_type (with_inverted_lift_type s) = s ∧
    LiftingStage.S (with_inverted_lift_type s) = LiftingStage.S s ∧
    LiftingStage.L (with_inverted_lift_type s) = LiftingStage.L s ∧
    LiftingStage.D (with_inverted_lift_type s) = LiftingStage.D s ∧
    LiftingStage.taps (with_inverted_lift_type s) = LiftingStage.taps s ∧
    LiftingStage.lift_type (with_inverted_lift_type s)
    = match LiftingStage.lift_type s with
      | even_add_odd => even_subtract_odd
      | even_subtract_odd => even_add_odd
      | odd_add_even => odd_subtract_even
      | odd_subtract_even => odd_add_even
      end.
Proof.
  intros s. split; [apply with_inverted_lift_type_twice |].
  by destruct s as [[] ? ? ? ?].
Qed.

(** C5.  Every wavelet identifier has a synthesis and an analysis list,
    and the analysis list is the synthesis list reversed with each
    stage inverted: stage [k] of the synthesis list is found at
    position [len - 1 - k] of the analysis list with the same [S], [L],
    [D] and taps and the inverted kind. *)
Theorem analysis_is_inverted_reversed_synthesis :
  ∀ w : WaveletFilters,
    ∃ analysis synthesis,
      ANALYSIS_FILTERS !! w = Some analysis ∧
      SYNTHESIS_FILTERS !! w = Some synthesis ∧
      analysis = with_inverted_lift_type <$> reverse synthesis ∧
      length analysis = length synthesis ∧
      ∀ k s, synthesis !! k = Some s →
        ∃ a, analysis !! (length synthesis - 1 - k)%nat = Some a ∧
             LiftingStage.lift_type a = inverted_lift_type (LiftingStage.lift_type s) ∧
             LiftingStage.S a = LiftingStage.S s ∧
             LiftingStage.L a = LiftingStage.L s ∧
             LiftingStage.D a = LiftingStage.D s ∧
             LiftingStage.taps a = LiftingStage.taps s.
Proof.
  intros w. destruct (filter_tables w) as (ana & syn & HA & HS & Hinv & _).
  exists ana, syn. split; [done |]. split; [done |]. split; [done |].
  split; [subst ana; by rewrite length_fmap, length_reverse |].
  intros k s Hk. exists (with_inverted_lift_type s). split; [| done].
  subst ana. rewrite list_lookup_fmap.
  pose proof (lookup_lt_Some _ _ _ Hk) as Hlt.
  rewrite reverse_lookup by lia.
  replace (length syn - S (length syn - 1 - k))%nat with k by lia.
  by rewrite Hk.
Qed.

(** C10.  The synthesis lists stored for [haar_no_shift] and
    [haar_with_shift] are equal, so are the derived analysis lists, and
    the two identifiers give the same chain and the same session. *)
Theorem haar_tables_equal :
  SYNTHESIS_FILTERS !! haar_no_shift = SYNTHESIS_FILTERS !! haar_with_shift ∧
  is_Some (SYNTHESIS_FILTERS !! haar_no_shift) ∧
  ANALYSIS_FILTERS !! haar_no_shift = ANALYSIS_FILTERS !! haar_with_shift ∧
  (∀ input_values st,
     construct_all_arrays input_values haar_no_shift st
     = construct_all_arrays input_values haar_with_shift st) ∧
  (∀ fuel input_values reads,
     session fuel input_values haar_no_shift reads
     = session fuel input_values haar_with_shift reads).
Proof.
  assert (HS : SYNTHESIS_FILTERS !! haar_no_shift = SYNTHESIS_FILTERS !! haar_with_shift)
    by (by vm_compute).
  assert (HA : ANALYSIS_FILTERS !! haar_no_shift = ANALYSIS_FILTERS !! haar_with_shift)
    by (by rewrite !ANALYSIS_FILTERS_lookup, HS).
  assert (HC : ∀ input_values st,
     construct_all_arrays input_values haar_no_shift st
     = construct_all_arrays input_values haar_with_shift st).
  { intros input_values st. unfold construct_all_arrays, dict_getitem.
    by rewrite HA, HS. }
  split; [done |]. split; [apply SYNTHESIS_FILTERS_total |]. split; [done |].
  split; [done |].
  intros fuel input_values reads. unfold session, bind. by rewrite HC.
Qed.

Lemma framed_run_reads (fuel : nat) (reads : list (nat * Z)) :
  framed (run_reads fuel reads).
Proof.
  induction reads as [| [a i] reads IH]; cbn [run_reads]; [apply framed_ret |].
  apply framed_bind; [apply framed_getitem |]. intros v.
  apply framed_bind; [apply IH |]. intros vs. apply framed_ret.
Qed.

Lemma session_unfold (fuel : nat) (input_values : list Z) (w : WaveletFilters)
    (reads : list (nat * Z)) :
  ∃ analysis synthesis,
    ANALYSIS_FILTERS !! w = Some analysis ∧
    SYNTHESIS_FILTERS !! w = Some synthesis ∧
    chain_stages w = analysis ++ synthesis ∧
    session fuel input_values w reads
    = run_reads fuel reads
        (mkState AccessLogger_init (all_arrays input_values analysis synthesis)).
Proof.
  destruct (filter_tables w) as (ana & syn & HA & HS & _ & Hst & _).
  exists ana, syn. split; [done |]. split; [done |]. split; [done |].
  unfold session, bind, initial_state.
  by rewrite (construct_all_arrays_run _ _ _ ana syn).
Qed.

(** C8.  [construct_all_arrays] returns one array for the input and one
    per analysis and per synthesis stage; the first holds the input
    values, each later one is a lifted array over the array before it,
    with the stages of the filter tables in order and the names of
    [all_arrays].  Nothing is computed:
    no slot of a lifted array is resolved and the logger, with its call
    log, is as it was. *)
Theorem construction_is_structural :
  ∀ (input_values : list Z) (w : WaveletFilters) (lg : AccessLogger),
    ∃ analysis synthesis h,
      ANALYSIS_FILTERS !! w = Some analysis ∧
      SYNTHESIS_FILTERS !! w = Some synthesis ∧
      construct_all_arrays input_values w (mkState lg [])
      = (Ok (seq 0 (1 + length analysis + length synthesis)), mkState lg h) ∧
      h = all_arrays input_values analysis synthesis ∧
      length h = (1 + length analysis + length synthesis)%nat ∧
      h !! 0%nat = Some (mkLLL "Encoder Input" (Some <$> input_values) BaseLLL) ∧
      (∀ k stage, (analysis ++ synthesis) !! k = Some stage →
         ∃ nm, h !! S k
               = Some (mkLLL nm (replicate (length input_values) None)
                         (LiftedLLL k stage))) ∧
      resolved_keys h = [] ∧
      call_log (logger (construct_all_arrays input_values w initial_state).2) = [].
Proof.
  intros input_values w lg.
  destruct (filter_tables w) as (ana & syn & HA & HS & _ & Hst & _).
  exists ana, syn, (all_arrays input_values ana syn).
  pose proof (all_arrays_shape input_values ana syn) as Hshape.
  split; [done |]. split; [done |].
  split; [by apply construct_all_arrays_run |]. split; [done |].
  split; [destruct Hshape as (-> & _); rewrite length_app; lia |].
  split; [done |]. split; [| split].
  - intros k stage Hk. destruct Hshape as (_ & _ & Hl).
    destruct (Hl k stage Hk) as ([nm vs cls] & H1 & H2 & H3).
    exists nm. cbn in H2, H3. by subst.
  - by eapply chain_shape_unresolved.
  - unfold initial_state. by rewrite (construct_all_arrays_run _ _ _ ana syn).
Qed.

(** C7.  Each read of the clock returns the time advanced by one, so a
    later read of the clock returns a strictly greater timestamp,
    whatever reads of arrays happen in between.  A read of an array,
    and the scope of a computation inside it, whatever their outcome,
    leave the call stack as they found it and never fail the assertion
    that the popped frame is the pushed one.  In a
    session the stack is empty after the reads, every call record is
    complete, and every record started strictly before it ended. *)
Theorem clock_and_stack_discipline :
  (∀ st, time st = (Ok (_time (logger st) + 1), (time st).2) ∧
         _time (logger (time st).2) = _time (logger st) + 1) ∧
  (∀ fuel reads st,
     ∃ t1 t2, (time st).1 = Ok t1 ∧
              (time (run_reads fuel reads (time st).2).2).1 = Ok t2 ∧
              t1 < t2) ∧
  (∀ fuel a i st,
     _call_stack (logger (getitem fuel a i st).2) = _call_stack (logger st) ∧
     (getitem fuel a i st).1 ≠ Raise AssertionError) ∧
  (∀ fuel array_name a i st,
     _call_stack
       (logger (new_context array_name i (compute_value (getitem fuel) a i) st).2)
     = _call_stack (logger st) ∧
     (new_context array_name i (compute_value (getitem fuel) a i) st).1
     ≠ Raise AssertionError) ∧
  (∀ fuel input_values w reads,
     _call_stack (logger (session fuel input_values w reads).2) = [] ∧
     Forall (λ r, ∃ e, CallRecord.end_time r = Some e ∧ CallRecord.start_time r < e)
            (call_log (logger (session fuel input_values w reads).2)) ∧
     times_ok (logger (session fuel input_values w reads).2)).
Proof.
  split; [by intros st |]. split; [| split; [| split]].
  - intros fuel reads st. rewrite !time_run. cbn [fst snd].
    eexists _, _. split; [done |]. split; [done |].
    destruct (framed_run_reads fuel reads (time st).2) as [[_ Ht _ _ _ _] _].
    rewrite time_run in Ht. cbn [snd logger _time] in Ht. lia.
  - intros fuel a i st. destruct (framed_getitem fuel a i st) as [Hf Hne].
    split; [apply Hf | done].
  - intros fuel array_name a i st.
    destruct (framed_new_context array_name i (compute_value (getitem fuel) a i)
                (framed_compute_value _ _ _ (framed_getitem fuel)) st) as [Hf Hne].
    split; [apply Hf | done].
  - intros fuel input_values w reads.
    destruct (session_unfold fuel input_values w reads)
      as (ana & syn & _ & _ & _ & ->).
    set (st0 := mkState _ _).
    destruct (framed_run_reads fuel reads st0) as [[Hs _ Hh _ _ Ht] _].
    assert (Hok : times_ok (logger (run_reads fuel reads st0).2))
      by (apply Ht; constructor).
    split; [by rewrite Hs |]. split; [| done].
    destruct Hh as (K & HK & Hc).
    change (call_heads (logger st0)) with (@nil (string * Z * Z * option Z)) in HK.
    cbn [app] in HK.
    unfold times_ok in Hok. apply Forall_lookup. intros c r Hr.
    assert (Hhd : K !! c = Some (call_head r)).
    { rewrite <- HK. unfold call_heads. by rewrite list_lookup_fmap, Hr. }
    pose proof (Forall_lookup_1 _ _ _ _ Hc Hhd) as [e He]. cbn in He.
    exists e. split; [done |].
    pose proof (Forall_lookup_1 _ _ _ _ Hok Hr) as (_ & H2 & _).
    specialize (H2 e He). lia.
Qed.

(** C1, as amended.  For every wavelet identifier and every integer
    input sequence of even length at least two, building the chain and
    reading every element of the decoder output gives the input back,
    element for element. *)
Theorem roundtrip_even_length (fuel : nat) (input_values : list Z) (w : WaveletFilters) :
  (2 ≤ length input_values)%nat →
  Z.of_nat (length input_values) `mod` 2 = 0 →
  (length (chain_stages w) < fuel)%nat →
  run_roundtrip fuel input_values w = Ok input_values.
Proof.
  intros Hn Heven Hfuel.
  destruct (built_state input_values w Hn)
    as (ana & syn & HA & HS & Hinv & Hst & Hrun & HI).
  set (D := chain_table input_values (chain_stages w)) in *.
  assert (HD : length D = S (length (chain_stages w))) by apply chain_table_length.
  unfold run_roundtrip, bind. rewrite Hrun.
  rewrite (list_getitem_len_last D (length (chain_stages w))) by done.
  destruct (to_list_returns D (Z.of_nat (length input_values)) fuel
              (length (chain_stages w))
              (mkState AccessLogger_init (all_arrays input_values ana syn)))
    as (st' & Hr & _); [apply chain_table_lengths | lia | lia | done |].
  rewrite Hr. cbn [fst]. f_equal.
  pose proof (chain_table_last input_values (chain_stages w)) as Hlast.
  fold D in Hlast.
  rewrite <- (chain_last_length input_values (chain_stages w)).
  rewrite (table_value_row D _ _ Hlast).
  rewrite Hst, Hinv. by apply chain_last_roundtrip.
Qed.

Lemma roundtrip_even_length_witness :
  run_roundtrip 10 [1; 2; 3; 4] le_gall_5_3 = Ok [1; 2; 3; 4].
Proof.
  apply (roundtrip_even_length 10 [1; 2; 3; 4] le_gall_5_3).
  - cbn. lia.
  - reflexivity.
  - vm_compute. lia.
Defined.

(** C1, the counterexample: the LeGall 5/3 chain over the three values
    1, 2, 3 gives back 1, 1, 3. *)
Lemma roundtrip_odd_length_counterexample :
  run_roundtrip 10 [1; 2; 3] le_gall_5_3 = Ok [1; 1; 3] ∧
  run_roundtrip 10 [1; 2; 3] le_gall_5_3 ≠ Ok [1; 2; 3].
Proof. split; [by vm_compute | by vm_compute]. Qed.

(** ** Reads outside the array *)

Lemma py_index_out_of_range {A} (l : list A) (i : Z) :
  Z.of_nat (length l) ≤ i ∨ i < - Z.of_nat (length l) → py_index l i = None.
Proof.
  intros H. unfold py_index. rewrite decide_False by lia.
  by rewrite decide_False by lia.
Qed.

Lemma session_returns (fuel : nat) (input_values : list Z) (w : WaveletFilters)
    (reads : list (nat * Z)) :
  (2 ≤ length input_values)%nat →
  (length (chain_stages w) < fuel)%nat →
  reads_in_range (S (length (chain_stages w))) (Z.of_nat (length input_values)) reads →
  let D := chain_table input_values (chain_stages w) in
  ∃ analysis synthesis st,
    ANALYSIS_FILTERS !! w = Some analysis ∧
    SYNTHESIS_FILTERS !! w = Some synthesis ∧
    chain_stages w = analysis ++ synthesis ∧
    session fuel input_values w reads
    = (Ok ((λ r, table_value D r.1 r.2) <$> reads), st) ∧
    good D (length D)
      (mkState AccessLogger_init (all_arrays input_values analysis synthesis)) st ∧
    Forall (λ r, slot st r.1 (Z.to_nat r.2) = Some (table_value D r.1 r.2)) reads.
Proof.
  intros Hn Hfuel Hreads D.
  destruct (built_state input_values w Hn)
    as (ana & syn & HA & HS & Hinv & Hst & Hrun & HI).
  fold D in Hrun, HI.
  assert (HD : length D = S (length (chain_stages w))) by apply chain_table_length.
  destruct (run_reads_returns D (Z.of_nat (length input_values)) fuel reads)
    with (st := mkState AccessLogger_init (all_arrays input_values ana syn))
    as (st & Hr & G & Sl); [apply chain_table_lengths | lia | by rewrite HD | done |].
  exists ana, syn, st. split; [done |]. split; [done |]. split; [done |].
  split; [| done]. unfold session, bind. by rewrite Hrun.
Qed.

(** C9, as amended.  For every array of the store, of length [n], a
    read with an index [i >= n] or [i < -n] fails with a bounds error
    ([IndexError]), never returning a value, and leaves the slots of
    every array as they were.  This holds from every state with a sound
    call stack, whatever the class of the array, its length (zero and
    one included) and the reads made before, returned or not. *)
Theorem out_of_range_read_fails (fuel : nat) (a : nat) (i : Z) (st : State)
    (arr : LoggingLazyList) :
  stack_ok (logger st) → heap st !! a = Some arr →
  Z.of_nat (length (_values arr)) ≤ i ∨ i < - Z.of_nat (length (_values arr)) →
  (getitem (S fuel) a i st).1 = Raise IndexError ∧
  heap (getitem (S fuel) a i st).2 = heap st.
Proof.
  intros Hok Harr Hi.
  destruct (getitem (S fuel) a i st) as [r st'] eqn:Hrun. cbn [fst snd].
  revert Hrun.
  cbn [getitem]. unfold bind at 1. rewrite (deref_run _ _ _ Harr).
  unfold log_access. unfold bind at 1.
  destruct (log_access_enter_ok (name arr) i st Hok)
    as (held & st1 & Henter & Hq1 & Hheld).
  rewrite Henter. unfold try_finally.
  assert (Hbody : getitem_body (getitem fuel) a i st1 = (Raise IndexError, st1)).
  { unfold getitem_body. unfold bind at 1.
    rewrite (deref_run st1 a arr) by (by rewrite (quiet_frame_heap _ _ Hq1)).
    unfold bind, list_getitem. by rewrite py_index_out_of_range. }
  rewrite Hbody.
  destruct (log_access_exit_ok (name arr) i held st1 Hheld) as (st3 & Hexit & Hq3).
  rewrite Hexit. intros [= <- <-]. split; [done |].
  by rewrite (quiet_frame_heap _ _ Hq3), (quiet_frame_heap _ _ Hq1).
Qed.

Lemma out_of_range_read_fails_witness :
  (getitem 10 4 1 (session 10 [7] le_gall_5_3 [(4%nat, 0)]).2).1 = Raise IndexError ∧
  heap (getitem 10 4 1 (session 10 [7] le_gall_5_3 [(4%nat, 0)]).2).2
  = heap (session 10 [7] le_gall_5_3 [(4%nat, 0)]).2.
Proof.
  apply (out_of_range_read_fails 9 4 1 (session 10 [7] le_gall_5_3 [(4%nat, 0)]).2
           (mkLLL "Decoder Output" [None]
              (LiftedLLL 3 (mkLiftingStage odd_add_even 1 2 0 [1; 1])))).
  - vm_compute. constructor.
  - reflexivity.
  - left. cbn. lia.
Defined.

(** C9, the counterexample: index [-1] is outside [0, 2), and the read
    of the input array of length two returns its last value. *)
Lemma negative_index_read_counterexample :
  (getitem 10 0 (-1) (session 10 [5; 7] haar_no_shift []).2).1 = Ok 7.
Proof. by vm_compute. Qed.

(** ** A chain over any stages, and the stage in the words of the specification *)

Lemma construct_chain_run (input_values : list Z) (stages : list LiftingStage)
    (lg : AccessLogger) :
  ∃ h, construct_chain input_values stages (mkState lg [])
       = (Ok (seq 0 (S (length stages))), mkState lg h) ∧
       chain_shape input_values stages h.
Proof.
  unfold construct_chain.
  unfold bind at 1. cbv [LoggingLazyList_init bind get_heap put_heap ret]. proj.
  cbn [app length]. unfold construct_lifted_arrays.
  rewrite (construct_lifted_arrays_loop_run _ _ _ _ _ _ _ _
             (mkLLL "Input" (Some <$> input_values) BaseLLL))
    by reflexivity.
  proj. cbn [_values app]. rewrite length_fmap.
  eexists. split; [reflexivity |]. split; [| split].
  - cbn. by rewrite lifted_arrays_length.
  - by eexists.
  - intros k stage Hk. rewrite lookup_cons.
    rewrite (lifted_arrays_lookup _ _ _ _ _ _ _ _ _ Hk).
    eexists. split; [done |]. by split.
Qed.

Lemma spec_clamp_clamp_pos (t : LiftingFilterTypes) (n pos : Z) :
  2 ≤ n →
  spec_clamp (if update_even t then 1 else 0)
             (if update_even t then n - 1 else n - 2) pos
  = clamp_pos t n pos.
Proof.
  intros Hn. unfold spec_clamp, clamp_pos.
  destruct (update_even t); repeat case_bool_decide; lia.
Qed.

Lemma round_shift_spec (S sum : Z) :
  0 ≤ S →
  round_shift S sum = if bool_decide (S = 0) then sum else (sum + 2 ^ (S - 1)) ≫ S.
Proof.
  intros HS. unfold round_shift.
  destruct (decide (S = 0)) as [-> | Hne].
  - rewrite bool_decide_eq_false_2 by lia. rewrite bool_decide_eq_true_2 by done.
    apply Z.shiftr_0_r.
  - rewrite bool_decide_eq_true_2 by lia. rewrite bool_decide_eq_false_2 by done.
    rewrite Z.shiftl_1_l. done.
Qed.

Lemma lift_sum_spec (lift : LiftingStage) (ds : list Z) (i : Z) :
  (2 ≤ length ds)%nat →
  LiftingStage.L lift = Z.of_nat (length (LiftingStage.taps lift)) →
  lift_sum lift ds i
  = spec_sum (LiftingStage.taps lift) (λ j, ds !!! Z.to_nat j)
      (if update_even (LiftingStage.lift_type lift) then 1 else 0)
      (if update_even (LiftingStage.lift_type lift)
       then Z.of_nat (length ds) - 1 else Z.of_nat (length ds) - 2)
      (LiftingStage.D lift) i 0.
Proof.
  intros Hn HL. unfold lift_sum. rewrite HL.
  set (f := λ sum i0, sum + _ * _).
  set (lo := if update_even _ then 1 else 0).
  set (hi := if update_even _ then _ - 1 else _ - 2).
  assert (Hgen : ∀ (taps' : list Z) (k acc : Z),
    0 ≤ k →
    (∀ p, (p < length taps')%nat →
          LiftingStage.taps lift !!! Z.to_nat (k + Z.of_nat p) = taps' !!! p) →
    foldl f acc (seqZ (LiftingStage.D lift + k) (Z.of_nat (length taps')))
    = acc + spec_sum taps' (λ j, ds !!! Z.to_nat j) lo hi (LiftingStage.D lift) i k).
  { induction taps' as [| tap taps' IH]; intros k acc Hk Htaps.
    - rewrite seqZ_nil by (cbn; lia). cbn. lia.
    - rewrite seqZ_cons by (cbn; lia). cbn [foldl spec_sum].
      replace (Z.pred (Z.of_nat (length (tap :: taps'))))
        with (Z.of_nat (length taps')) by (cbn; lia).
      replace (Z.succ (LiftingStage.D lift + k))
        with (LiftingStage.D lift + (k + 1)) by lia.
      rewrite IH; [| lia |].
      + unfold f at 1.
        replace (LiftingStage.D lift + k - LiftingStage.D lift) with k by lia.
        pose proof (Htaps 0%nat) as Htap0. rewrite Z.add_0_r in Htap0.
        rewrite Htap0 by (cbn; lia).
        change ((tap :: taps') !!! 0%nat) with tap.
        subst lo hi. rewrite spec_clamp_clamp_pos by lia.
        replace (i + 2 * (LiftingStage.D lift + k) - 1)
          with (i + 2 * (k + LiftingStage.D lift) - 1) by lia.
        lia.
      + intros p Hp. transitivity ((tap :: taps') !!! S p); [| done].
        rewrite <- Htaps by (cbn; lia). f_equal. lia. }
  specialize (Hgen (LiftingStage.taps lift) 0 0).
  rewrite Z.add_0_r in Hgen. rewrite Hgen; [lia | lia |].
  intros p Hp. f_equal. lia.
Qed.

Lemma even_bool_decide (i : Z) : Z.even i = bool_decide (i `mod` 2 = 0).
Proof.
  rewrite Zeven_mod. destruct (Z.eqb_spec (i `mod` 2) 0) as [H | H].
  - by rewrite bool_decide_eq_true_2.
  - by rewrite bool_decide_eq_false_2.
Qed.

(** The value of a slot, in the words of the specification. *)
Lemma lift_value_spec (lift : LiftingStage) (ds : list Z) (i : Z) :
  (2 ≤ length ds)%nat → 0 ≤ LiftingStage.S lift →
  LiftingStage.L lift = Z.of_nat (length (LiftingStage.taps lift)) →
  lift_value lift ds i
  = spec_lift lift (Z.of_nat (length ds)) (λ j, ds !!! Z.to_nat j) i.
Proof.
  intros Hn HS HL. unfold lift_value, spec_lift.
  rewrite even_bool_decide.
  destruct (decide (update_even (LiftingStage.lift_type lift)
                    = bool_decide (i `mod` 2 = 0))) as [Hp | Hp].
  - rewrite !bool_decide_eq_true_2 by done.
    by rewrite round_shift_spec, lift_sum_spec.
  - rewrite !bool_decide_eq_false_2 by congruence. done.
Qed.

Lemma compute_value_returns (D : list (list Z)) (fuel : nat) (a s : nat)
    (lift : LiftingStage) (ds : list Z) (i : Z) (st : State)
    (arr : LoggingLazyList) :
  Inv D st → heap st !! a = Some arr → class_of arr = LiftedLLL s lift →
  D !! s = Some ds → (2 ≤ length ds)%nat → stage_ok lift → (s < fuel)%nat →
  0 ≤ i < Z.of_nat (length ds) →
  returns D s (compute_value (getitem fuel) a i) (lift_value lift ds i) st.
Proof.
  intros HI Harr Hcls Hds Hn Hok Hfuel Hi.
  unfold compute_value. eapply returns_bind_pure; [by apply deref_run |].
  rewrite Hcls. apply LiftedLLL_compute_value_returns; try done.
  intros pos st' HI' Hpos.
  destruct (getitem_returns D fuel s ds pos st' HI' Hds Hfuel Hpos)
    as (st'' & Hg & G & _).
  by exists st''.
Qed.

Lemma chain_session_returns (fuel : nat) (input_values : list Z)
    (stages : list LiftingStage) (reads : list (nat * Z)) :
  (2 ≤ length input_values)%nat → Forall stage_ok stages →
  (length stages < fuel)%nat →
  reads_in_range (S (length stages)) (Z.of_nat (length input_values)) reads →
  let D := chain_table input_values stages in
  ∃ h st,
    chain_shape input_values stages h ∧
    chain_session fuel input_values stages reads
    = (Ok ((λ r, table_value D r.1 r.2) <$> reads), st) ∧
    good D (length D) (mkState AccessLogger_init h) st.
Proof.
  intros Hn Hok Hfuel Hreads D.
  destruct (construct_chain_run input_values stages AccessLogger_init)
    as (h & Hrun & Hshape).
  assert (HI : Inv D (mkState AccessLogger_init h)) by (by apply Inv_chain).
  assert (HD : length D = S (length stages)) by apply chain_table_length.
  destruct (run_reads_returns D (Z.of_nat (length input_values)) fuel reads)
    with (st := mkState AccessLogger_init h)
    as (st & Hr & G & _); [apply chain_table_lengths | lia | by rewrite HD | done |].
  exists h, st. split; [done |]. split; [| done].
  unfold chain_session, bind, initial_state. by rewrite Hrun.
Qed.

(** C2.  In a chain over any stages with [S >= 0] and [L] taps, on an
    input of length [n >= 2], and after any reads: where [source j] is
    what a read of slot [j] of the source array returns, computing slot
    [i] of the lifted array returns [source i] unchanged when the parity
    of [i] is not the one the kind rewrites, and otherwise [source i]
    plus or minus the rounded, shifted sum of the taps over the clamped
    positions, as [spec_lift] writes it out; a read of the slot returns
    the same value. *)
Theorem compute_value_matches_spec (fuel : nat) (input_values : list Z)
    (stages : list LiftingStage) (reads : list (nat * Z))
    (k : nat) (lift : LiftingStage) (i : Z) :
  (2 ≤ length input_values)%nat →
  Forall (λ s, 0 ≤ LiftingStage.S s ∧
               LiftingStage.L s = Z.of_nat (length (LiftingStage.taps s))) stages →
  stages !! k = Some lift →
  (length stages < fuel)%nat →
  reads_in_range (S (length stages)) (Z.of_nat (length input_values)) reads →
  0 ≤ i < Z.of_nat (length input_values) →
  ∃ source : Z → Z,
    (∀ j, 0 ≤ j < Z.of_nat (length input_values) →
          (getitem fuel k j (chain_session fuel input_values stages reads).2).1
          = Ok (source j)) ∧
    (compute_value (getitem fuel) (S k) i
       (chain_session fuel input_values stages reads).2).1
    = Ok (spec_lift lift (Z.of_nat (length input_values)) source i) ∧
    (getitem fuel (S k) i (chain_session fuel input_values stages reads).2).1
    = Ok (spec_lift lift (Z.of_nat (length input_values)) source i).
Proof.
  intros Hn Hwf Hk Hfuel Hreads Hi.
  assert (Hok : Forall stage_ok stages).
  { eapply Forall_impl; [exact Hwf |]. intros s [H1 H2]. split; [done | lia]. }
  destruct (chain_session_returns fuel input_values stages reads Hn Hok Hfuel Hreads)
    as (h & st & Hshape & -> & (HI & Hf & _)).
  cbn [snd]. set (D := chain_table input_values stages) in *.
  destruct (chain_table_lookup input_values stages k lift Hk) as (ds & Hds & Hdl & Hd).
  fold D in Hds, Hd.
  pose proof (lookup_lt_Some _ _ _ Hk) as Hklt.
  pose proof (Forall_lookup_1 _ _ _ _ Hwf Hk) as [HS HL].
  pose proof (Forall_lookup_1 _ _ _ _ Hok Hk) as Hlok.
  exists (λ j, ds !!! Z.to_nat j). split; [| split].
  - intros j Hj.
    destruct (getitem_returns D fuel k ds j st HI Hds) as (st' & -> & _);
      [lia | lia | done].
  - destruct Hshape as (_ & _ & Hl). destruct (Hl k lift Hk) as (arr0 & Ha0 & Hc0 & _).
    assert (Hsh : heap_shape st !! S k = Some (shape_of arr0)).
    { rewrite (frame_shape _ _ Hf). unfold heap_shape. proj.
      by rewrite list_lookup_fmap, Ha0. }
    unfold heap_shape in Hsh. rewrite list_lookup_fmap in Hsh.
    destruct (heap st !! S k) as [arr |] eqn:Harr; [| done].
    cbn in Hsh. injection Hsh as Hnm Hcls Hlen.
    destruct (compute_value_returns D fuel (S k) k lift ds i st arr)
      as (st' & -> & _); try done; [congruence | lia | lia | lia |].
    cbn [fst]. f_equal. rewrite <- Hdl. by apply lift_value_spec; [lia | |].
  - destruct (getitem_returns D fuel (S k) (lift_list lift ds) i st HI Hd)
      as (st' & -> & _); [lia | rewrite lift_list_length; lia |].
    cbn [fst]. f_equal. rewrite lift_list_lookup_total by lia.
    rewrite <- Hdl. by apply lift_value_spec; [lia | |].
Qed.

Lemma compute_value_matches_spec_witness :
  ∃ source : Z → Z,
    (∀ j, 0 ≤ j < 4 →
          (getitem 5 0 j (chain_session 5 [10; 20; 30; 40]
                            [mkLiftingStage odd_add_even 1 2 0 [1; 1]] []).2).1
          = Ok (source j)) ∧
    (compute_value (getitem 5) 1 3
       (chain_session 5 [10; 20; 30; 40]
          [mkLiftingStage odd_add_even 1 2 0 [1; 1]] []).2).1
    = Ok (spec_lift (mkLiftingStage odd_add_even 1 2 0 [1; 1]) 4 source 3) ∧
    (getitem 5 1 3
       (chain_session 5 [10; 20; 30; 40]
          [mkLiftingStage odd_add_even 1 2 0 [1; 1]] []).2).1
    = Ok (spec_lift (mkLiftingStage odd_add_even 1 2 0 [1; 1]) 4 source 3).
Proof.
  apply (compute_value_matches_spec 5 [10; 20; 30; 40]
           [mkLiftingStage odd_add_even 1 2 0 [1; 1]] [] 0
           (mkLiftingStage odd_add_even 1 2 0 [1; 1]) 3).
  - cbn. lia.
  - repeat constructor; cbn; lia.
  - reflexivity.
  - cbn. lia.
  - constructor.
  - cbn. lia.
Defined.

(** ** Order independence *)

Lemma slot_table (D : list (list Z)) (st : State) (a j : nat) (v : Z) :
  Inv D st → slot st a j = Some v → table_value D a (Z.of_nat j) = v.
Proof.
  intros ((_ & Hden) & _) Hs. unfold slot in Hs.
  destruct (heap st !! a) as [arr |] eqn:Harr; [| done]. cbn in Hs.
  destruct (_values arr !! j) as [[v' |] |] eqn:Hv; simplify_eq/=.
  destruct (Hden a arr Harr) as (d & Hd & _ & Hres & _).
  unfold table_value. rewrite (list_lookup_total_correct _ _ _ Hd), Nat2Z.id.
  apply list_lookup_total_correct. by apply Hres.
Qed.

Lemma access_returns (order : Order) (D : list (list Z)) (n : Z) (fuel : nat)
    (w : WaveletFilters) (N : nat) (analysis synthesis : list LiftingStage)
    (st : State) :
  Forall (λ d, Z.of_nat (length d) = n) D → (length D ≤ fuel)%nat → Inv D st →
  length D = S N →
  ANALYSIS_FILTERS !! w = Some analysis →
  SYNTHESIS_FILTERS !! w = Some synthesis →
  N = length (analysis ++ synthesis) →
  ∃ st', access order fuel (seq 0 (length D)) w st = (Ok tt, st') ∧
         good D (length D) st st' ∧ resolved_all D n N st'.
Proof.
  intros Hall Hfuel HI HN HA HS HNs. destruct order; cbn [access].
  - destruct (block_returns D n fuel w st Hall Hfuel HI) as (st' & H1 & G & R).
    exists st'. split; [done |]. split; [done |]. apply R. lia.
  - by eapply chained_returns.
  - by apply on_demand_returns.
  - eapply two_steps_returns; try done. rewrite HN, HNs, length_app. lia.
Qed.

Lemma resolved_all_values (D : list (list Z)) (n : Z) (a : nat) (st : State)
    (arr : LoggingLazyList) :
  resolved_all D n a st → heap st !! a = Some arr →
  Z.of_nat (length (_values arr)) = n →
  _values arr = (λ j, Some (table_value D a j)) <$> seqZ 0 n.
Proof.
  intros Hres Harr Hlen.
  apply list_eq_same_length with (length (_values arr));
    [by rewrite length_fmap, length_seqZ; lia | done |].
  intros j x y Hj Hx Hy. rewrite list_lookup_fmap in Hy.
  rewrite lookup_seqZ_lt in Hy by lia. cbn in Hy. injection Hy as <-.
  specialize (Hres (Z.of_nat j)). unfold slot in Hres.
  rewrite Harr, Nat2Z.id in Hres. cbn in Hres. rewrite Hx in Hres. cbn in Hres.
  rewrite Z.add_0_l. rewrite Hres by lia. done.
Qed.

(** C3.  For a fixed input and wavelet there is one value per slot:
    whatever the order of the reads of in-range elements, each read
    returns that value and every slot that has been resolved, in any
    array of the chain, holds it; and the block order, the chained
    order and the two demand-driven orders all leave the same values,
    all resolved, in the final output array. *)
Theorem evaluation_order_independence (fuel : nat) (input_values : list Z)
    (w : WaveletFilters) :
  (2 ≤ length input_values)%nat →
  (length (chain_stages w) < fuel)%nat →
  ∃ value : nat → Z → Z,
    (∀ reads,
       reads_in_range (S (length (chain_stages w)))
         (Z.of_nat (length input_values)) reads →
       (session fuel input_values w reads).1
       = Ok ((λ r, value r.1 r.2) <$> reads) ∧
       ∀ a j v, slot (session fuel input_values w reads).2 a j = Some v →
                v = value a (Z.of_nat j)) ∧
    (∀ order,
       run_order fuel order input_values w
       = Ok ((λ j, Some (value (length (chain_stages w)) j))
             <$> seqZ 0 (Z.of_nat (length input_values)))).
Proof.
  intros Hn Hfuel.
  set (D := chain_table input_values (chain_stages w)).
  exists (table_value D). split.
  - intros reads Hreads.
    destruct (session_returns fuel input_values w reads Hn Hfuel Hreads)
      as (ana & syn & st & _ & _ & _ & -> & (HI & _) & _).
    cbn [fst snd]. split; [done |].
    intros a j v Hs. symmetry. by eapply slot_table.
  - intros order.
    destruct (built_state input_values w Hn)
      as (ana & syn & HA & HS & Hinv & Hst & Hrun & HI).
    fold D in Hrun, HI.
    assert (HD : length D = S (length (chain_stages w))) by apply chain_table_length.
    unfold run_order. unfold bind at 1. rewrite Hrun.
    destruct (access_returns order D (Z.of_nat (length input_values)) fuel w
                (length (chain_stages w)) ana syn
                (mkState AccessLogger_init (all_arrays input_values ana syn)))
      as (st' & Hacc & G & Hres);
      [apply chain_table_lengths | lia | done | done | done | done
      | by rewrite Hst |].
    unfold bind at 1. rewrite Hacc.
    unfold bind at 1. rewrite (list_getitem_len_last D _) by done.
    destruct (lookup_lt_is_Some_2 D (length (chain_stages w))) as [d Hd]; [lia |].
    destruct G as (HI' & _).
    destruct (Inv_lookup D st' _ d HI' Hd) as (arr & Harr & Hlen & _).
    unfold iter_current_values, bind. rewrite (deref_run _ _ _ Harr). cbn [ret fst].
    f_equal. eapply resolved_all_values; [done | done |].
    rewrite Hlen.
    by pose proof (Forall_lookup_1 _ _ _ _ (chain_table_lengths _ _) Hd).
Qed.

Lemma evaluation_order_independence_witness :
  ∃ value : nat → Z → Z,
    (∀ reads,
       reads_in_range 5 4 reads →
       (session 10 [1; 2; 3; 4] le_gall_5_3 reads).1
       = Ok ((λ r, value r.1 r.2) <$> reads) ∧
       ∀ a j v, slot (session 10 [1; 2; 3; 4] le_gall_5_3 reads).2 a j = Some v →
                v = value a (Z.of_nat j)) ∧
    (∀ order,
       run_order 10 order [1; 2; 3; 4] le_gall_5_3
       = Ok ((λ j, Some (value 4%nat j)) <$> seqZ 0 4)).
Proof.
  apply (evaluation_order_independence 10 [1; 2; 3; 4] le_gall_5_3).
  - cbn. lia.
  - vm_compute. lia.
Defined.

(** ** One computation per slot *)

Lemma elem_of_keys_from (nm nm' : string) (j j' : Z) (vs : list (option Z)) :
  (nm', j') ∈ keys_from nm j vs ↔
  nm' = nm ∧ ∃ p v, vs !! p = Some (Some v) ∧ j' = j + Z.of_nat p.
Proof.
  revert j. induction vs as [| v vs IH]; intros j.
  - cbn. split; [by intros H%elem_of_nil | by intros (_ & p & v & H & _)].
  - cbn [keys_from]. destruct v as [v |].
    + rewrite elem_of_cons, IH. split.
      * intros [[= -> ->] | (-> & p & u & Hp & ->)].
        -- split; [done |]. exists 0%nat, v. split; [done | lia].
        -- split; [done |]. exists (S p), u. split; [done | lia].
      * intros (-> & [| p] & u & Hp & ->).
        -- left. f_equal. lia.
        -- right. split; [done |]. exists p, u. split; [done | lia].
    + rewrite IH. split.
      * intros (-> & p & u & Hp & ->). split; [done |].
        exists (S p), u. split; [done | lia].
      * intros (-> & [| p] & u & Hp & ->); [done |].
        split; [done |]. exists p, u. split; [done | lia].
Qed.

Lemma NoDup_keys_from (nm : string) (j : Z) (vs : list (option Z)) :
  NoDup (keys_from nm j vs).
Proof.
  revert j. induction vs as [| v vs IH]; intros j; cbn; [constructor |].
  destruct v as [v |]; [| apply IH]. constructor; [| apply IH].
  intros (_ & p & u & _ & Hj)%elem_of_keys_from. lia.
Qed.

Lemma elem_of_slot_keys (arr : LoggingLazyList) (k : string * Z) :
  k ∈ slot_keys arr → k.1 = name arr.
Proof.
  unfold slot_keys. destruct (class_of arr); [by intros H%elem_of_nil |].
  destruct k as [nm j]. by intros [-> _]%elem_of_keys_from.
Qed.

Lemma NoDup_resolved_keys (h : list LoggingLazyList) :
  NoDup (name <$> h) → NoDup (resolved_keys h).
Proof.
  unfold resolved_keys. induction h as [| arr h IH]; intros Hnd; [constructor |].
  rewrite fmap_cons in Hnd. apply NoDup_cons in Hnd as [Hnotin Hnd].
  rewrite bind_cons. apply NoDup_app. split; [| split].
  - unfold slot_keys. destruct (class_of arr); [constructor | apply NoDup_keys_from].
  - intros k Hk Hk'. apply elem_of_slot_keys in Hk.
    apply list_elem_of_bind in Hk' as (arr' & Hk' & Harr').
    apply elem_of_slot_keys in Hk'. apply Hnotin.
    rewrite <- Hk, Hk'. by apply list_elem_of_fmap_2.
  - by apply IH.
Qed.

Lemma count_NoDup {A} `{EqDecision A} (l : list A) (x : A) :
  NoDup l →
  length (filter (λ y, y = x) l) = if decide (x ∈ l) then 1%nat else 0%nat.
Proof.
  induction 1 as [| y l Hy Hnd IH]; [done |].
  rewrite filter_cons. destruct (decide (y = x)) as [-> | Hne].
  - cbn [length]. rewrite IH. rewrite decide_False by done.
    by rewrite decide_True by left.
  - rewrite IH. destruct (decide (x ∈ l)) as [Hin | Hnin].
    + by rewrite decide_True by (by right).
    + rewrite decide_False; [done |].
      intros [-> | ?]%elem_of_cons; done.
Qed.

Lemma computations_completed (lg : AccessLogger) (nm : string) (i : Z) :
  Forall (λ hd, is_Some hd.2) (call_heads lg) →
  computations lg nm i = length (filter (λ k, k = (nm, i)) (completed_keys lg)).
Proof.
  unfold computations, completed_keys, call_heads.
  induction (call_log lg) as [| r l IH]; intros Hall; [done |].
  rewrite fmap_cons in Hall. apply Forall_cons in Hall as [[e He] Hall].
  cbn in He. cbn [omap list_omap]. rewrite He.
  rewrite !filter_cons. specialize (IH Hall). cbn [omap] in IH.
  destruct (decide (CallRecord.array_name r = nm ∧ CallRecord.index r = i))
    as [[<- <-] | Hne].
  - rewrite decide_True by done. cbn [length]. by rewrite IH.
  - rewrite decide_False; [done |]. intros [= ? ?]. by apply Hne.
Qed.

Lemma lifted_arrays_names (num : Z) (prefix final : string)
    (stages : list LiftingStage) (i : Z) (source n : nat) :
  name <$> lifted_arrays num prefix final i stages source n
  = stage_name num prefix final <$> seqZ i (Z.of_nat (length stages)).
Proof.
  revert i source. induction stages as [| s stages IH]; intros i source; [done |].
  rewrite seqZ_cons by (cbn; lia). cbn [lifted_arrays fmap list_fmap name].
  rewrite IH. f_equal.
  replace (Z.pred (Z.of_nat (length (s :: stages))))
    with (Z.of_nat (length stages)) by (cbn; lia).
  by replace (Z.succ i) with (i + 1) by lia.
Qed.

(** The arrays of a chain have pairwise different names. *)
Lemma all_arrays_names_NoDup (w : WaveletFilters) (input_values : list Z)
    (analysis synthesis : list LiftingStage) :
  ANALYSIS_FILTERS !! w = Some analysis →
  SYNTHESIS_FILTERS !! w = Some synthesis →
  NoDup (name <$> all_arrays input_values analysis synthesis).
Proof.
  intros HA HS. unfold all_arrays.
  rewrite fmap_cons, fmap_app, !lifted_arrays_names. cbn [name].
  rewrite ANALYSIS_FILTERS_lookup, HS in HA. injection HA as <-.
  destruct w; vm_compute in HS; injection HS as <-;
    apply (bool_decide_unpack _); by vm_compute.
Qed.

Lemma quiet_trans (st1 st2 st3 : State) :
  quiet st1 st2 → quiet st2 st3 → quiet st1 st3.
Proof.
  intros (H1 & H2 & H3) (G1 & G2 & G3). split; [congruence |].
  split; congruence.
Qed.

(** A read of a resolved slot returns the stored value and touches
    neither the arrays nor the heads of the call records. *)
Lemma getitem_resolved (D : list (list Z)) (fuel : nat) (a : nat) (i : Z) (v : Z)
    (st : State) :
  Inv D st → (0 < fuel)%nat → 0 ≤ i →
  slot st a (Z.to_nat i) = Some v →
  ∃ st', getitem fuel a i st = (Ok v, st') ∧ quiet st st'.
Proof.
  intros HI Hfuel Hi Hs. destruct fuel as [| fuel]; [lia |].
  unfold slot in Hs. destruct (heap st !! a) as [arr |] eqn:Harr; [| done].
  cbn in Hs. destruct (_values arr !! Z.to_nat i) as [ev |] eqn:Hev; [| done].
  cbn in Hs. subst ev.
  cbn [getitem]. unfold bind at 1. rewrite (deref_run _ _ _ Harr).
  unfold log_access. unfold bind at 1.
  destruct (log_access_enter_ok (name arr) i st) as (held & st1 & Henter & Hq1 & Hheld);
    [apply HI |].
  rewrite Henter. unfold try_finally.
  assert (Hbody : getitem_body (getitem fuel) a i st1 = (Ok v, st1)).
  { unfold getitem_body. unfold bind at 1.
    rewrite (deref_run st1 a arr) by (by rewrite (quiet_frame_heap _ _ Hq1)).
    unfold bind. by rewrite (list_getitem_run _ _ (Some v)). }
  rewrite Hbody.
  destruct (log_access_exit_ok (name arr) i held st1 Hheld) as (st3 & Hexit & Hq3).
  rewrite Hexit. exists st3. split; [done | by eapply quiet_trans].
Qed.

Lemma computations_slot (D : list (list Z)) (st : State) (a : nat)
    (arr : LoggingLazyList) (i : Z) :
  Inv D st → Forall (λ hd, is_Some hd.2) (call_heads (logger st)) →
  NoDup (name <$> heap st) → heap st !! a = Some arr → 0 ≤ i →
  computations (logger st) (name arr) i
  = match class_of arr, slot st a (Z.to_nat i) with
    | LiftedLLL _ _, Some _ => 1%nat
    | _, _ => 0%nat
    end.
Proof.
  intros (_ & _ & Hperm) Hall Hnd Harr Hi.
  rewrite computations_completed by done. rewrite Hperm.
  rewrite count_NoDup by (by apply NoDup_resolved_keys).
  assert (Hslot : slot st a (Z.to_nat i) = _values arr !! Z.to_nat i ≫= id).
  { unfold slot. by rewrite Harr. }
  destruct (decide ((name arr, i) ∈ resolved_keys (heap st))) as [Hin | Hnin].
  - apply list_elem_of_bind in Hin as (arr' & Hin & Harr').
    pose proof (elem_of_slot_keys _ _ Hin) as Hnm. cbn in Hnm.
    apply list_elem_of_lookup_1 in Harr' as [b Hb].
    assert (b = a) as ->.
    { eapply NoDup_lookup; [exact Hnd | |].
      - by rewrite list_lookup_fmap, Hb.
      - rewrite list_lookup_fmap, Harr. cbn. by rewrite Hnm. }
    assert (arr' = arr) as -> by congruence. unfold slot_keys in Hin.
    destruct (class_of arr); [by apply elem_of_nil in Hin |].
    apply elem_of_keys_from in Hin as (_ & p & v & Hp & Hip).
    rewrite Hslot. replace (Z.to_nat i) with p by lia. by rewrite Hp.
  - destruct (class_of arr) as [| s lift] eqn:Hcls; [done |].
    rewrite Hslot.
    destruct (_values arr !! Z.to_nat i) as [[v |] |] eqn:Hv; try done.
    destruct Hnin. apply list_elem_of_bind. exists arr. split.
    + unfold slot_keys. rewrite Hcls. apply elem_of_keys_from. split; [done |].
      exists (Z.to_nat i), v. split; [done | lia].
    + by eapply list_elem_of_lookup_2.
Qed.

Lemma heap_shape_names (st st' : State) :
  heap_shape st' = heap_shape st → name <$> heap st' = name <$> heap st.
Proof.
  unfold heap_shape. intros H.
  assert (Hn : ∀ h : list LoggingLazyList,
            name <$> h = (λ s : string * LLLClass * nat, s.1.1) <$> (shape_of <$> h)).
  { intros h. rewrite <- list_fmap_compose. done. }
  by rewrite !Hn, H.
Qed.

Lemma heap_shape_lookup (st st' : State) (a : nat) (arr : LoggingLazyList) :
  heap_shape st' = heap_shape st → heap st !! a = Some arr →
  ∃ arr', heap st' !! a = Some arr' ∧ name arr' = name arr ∧
          class_of arr' = class_of arr.
Proof.
  intros H Harr.
  assert (Hl : heap_shape st' !! a = Some (shape_of arr)).
  { rewrite H. unfold heap_shape. by rewrite list_lookup_fmap, Harr. }
  unfold heap_shape in Hl. rewrite list_lookup_fmap in Hl.
  destruct (heap st' !! a) as [arr' |]; [| done].
  cbn in Hl. injection Hl as H1 H2 H3. by exists arr'.
Qed.

(** * Further properties of the code *)

(** ** The names of the arrays of a chain *)

(** X1.  The arrays [construct_all_arrays] builds have pairwise
    different names, so no two slots share a key of the access-time
    maps; the first is "Encoder Input", the last of the analysis arrays
    is "Encode Out/Decode In" and the last array is "Decoder Output". *)
Theorem chain_names_distinct :
  ∀ (input_values : list Z) (w : WaveletFilters),
    ∃ arrays st analysis,
      ANALYSIS_FILTERS !! w = Some analysis ∧
      construct_all_arrays input_values w initial_state = (Ok arrays, st) ∧
      NoDup (name <$> heap st) ∧
      name <$> heap st !! 0%nat = Some "Encoder Input" ∧
      name <$> heap st !! length analysis = Some "Encode Out/Decode In" ∧
      name <$> last (heap st) = Some "Decoder Output".
Proof.
  intros input_values w.
  destruct (filter_tables w) as (ana & syn & HA & HS & Hinv & _).
  exists (seq 0 (1 + length ana + length syn)),
         (mkState AccessLogger_init (all_arrays input_values ana syn)), ana.
  split; [done |].
  split; [by apply construct_all_arrays_run |]. proj.
  split; [by eapply all_arrays_names_NoDup |].
  split; [done |].
  rewrite ANALYSIS_FILTERS_lookup, HS in HA. injection HA as <-.
  destruct w; vm_compute in HS; injection HS as <-; by vm_compute.
Qed.

(** ** Inputs too short for a transform *)

(** X2.  On the empty input every computation order succeeds without
    reading anything: the output array is empty, the clock has not
    moved and the call log is empty. *)
Theorem empty_input_computes_nothing :
  ∀ (fuel : nat) (order : Order) (w : WaveletFilters),
    run_order fuel order [] w = Ok [] ∧
    logger ((let* arrays := construct_all_arrays [] w in
             access order fuel arrays w) initial_state).2
    = AccessLogger_init.
Proof. intros fuel order w. by destruct w, order; vm_compute. Qed.

(** X3.  A one-element input cannot be transformed: whatever the
    wavelet and the value, reading the decoder output raises
    [IndexError], because every chain has a stage that rewrites the
    even slots and clamps its neighbour positions to at least 1. *)
Theorem one_element_input_fails :
  ∀ (k : nat) (x : Z) (w : WaveletFilters),
    run_roundtrip (9 + k) [x] w = Raise IndexError.
Proof. intros k x w. by destruct w; vm_compute. Qed.

(** ** Reads that compute nothing, and reads that cannot compute *)

Lemma log_access_enter_time (array_name : string) (index : Z) (st : State) :
  _time (logger (log_access_enter array_name index st).2) = _time (logger st) + 1.
Proof.
  cbv [log_access_enter time call_record_append_access call_record_deref
       set_call_log bind ret raise get_logger put_logger].
  destruct st as [[t stack log first lst] h]. proj.
  destruct (last stack) as [top |]; proj; [| done].
  by destruct (log !! top).
Qed.

Lemma log_access_exit_time (array_name : string) (index : Z)
    (held : option (nat * nat)) (st : State) :
  _time (logger (log_access_exit array_name index held st).2) = _time (logger st) + 1.
Proof.
  cbv [log_access_exit time access_record_set_end_time call_record_deref
       set_call_log bind ret raise get_logger put_logger].
  destruct st as [[t stack log first lst] h]. proj.
  destruct held as [[c p] |]; proj; [| done].
  destruct (log !! c) as [r |]; proj; [| done].
  by destruct (CallRecord.access_log r !! p).
Qed.

(** X4.  A read of a resolved slot, addressed the way Python lists are
    (an index from [-n] to [-1] counts from the end), returns the stored
    value without computing: the arrays, the call stack and the call
    records are as before. *)
Theorem read_of_resolved_slot (fuel : nat) (a : nat) (i : Z) (st : State)
    (arr : LoggingLazyList) (v : Z) :
  stack_ok (logger st) → heap st !! a = Some arr →
  - Z.of_nat (length (_values arr)) ≤ i < Z.of_nat (length (_values arr)) →
  _values arr !! Z.to_nat (i `mod` Z.of_nat (length (_values arr))) = Some (Some v) →
  (getitem (S fuel) a i st).1 = Ok v ∧
  heap (getitem (S fuel) a i st).2 = heap st ∧
  _call_stack (logger (getitem (S fuel) a i st).2) = _call_stack (logger st) ∧
  call_heads (logger (getitem (S fuel) a i st).2) = call_heads (logger st).
Proof.
  intros Hok Harr Hi Hv.
  assert (Hrun : ∃ st', getitem (S fuel) a i st = (Ok v, st') ∧ quiet st st').
  { cbn [getitem]. unfold bind at 1. rewrite (deref_run _ _ _ Harr).
    unfold log_access. unfold bind at 1.
    destruct (log_access_enter_ok (name arr) i st Hok)
      as (held & st1 & Henter & Hq1 & Hheld).
    rewrite Henter. unfold try_finally.
    assert (Hbody : getitem_body (getitem fuel) a i st1 = (Ok v, st1)).
    { unfold getitem_body. unfold bind at 1.
      rewrite (deref_run st1 a arr) by (by rewrite (quiet_frame_heap _ _ Hq1)).
      unfold bind, list_getitem, py_index.
      destruct (decide (0 ≤ i < Z.of_nat (length (_values arr)))) as [Hpos | Hneg].
      - rewrite Z.mod_small in Hv by lia. by rewrite Hv.
      - rewrite decide_True by lia.
        replace (i `mod` Z.of_nat (length (_values arr)))
          with (Z.of_nat (length (_values arr)) + i) in Hv.
        + by rewrite Hv.
        + apply Z.mod_unique with (-1); lia. }
    rewrite Hbody.
    destruct (log_access_exit_ok (name arr) i held st1 Hheld) as (st3 & Hexit & Hq3).
    rewrite Hexit. exists st3. split; [done | by eapply quiet_trans]. }
  destruct Hrun as (st' & -> & H1 & H2 & H3). by cbn [fst snd].
Qed.

Lemma read_of_resolved_slot_witness :
  (getitem 1 0 (-1) (session 10 [5; 7] haar_no_shift []).2).1 = Ok 7 ∧
  heap (getitem 1 0 (-1) (session 10 [5; 7] haar_no_shift []).2).2
  = heap (session 10 [5; 7] haar_no_shift []).2 ∧
  _call_stack (logger (getitem 1 0 (-1) (session 10 [5; 7] haar_no_shift []).2).2)
  = _call_stack (logger (session 10 [5; 7] haar_no_shift []).2) ∧
  call_heads (logger (getitem 1 0 (-1) (session 10 [5; 7] haar_no_shift []).2).2)
  = call_heads (logger (session 10 [5; 7] haar_no_shift []).2).
Proof.
  apply (read_of_resolved_slot 0 0 (-1) (session 10 [5; 7] haar_no_shift []).2
           (mkLLL "Encoder Input" [Some 5; Some 7] BaseLLL) 7).
  - vm_compute. constructor.
  - reflexivity.
  - cbn. lia.
  - reflexivity.
Defined.

(** X5.  An array of the base class cannot compute: a read of an
    [Unknown] slot of a [LoggingLazyList] raises [NotImplementedError].
    The slot stays [Unknown], the call stack is as before, and the log
    has gained one call record for the slot, with its end time: the
    computation started at the second tick after the read began and
    ended at the third. *)
Theorem unknown_slot_of_base_array (fuel : nat) (a : nat) (i : Z) (st : State)
    (arr : LoggingLazyList) :
  stack_ok (logger st) → heap st !! a = Some arr → class_of arr = BaseLLL →
  0 ≤ i < Z.of_nat (length (_values arr)) →
  _values arr !! Z.to_nat i = Some None →
  (getitem (S fuel) a i st).1 = Raise NotImplementedError ∧
  heap (getitem (S fuel) a i st).2 = heap st ∧
  _call_stack (logger (getitem (S fuel) a i st).2) = _call_stack (logger st) ∧
  call_heads (logger (getitem (S fuel) a i st).2)
  = call_heads (logger st)
    ++ [(name arr, i, _time (logger st) + 2, Some (_time (logger st) + 3))] ∧
  _time (logger (getitem (S fuel) a i st).2) = _time (logger st) + 4.
Proof.
  intros Hok Harr Hcls Hi Hv.
  destruct (getitem (S fuel) a i st) as [r st'] eqn:Hrun. cbn [fst snd].
  revert Hrun.
  cbn [getitem]. unfold bind at 1. rewrite (deref_run _ _ _ Harr).
  unfold log_access. unfold bind at 1.
  pose proof (log_access_enter_time (name arr) i st) as Ht1.
  pose proof (framed_log_access_enter (name arr) i st) as [Hf1 _].
  destruct (log_access_enter_ok (name arr) i st Hok)
    as (held & st1 & Henter & Hq1 & Hheld).
  rewrite Henter in Ht1, Hf1 |- *. proj_in Ht1. proj_in Hf1. unfold try_finally.
  destruct Hq1 as (Hh1 & Hs1 & Hc1).
  set (st2 := mkState
     (mkAccessLogger (_time (logger st1) + 2) (_call_stack (logger st1))
        (call_log (logger st1)
           ++ [CallRecord.mk (name arr) i (_time (logger st1) + 1)
                 (Some (_time (logger st1) + 2)) []])
        (first_access_time (logger st1)) (last_access_time (logger st1)))
     (heap st1)).
  assert (Hbody : getitem_body (getitem fuel) a i st1
                  = (Raise NotImplementedError, st2)).
  { unfold getitem_body. unfold bind at 1.
    rewrite (deref_run st1 a arr) by (by rewrite Hh1).
    unfold bind at 1. rewrite (list_getitem_run _ _ None) by (done || lia).
    unfold bind at 1. unfold new_context, bind. rewrite new_context_enter_run.
    unfold try_finally, compute_value, bind.
    rewrite deref_run with (arr := arr) by (proj; by rewrite Hh1).
    rewrite Hcls. cbn [raise].
    erewrite new_context_exit_run; [| proj; reflexivity |].
    2: { proj. rewrite lookup_app_r by lia. by rewrite Nat.sub_diag. }
    proj. subst st2. do 3 f_equal.
    - lia.
    - rewrite insert_app_r_alt by lia. rewrite Nat.sub_diag. cbn.
      do 4 f_equal. lia. }
  rewrite Hbody.
  assert (Hheld2 : held_ok held st2).
  { destruct held as [[c p] |]; [| done]. destruct Hheld as (n & Hn & Hp).
    exists n. split; [| done]. subst st2. unfold access_lens in *. proj.
    rewrite fmap_app. apply lookup_app_l_Some. exact Hn. }
  pose proof (log_access_exit_time (name arr) i held st2) as Ht3.
  destruct (log_access_exit_ok (name arr) i held st2 Hheld2) as (st3 & Hexit & Hq3).
  rewrite Hexit in Ht3 |- *. cbn [fst snd] in *.
  destruct Hq3 as (Hh3 & Hs3 & Hc3). intros [= <- <-].
  split; [done |]. split; [by rewrite Hh3; subst st2; proj |].
  split; [by rewrite Hs3; subst st2; proj |]. split.
  - rewrite Hc3. subst st2. unfold call_heads in *. proj.
    rewrite fmap_app, Hc1. cbn. rewrite Ht1.
    replace (_time (logger st) + 1 + 1) with (_time (logger st) + 2) by lia.
    by replace (_time (logger st) + 1 + 2) with (_time (logger st) + 3) by lia.
  - rewrite Ht3. subst st2. proj. lia.
Qed.

Lemma unknown_slot_of_base_array_witness :
  (getitem 1 0 2 (LoggingLazyList_init "a" (inl 3) BaseLLL initial_state).2).1
  = Raise NotImplementedError ∧
  heap (getitem 1 0 2 (LoggingLazyList_init "a" (inl 3) BaseLLL initial_state).2).2
  = heap (LoggingLazyList_init "a" (inl 3) BaseLLL initial_state).2 ∧
  _call_stack
    (logger (getitem 1 0 2 (LoggingLazyList_init "a" (inl 3) BaseLLL initial_state).2).2)
  = _call_stack (logger (LoggingLazyList_init "a" (inl 3) BaseLLL initial_state).2) ∧
  call_heads
    (logger (getitem 1 0 2 (LoggingLazyList_init "a" (inl 3) BaseLLL initial_state).2).2)
  = call_heads (logger (LoggingLazyList_init "a" (inl 3) BaseLLL initial_state).2)
    ++ [("a", 2,
         _time (logger (LoggingLazyList_init "a" (inl 3) BaseLLL initial_state).2) + 2,
         Some (_time (logger (LoggingLazyList_init "a" (inl 3) BaseLLL initial_state).2) + 3))] ∧
  _time (logger (getitem 1 0 2 (LoggingLazyList_init "a" (inl 3) BaseLLL initial_state).2).2)
  = _time (logger (LoggingLazyList_init "a" (inl 3) BaseLLL initial_state).2) + 4.
Proof.
  apply (unknown_slot_of_base_array 0 0 2
           (LoggingLazyList_init "a" (inl 3) BaseLLL initial_state).2
           (mkLLL "a" [None; None; None] BaseLLL)).
  - vm_compute. constructor.
  - reflexivity.
  - reflexivity.
  - cbn. lia.
  - reflexivity.
Defined.

(** ** The access times *)

Lemma stamps_refl (st : State) : stamps st st.
Proof. split; try done. intros key t H1 H2. congruence. Qed.

Lemma stamps_trans (st1 st2 st3 : State) :
  stamps st1 st2 → stamps st2 st3 → stamps st1 st3.
Proof.
  intros [Ht Hf Hn Hok] [Ht' Hf' Hn' Hok']. split.
  - lia.
  - intros key t H. by apply Hf', Hf.
  - intros key t H1 H3.
    destruct (first_access_time (logger st2) !! key) as [t2 |] eqn:H2.
    + rewrite (Hf' _ _ H2) in H3. simplify_eq. by eapply Hn.
    + specialize (Hn' _ _ H2 H3). lia.
  - intros H. by apply Hok', Hok.
Qed.

(** A step that leaves the two maps alone and does not turn the clock
    back. *)
Lemma stamps_same_maps (st st' : State) :
  first_access_time (logger st') = first_access_time (logger st) →
  last_access_time (logger st') = last_access_time (logger st) →
  _time (logger st) ≤ _time (logger st') →
  stamps st st'.
Proof.
  intros Hf Hl Ht. split; [done | | |].
  - intros key t. by rewrite Hf.
  - intros key t. rewrite Hf. congruence.
  - intros [H0 H]. split; [lia |]. intros key. specialize (H key).
    rewrite Hf, Hl.
    destruct (first_access_time (logger st) !! key),
             (last_access_time (logger st) !! key); try done. lia.
Qed.

Lemma stamped_ret {A} (a : A) : stamped (ret a).
Proof. intros st. apply stamps_refl. Qed.

Lemma stamped_raise {A} (e : PyError) : stamped (@raise A e).
Proof. intros st. apply stamps_refl. Qed.

Lemma stamped_bind {A B} (m : M A) (k : A → M B) :
  stamped m → (∀ a, stamped (k a)) → stamped (bind m k).
Proof.
  intros Hm Hk st. unfold bind. specialize (Hm st).
  destruct (m st) as [[a | e] st1]; cbn [fst snd] in *; [| done].
  eapply stamps_trans; [exact Hm | apply Hk].
Qed.

Lemma stamped_try_finally {A} (body : M A) (fin : M unit) :
  stamped body → stamped fin → stamped (try_finally body fin).
Proof.
  intros Hb Hf st. unfold try_finally. specialize (Hb st).
  destruct (body st) as [r st1]; cbn [fst snd] in *.
  specialize (Hf st1). destruct (fin st1) as [[[] | e] st2]; cbn [fst snd] in *;
    by eapply stamps_trans.
Qed.

Lemma stamped_deref (self : nat) : stamped (deref self).
Proof.
  intros st. cbv [deref bind get_heap]. destruct (heap st !! self); apply stamps_refl.
Qed.

Lemma stamped_len (self : nat) : stamped (len self).
Proof.
  apply stamped_bind; [apply stamped_deref |]. intros a. apply stamped_ret.
Qed.

Lemma stamped_list_getitem {A} (l : list A) (i : Z) : stamped (list_getitem l i).
Proof.
  unfold list_getitem. destruct (py_index l i) as [p |]; [| apply stamped_raise].
  destruct (l !! p); [apply stamped_ret | apply stamped_raise].
Qed.

Lemma stamped_set_value (self : nat) (index value : Z) :
  stamped (set_value self index value).
Proof.
  intros st. cbv [set_value deref list_setitem bind get_heap put_heap].
  destruct (heap st !! self) as [a |]; cbn; [| apply stamps_refl].
  destruct (py_index (_values a) index) as [p |]; cbn; [| apply stamps_refl].
  by apply stamps_same_maps.
Qed.

Lemma stamped_log_access_enter (array_name : string) (index : Z) :
  stamped (log_access_enter array_name index).
Proof.
  intros st.
  cbv [log_access_enter time call_record_append_access call_record_deref
       set_call_log bind ret raise get_logger put_logger].
  destruct st as [[t stack log first lst] h]. proj.
  destruct (last stack) as [top |]; proj; [| apply stamps_same_maps; proj; (done || lia)].
  destruct (log !! top); proj; apply stamps_same_maps; proj; (done || lia).
Qed.

Lemma stamped_new_context_enter (array_name : string) (index : Z) :
  stamped (new_context_enter array_name index).
Proof.
  intros st. rewrite new_context_enter_run. apply stamps_same_maps; proj; (done || lia).
Qed.

Lemma stamped_new_context_exit (call_record : nat) :
  stamped (new_context_exit call_record).
Proof.
  intros st.
  cbv [new_context_exit time call_record_set_end_time call_record_deref
       set_call_log set_call_stack bind ret raise get_logger put_logger].
  destruct st as [[t stack log first lst] h]. proj.
  destruct (last stack) as [popped |]; proj; [| apply stamps_refl].
  destruct (log !! popped) as [r1 |]; proj; [| by apply stamps_same_maps].
  destruct (log !! call_record) as [r2 |]; proj; [| by apply stamps_same_maps].
  destruct (decide (r1 = r2)); proj; [| by apply stamps_same_maps].
  destruct (log !! call_record); proj; apply stamps_same_maps; proj; (done || lia).
Qed.

Lemma stamped_new_context {A} (array_name : string) (index : Z) (body : M A) :
  stamped body → stamped (new_context array_name index body).
Proof.
  intros Hb. apply stamped_bind; [apply stamped_new_context_enter |].
  intros c. apply stamped_try_finally; [done | apply stamped_new_context_exit].
Qed.

(** The assignments of the [finally] block of [log_access]. *)
Lemma stamps_exit (key : string * Z) (t : Z) (stack stack' : list nat)
    (log log' : list CallRecord.t) (first lst : gmap (string * Z) Z)
    (h : list LoggingLazyList) :
  stamps (mkState (mkAccessLogger t stack log first lst) h)
         (mkState (mkAccessLogger (t + 1) stack' log'
                     (match first !! key with
                      | None => <[key := t + 1]> first
                      | Some _ => first
                      end)
                     (<[key := t + 1]> lst)) h).
Proof.
  split; proj.
  - lia.
  - intros k t0 Hk. destruct (first !! key) eqn:Hkey; [done |].
    rewrite lookup_insert_ne; [done | congruence].
  - intros k t0 Hk. destruct (first !! key) eqn:Hkey; [congruence |].
    destruct (decide (key = k)) as [-> | Hne].
    + rewrite lookup_insert_eq. intros [= <-]. lia.
    + rewrite lookup_insert_ne by done. congruence.
  - intros [H0 H]. proj_in H0. split; proj; [lia |]. intros k. specialize (H k). proj_in H.
    destruct (decide (key = k)) as [-> | Hne].
    + rewrite lookup_insert_eq.
      destruct (first !! k) as [t0 |] eqn:Hk.
      * rewrite Hk. destruct (lst !! k); [lia | done].
      * rewrite lookup_insert_eq. lia.
    + rewrite lookup_insert_ne by done.
      replace (match first !! key with
               | Some _ => first
               | None => <[key:=t + 1]> first
               end !! k) with (first !! k).
      * destruct (first !! k), (lst !! k); try done. lia.
      * destruct (first !! key); [done | by rewrite lookup_insert_ne].
Qed.

Lemma stamped_log_access_exit (array_name : string) (index : Z)
    (held : option (nat * nat)) :
  stamped (log_access_exit array_name index held).
Proof.
  intros st.
  cbv [log_access_exit time access_record_set_end_time call_record_deref
       set_call_log bind ret raise get_logger put_logger].
  destruct st as [[t stack log first lst] h]. proj.
  destruct held as [[c p] |]; proj; [| apply stamps_exit].
  destruct (log !! c) as [r |]; proj; [| by apply stamps_same_maps; proj; (done || lia)].
  destruct (CallRecord.access_log r !! p); proj;
    [apply stamps_exit | by apply stamps_same_maps; proj; (done || lia)].
Qed.

Lemma stamped_log_access {A} (array_name : string) (index : Z) (body : M A) :
  stamped body → stamped (log_access array_name index body).
Proof.
  intros Hb. apply stamped_bind; [apply stamped_log_access_enter |].
  intros h. apply stamped_try_finally; [done | apply stamped_log_access_exit].
Qed.

Lemma stamped_compute_value_loop (read : Z → M Z) (source : nat)
    (lift : LiftingStage) (index : Z) (range : list Z) (sum : Z) :
  (∀ pos, stamped (read pos)) →
  stamped (compute_value_loop read source lift index range sum).
Proof.
  intros Hread. revert sum. induction range as [| i range IH]; intros sum; cbn.
  - apply stamped_ret.
  - apply stamped_bind; [apply stamped_len |]. intros n.
    apply stamped_bind; [apply stamped_list_getitem |]. intros tap.
    apply stamped_bind; [apply Hread |]. intros v. apply IH.
Qed.

Lemma stamped_compute_value (read : nat → Z → M Z) (self : nat) (index : Z) :
  (∀ a pos, stamped (read a pos)) →
  stamped (compute_value read self index).
Proof.
  intros Hread. apply stamped_bind; [apply stamped_deref |]. intros a.
  destruct (class_of a) as [| source lift]; [apply stamped_raise |].
  unfold LiftedLLL_compute_value.
  destruct (bool_decide (update_even _ = _)); [| apply Hread].
  apply stamped_bind; [by apply stamped_compute_value_loop |]. intros sum.
  apply stamped_bind.
  { destruct (bool_decide (LiftingStage.S lift < 0));
      [apply stamped_raise | apply stamped_ret]. }
  intros sum'.
  destruct (add _); (apply stamped_bind; [apply Hread |]); intros v; apply stamped_ret.
Qed.

Lemma stamped_getitem (fuel : nat) (self : nat) (index : Z) :
  stamped (getitem fuel self index).
Proof.
  revert self index. induction fuel as [| fuel IH]; intros self index; cbn.
  - apply stamped_raise.
  - apply stamped_bind; [apply stamped_deref |]. intros a.
    apply stamped_log_access.
    apply stamped_bind; [apply stamped_deref |]. intros a'.
    apply stamped_bind; [apply stamped_list_getitem |]. intros [v |].
    + apply stamped_ret.
    + apply stamped_bind.
      * apply stamped_new_context. by apply stamped_compute_value.
      * intros value. apply stamped_bind; [apply stamped_set_value |].
        intros _. apply stamped_ret.
Qed.

Lemma stamped_run_reads (fuel : nat) (reads : list (nat * Z)) :
  stamped (run_reads fuel reads).
Proof.
  induction reads as [| [a i] reads IH]; cbn [run_reads]; [apply stamped_ret |].
  apply stamped_bind; [apply stamped_getitem |]. intros v.
  apply stamped_bind; [apply IH |]. intros vs. apply stamped_ret.
Qed.

Lemma stamped_for_each {A} (xs : list A) (body : A → M unit) :
  (∀ x, stamped (body x)) → stamped (for_each xs body).
Proof.
  intros Hb. induction xs as [| x xs IH]; cbn [for_each]; [apply stamped_ret |].
  apply stamped_bind; [apply Hb | by intros _].
Qed.

Lemma stamped_to_list (fuel : nat) (self : nat) : stamped (to_list fuel self).
Proof.
  apply stamped_bind; [apply stamped_len |]. intros n.
  induction (seqZ 0 n) as [| i range IH]; cbn [iter_loop]; [apply stamped_ret |].
  apply stamped_bind; [apply stamped_getitem |]. intros v.
  apply stamped_bind; [apply IH |]. intros vs. apply stamped_ret.
Qed.

Lemma stamped_dict_getitem {A} (d : gmap WaveletFilters A) (key : WaveletFilters) :
  stamped (dict_getitem d key).
Proof.
  unfold dict_getitem. destruct (d !! key); [apply stamped_ret | apply stamped_raise].
Qed.

Lemma stamped_append_delays (delays : list Z) (stages : list LiftingStage) :
  stamped (append_delays delays stages).
Proof.
  revert delays. induction stages as [| stage stages IH]; intros delays;
    cbn [append_delays]; [apply stamped_ret |].
  apply stamped_bind; [apply stamped_list_getitem |]. intros d. apply IH.
Qed.

Lemma stamped_access (order : Order) (fuel : nat) (arrays : list nat)
    (w : WaveletFilters) :
  stamped (access order fuel arrays w).
Proof.
  destruct order; cbn [access].
  - apply stamped_for_each. intros array.
    apply stamped_bind; [apply stamped_to_list |]. intros _. apply stamped_ret.
  - apply stamped_bind; [apply stamped_dict_getitem |]. intros stages.
    apply stamped_bind; [apply stamped_append_delays |]. intros delays.
    apply stamped_bind; [apply stamped_dict_getitem |]. intros stages'.
    apply stamped_bind; [apply stamped_append_delays |]. intros delays'.
    apply stamped_bind; [apply stamped_list_getitem |]. intros last_array.
    apply stamped_bind; [apply stamped_len |]. intros n.
    apply stamped_bind.
    { unfold py_max. destruct delays'; [apply stamped_raise | apply stamped_ret]. }
    intros m. apply stamped_for_each. intros i.
    apply stamped_for_each. intros [delay array].
    apply stamped_bind; [apply stamped_len |]. intros n'.
    destruct (bool_decide _); [| apply stamped_ret].
    apply stamped_bind; [apply stamped_getitem |]. intros _. apply stamped_ret.
  - apply stamped_bind; [apply stamped_list_getitem |]. intros array.
    apply stamped_bind; [apply stamped_to_list |]. intros _. apply stamped_ret.
  - apply stamped_bind; [apply stamped_dict_getitem |]. intros stages.
    apply stamped_bind; [apply stamped_list_getitem |]. intros array.
    apply stamped_bind; [apply stamped_to_list |]. intros _.
    apply stamped_bind; [apply stamped_list_getitem |]. intros array'.
    apply stamped_bind; [apply stamped_to_list |]. intros _. apply stamped_ret.
Qed.

(** The [finally] block of [log_access], when the access record is
    there, stamps the key of the read. *)
Lemma log_access_exit_stamp (array_name : string) (index : Z)
    (held : option (nat * nat)) (st : State) :
  held_ok held st →
  ∃ st', log_access_exit array_name index held st = (Ok tt, st') ∧
         last_access_time (logger st') !! (array_name, index)
         = Some (_time (logger st')) ∧
         is_Some (first_access_time (logger st') !! (array_name, index)).
Proof.
  intros Hh.
  cbv [log_access_exit time access_record_set_end_time call_record_deref
       set_call_log bind ret raise get_logger put_logger].
  destruct st as [[t stack log first lst] h]. proj.
  assert (Hfirst : is_Some (match first !! (array_name, index) with
                            | Some _ => first
                            | None => <[(array_name, index) := t + 1]> first
                            end !! (array_name, index))).
  { destruct (first !! (array_name, index)) eqn:Hk; [by rewrite Hk |].
    by rewrite lookup_insert_eq. }
  destruct held as [[c p] |]; proj.
  - destruct Hh as (n & Hn & Hp). unfold access_lens in Hn. proj_in Hn.
    rewrite list_lookup_fmap in Hn.
    destruct (log !! c) as [r |] eqn:Hr; [| done]. cbn in Hn. simplify_eq. proj.
    destruct (lookup_lt_is_Some_2 (CallRecord.access_log r) p Hp) as [acc ->]. proj.
    eexists. split; [done |]. proj. by rewrite lookup_insert_eq.
  - eexists. split; [done |]. proj. by rewrite lookup_insert_eq.
Qed.

(** X6.  A first access time is written once: whatever reads follow,
    in any order and whatever their outcome, and whichever driver of
    the command line runs, the time recorded for a key in
    [first_access_time] stays. *)
Theorem first_access_time_written_once (fuel : nat) (reads : list (nat * Z))
    (order : Order) (arrays : list nat) (w : WaveletFilters) (st : State)
    (key : string * Z) (t : Z) :
  first_access_time (logger st) !! key = Some t →
  first_access_time (logger (run_reads fuel reads st).2) !! key = Some t ∧
  first_access_time (logger (access order fuel arrays w st).2) !! key = Some t.
Proof.
  intros H. split.
  - by apply (stamps_first _ _ (stamped_run_reads fuel reads st)).
  - by apply (stamps_first _ _ (stamped_access order fuel arrays w st)).
Qed.

Lemma first_access_time_written_once_witness :
  first_access_time
    (logger (run_reads 10 [(2%nat, 1); (0%nat, 0)]
               (session 10 [5; 7] haar_no_shift [(0%nat, 0)]).2).2)
    !! ("Encoder Input", 0) = Some 2 ∧
  first_access_time
    (logger (access chained 10 [0%nat; 1%nat; 2%nat] haar_no_shift
               (session 10 [5; 7] haar_no_shift [(0%nat, 0)]).2).2)
    !! ("Encoder Input", 0) = Some 2.
Proof.
  apply (first_access_time_written_once 10 [(2%nat, 1); (0%nat, 0)] chained
           [0%nat; 1%nat; 2%nat] haar_no_shift
           (session 10 [5; 7] haar_no_shift [(0%nat, 0)]).2 ("Encoder Input", 0) 2).
  vm_compute. reflexivity.
Defined.

(** X7.  In a session of the command line, under any reads and under
    each of the four drivers, the maps [first_access_time] and
    [last_access_time] have the same keys, and for every key the first
    time is a tick of the clock, not after the last time, which is not
    after the clock. *)
Theorem session_access_times_ok (fuel : nat) (input_values : list Z)
    (w : WaveletFilters) :
  (∀ reads, access_times_ok (logger (session fuel input_values w reads).2)) ∧
  (∀ order,
     access_times_ok
       (logger ((let* arrays := construct_all_arrays input_values w in
                 access order fuel arrays w) initial_state).2)).
Proof.
  assert (H0 : ∀ h, access_times_ok (logger (mkState AccessLogger_init h))).
  { intros h. split; [done |]. intros key. unfold AccessLogger_init. proj. by rewrite !lookup_empty. }
  destruct (filter_tables w) as (ana & syn & HA & HS & _ & _ & _). split.
  - intros reads. unfold session, bind, initial_state.
    rewrite (construct_all_arrays_run _ _ _ ana syn) by done.
    apply (stamps_ok _ _ (stamped_run_reads fuel reads _)), H0.
  - intros order. unfold bind, initial_state.
    rewrite (construct_all_arrays_run _ _ _ ana syn) by done.
    apply (stamps_ok _ _ (stamped_access order fuel _ w _)), H0.
Qed.

(** X8.  Every read, whether it returns a value or raises, stamps its
    key: when [array[index]] is over, [last_access_time] holds the
    clock value for [(name, index)], with the index as the caller gave
    it, and [first_access_time] has the key. *)
Theorem read_stamps_last_access_time (fuel : nat) (a : nat) (i : Z) (st : State)
    (arr : LoggingLazyList) :
  stack_ok (logger st) → heap st !! a = Some arr →
  last_access_time (logger (getitem (S fuel) a i st).2) !! (name arr, i)
  = Some (_time (logger (getitem (S fuel) a i st).2)) ∧
  is_Some (first_access_time (logger (getitem (S fuel) a i st).2) !! (name arr, i)).
Proof.
  intros Hok Harr.
  destruct (getitem (S fuel) a i st) as [r st'] eqn:Hrun. cbn [fst snd].
  revert Hrun.
  cbn [getitem]. unfold bind at 1. rewrite (deref_run _ _ _ Harr).
  unfold log_access. unfold bind at 1.
  destruct (log_access_enter_ok (name arr) i st Hok)
    as (held & st1 & Henter & Hq1 & Hheld).
  rewrite Henter. unfold try_finally.
  pose proof (framed_getitem_body (getitem fuel) a i (framed_getitem fuel) st1)
    as [Hf _].
  destruct (getitem_body (getitem fuel) a i st1) as [r2 st2]. cbn [fst snd] in Hf.
  destruct (log_access_exit_stamp (name arr) i held st2 (held_ok_frame _ _ _ Hf Hheld))
    as (st3 & Hexit & Hlast & Hfirst).
  rewrite Hexit. by intros [= <- <-].
Qed.

Lemma read_stamps_last_access_time_witness :
  last_access_time
    (logger (getitem 1 0 7 (LoggingLazyList_init "a" (inl 3) BaseLLL initial_state).2).2)
    !! ("a", 7)
  = Some (_time
            (logger (getitem 1 0 7
                       (LoggingLazyList_init "a" (inl 3) BaseLLL initial_state).2).2)) ∧
  is_Some
    (first_access_time
       (logger (getitem 1 0 7 (LoggingLazyList_init "a" (inl 3) BaseLLL initial_state).2).2)
       !! ("a", 7)).
Proof.
  apply (read_stamps_last_access_time 0 0 7
           (LoggingLazyList_init "a" (inl 3) BaseLLL initial_state).2
           (mkLLL "a" [None; None; None] BaseLLL)).
  - vm_compute. constructor.
  - reflexivity.
Defined.

(** ** The sources of the resolved slots *)

Lemma bind_run {A B} (m : M A) (k : A → M B) (st st' : State) (x : A) :
  m st = (Ok x, st') → bind m k st = k x st'.
Proof. intros H. unfold bind. by rewrite H. Qed.

Lemma bind_Ok_inv {A B} (m : M A) (k : A → M B) (st st' : State) (v : B) :
  bind m k st = (Ok v, st') →
  ∃ x st1, m st = (Ok x, st1) ∧ k x st1 = (Ok v, st').
Proof.
  unfold bind. destruct (m st) as [[x | e] st1]; [| done]. intros H. by exists x, st1.
Qed.

Lemma try_finally_Ok_inv {A} (body : M A) (fin : M unit) (st st' : State) (v : A) :
  try_finally body fin st = (Ok v, st') →
  ∃ st1, body st = (Ok v, st1) ∧ fin st1 = (Ok tt, st').
Proof.
  unfold try_finally. destruct (body st) as [r st1].
  destruct (fin st1) as [[[] | e] st2] eqn:Hfin; [| done].
  intros [= -> ->]. by exists st1.
Qed.

Lemma grows_refl (st : State) : grows st st.
Proof. by split. Qed.

Lemma grows_trans (st1 st2 st3 : State) :
  grows st1 st2 → grows st2 st3 → grows st1 st3.
Proof.
  intros [H1 H2 H3] [G1 G2 G3]. split.
  - congruence.
  - intros b j H. by apply G2, H2.
  - intros H. by apply G3, H3.
Qed.

(** A step that leaves the arrays alone. *)
Lemma grows_heap (st st' : State) : heap st' = heap st → grows st st'.
Proof.
  intros H. split.
  - unfold heap_shape. by rewrite H.
  - intros b j. unfold slot. by rewrite H.
  - unfold source_closed, slot. by rewrite H.
Qed.

Lemma growing_ret {A} (a : A) : growing (ret a).
Proof. intros st. apply grows_refl. Qed.

Lemma growing_raise {A} (e : PyError) : growing (@raise A e).
Proof. intros st. apply grows_refl. Qed.

Lemma growing_bind {A B} (m : M A) (k : A → M B) :
  growing m → (∀ a, growing (k a)) → growing (bind m k).
Proof.
  intros Hm Hk st. unfold bind. specialize (Hm st).
  destruct (m st) as [[a | e] st1]; cbn [fst snd] in *; [| done].
  eapply grows_trans; [exact Hm | apply Hk].
Qed.

Lemma growing_try_finally {A} (body : M A) (fin : M unit) :
  growing body → growing fin → growing (try_finally body fin).
Proof.
  intros Hb Hf st. unfold try_finally. specialize (Hb st).
  destruct (body st) as [r st1]; cbn [fst snd] in *.
  specialize (Hf st1). destruct (fin st1) as [[[] | e] st2]; cbn [fst snd] in *;
    by eapply grows_trans.
Qed.

Lemma deref_heap (self : nat) (st : State) : (deref self st).2 = st.
Proof. cbv [deref bind get_heap]. by destruct (heap st !! self). Qed.

Lemma growing_deref (self : nat) : growing (deref self).
Proof. intros st. rewrite deref_heap. apply grows_refl. Qed.

Lemma growing_len (self : nat) : growing (len self).
Proof.
  apply growing_bind; [apply growing_deref |]. intros a. apply growing_ret.
Qed.

Lemma growing_list_getitem {A} (l : list A) (i : Z) : growing (list_getitem l i).
Proof.
  unfold list_getitem. destruct (py_index l i) as [p |]; [| apply growing_raise].
  destruct (l !! p); [apply growing_ret | apply growing_raise].
Qed.

Lemma log_access_enter_heap (array_name : string) (index : Z) (st : State) :
  heap (log_access_enter array_name index st).2 = heap st.
Proof.
  cbv [log_access_enter time call_record_append_access call_record_deref
       set_call_log bind ret raise get_logger put_logger].
  destruct st as [[t stack log first lst] h]. proj.
  destruct (last stack) as [top |]; proj; [| done].
  by destruct (log !! top).
Qed.

Lemma log_access_exit_heap (array_name : string) (index : Z)
    (held : option (nat * nat)) (st : State) :
  heap (log_access_exit array_name index held st).2 = heap st.
Proof.
  cbv [log_access_exit time access_record_set_end_time call_record_deref
       set_call_log bind ret raise get_logger put_logger].
  destruct st as [[t stack log first lst] h]. proj.
  destruct held as [[c p] |]; proj; [| done].
  destruct (log !! c) as [r |]; proj; [| done].
  by destruct (CallRecord.access_log r !! p).
Qed.

Lemma new_context_exit_heap (call_record : nat) (st : State) :
  heap (new_context_exit call_record st).2 = heap st.
Proof.
  cbv [new_context_exit time call_record_set_end_time call_record_deref
       set_call_log set_call_stack bind ret raise get_logger put_logger].
  destruct st as [[t stack log first lst] h]. proj.
  destruct (last stack) as [popped |]; proj; [| done].
  destruct (log !! popped) as [r1 |]; proj; [| done].
  destruct (log !! call_record) as [r2 |]; proj; [| done].
  destruct (decide (r1 = r2)); proj; [| done].
  by destruct (log !! call_record).
Qed.

Lemma growing_log_access {A} (array_name : string) (index : Z) (body : M A) :
  growing body → growing (log_access array_name index body).
Proof.
  intros Hb. apply growing_bind.
  - intros st. apply grows_heap, log_access_enter_heap.
  - intros h. apply growing_try_finally; [done |].
    intros st. apply grows_heap, log_access_exit_heap.
Qed.

Lemma growing_new_context {A} (array_name : string) (index : Z) (body : M A) :
  growing body → growing (new_context array_name index body).
Proof.
  intros Hb. apply growing_bind.
  - intros st. apply grows_heap. by rewrite new_context_enter_run.
  - intros c. apply growing_try_finally; [done |].
    intros st. apply grows_heap, new_context_exit_heap.
Qed.

Lemma slot_insert_mono (h : list LoggingLazyList) (lg lg' : AccessLogger)
    (a : nat) (arr : LoggingLazyList) (p : nat) (v : Z) (b j : nat) :
  h !! a = Some arr →
  is_Some (slot (mkState lg h) b j) →
  is_Some (slot (mkState lg'
                   (<[a := mkLLL (name arr) (<[p := Some v]> (_values arr))
                             (class_of arr)]> h)) b j).
Proof.
  intros Harr. unfold slot. proj. destruct (decide (b = a)) as [-> | Hne].
  - rewrite list_lookup_insert_eq by (by eapply lookup_lt_Some).
    rewrite Harr. cbn. destruct (decide (j = p)) as [-> | Hj].
    + destruct (_values arr !! p) as [ev |] eqn:Hev; [| by intros [? ?]].
      intros _. rewrite list_lookup_insert_eq by (by eapply lookup_lt_Some). by eexists.
    + by rewrite list_lookup_insert_ne by done.
  - by rewrite list_lookup_insert_ne by done.
Qed.

(** The assignment [self._values[index] = value] keeps the store
    closed when the slot of the source is resolved. *)
Lemma grows_set_value (self : nat) (index value : Z) (st : State) :
  0 ≤ index →
  (∀ arr source lift, heap st !! self = Some arr →
                      class_of arr = LiftedLLL source lift →
                      is_Some (slot st source (Z.to_nat index))) →
  grows st (set_value self index value st).2.
Proof.
  destruct st as [lg h]. intros Hi Hsrc. proj_in Hsrc.
  cbv [set_value deref list_setitem bind get_heap put_heap ret raise]. proj.
  destruct (h !! self) as [arr |] eqn:Harr; proj; [| apply grows_refl].
  destruct (py_index (_values arr) index) as [p |] eqn:Hp; proj; [| apply grows_refl].
  assert (p = Z.to_nat index) as ->.
  { unfold py_index in Hp. repeat case_decide; simplify_eq; (done || lia). }
  split.
  - unfold heap_shape. proj. eapply fmap_insert_same; [exact Harr |].
    unfold shape_of. cbn. by rewrite length_insert.
  - intros b j H. by apply (slot_insert_mono h lg lg).
  - intros Hc b arrb s lift j Hb Hcls Hj.
    apply (slot_insert_mono h lg lg); [done |]. proj_in Hb.
    destruct (decide (b = self)) as [-> | Hne].
    + rewrite list_lookup_insert_eq in Hb by (by eapply lookup_lt_Some).
      injection Hb as <-. cbn in Hcls.
      destruct (decide (j = Z.to_nat index)) as [-> | Hj'].
      * by eapply Hsrc.
      * apply (Hc self arr s lift j Harr Hcls).
        unfold slot in *. proj. proj_in Hj. rewrite Harr.
        rewrite list_lookup_insert_eq in Hj by (by eapply lookup_lt_Some).
        cbn in *. by rewrite list_lookup_insert_ne in Hj by done.
    + rewrite list_lookup_insert_ne in Hb by done.
      apply (Hc b arrb s lift j Hb Hcls).
      unfold slot in *. proj. proj_in Hj.
      by rewrite list_lookup_insert_ne in Hj by done.
Qed.

Lemma deref_Ok_inv (self : nat) (st st' : State) (arr : LoggingLazyList) :
  deref self st = (Ok arr, st') → st' = st ∧ heap st !! self = Some arr.
Proof.
  cbv [deref bind get_heap ret raise]. destruct (heap st !! self); [| done].
  by intros [= -> ->].
Qed.

Lemma list_getitem_Ok_inv {A} (l : list A) (i : Z) (x : A) (st st' : State) :
  0 ≤ i → list_getitem l i st = (Ok x, st') → st' = st ∧ l !! Z.to_nat i = Some x.
Proof.
  intros Hi. unfold list_getitem, py_index.
  destruct (decide (0 ≤ i < Z.of_nat (length l))).
  - destruct (l !! Z.to_nat i); [| done]. by intros [= -> ->].
  - by rewrite decide_False by lia.
Qed.

Lemma list_getitem_state {A} (l : list A) (i : Z) (st : State) :
  (list_getitem l i st).2 = st.
Proof.
  unfold list_getitem. destruct (py_index l i) as [p |]; [| done].
  by destruct (l !! p).
Qed.

Lemma set_value_Ok_inv (self : nat) (index value : Z) (st st' : State) :
  0 ≤ index → set_value self index value st = (Ok tt, st') →
  slot st' self (Z.to_nat index) = Some value.
Proof.
  intros Hi. cbv [set_value deref list_setitem bind get_heap put_heap ret raise].
  destruct (heap st !! self) as [arr |] eqn:Harr; [| done].
  destruct (py_index (_values arr) index) as [p |] eqn:Hp; [| done].
  intros [= <-]. pose proof (py_index_lt _ _ _ Hp) as Hlt.
  assert (p = Z.to_nat index) as ->.
  { unfold py_index in Hp. repeat case_decide; simplify_eq; (done || lia). }
  unfold slot. proj.
  rewrite list_lookup_insert_eq by (by eapply lookup_lt_Some). cbn.
  by rewrite list_lookup_insert_eq by done.
Qed.

Lemma growing_compute_value_loop (read : Z → M Z) (source : nat)
    (lift : LiftingStage) (index : Z) (range : list Z) (sum : Z) :
  (∀ pos, 0 ≤ pos → growing (read pos)) →
  growing (compute_value_loop read source lift index range sum).
Proof.
  intros Hread. revert sum. induction range as [| i range IH]; intros sum; cbn.
  - apply growing_ret.
  - apply growing_bind; [apply growing_len |]. intros n.
    apply growing_bind; [apply growing_list_getitem |]. intros tap.
    apply growing_bind; [| intros v; apply IH].
    apply Hread. destruct (update_even _); lia.
Qed.

Lemma growing_LiftedLLL_compute_value (read : Z → M Z) (source : nat)
    (lift : LiftingStage) (index : Z) :
  0 ≤ index → (∀ pos, 0 ≤ pos → growing (read pos)) →
  growing (LiftedLLL_compute_value read source lift index).
Proof.
  intros Hi Hread. unfold LiftedLLL_compute_value.
  destruct (bool_decide (update_even _ = _)); [| by apply Hread].
  apply growing_bind; [by apply growing_compute_value_loop |]. intros sum.
  apply growing_bind.
  { destruct (bool_decide (LiftingStage.S lift < 0));
      [apply growing_raise | apply growing_ret]. }
  intros sum'.
  destruct (add _); (apply growing_bind; [by apply Hread |]); intros v;
    apply growing_ret.
Qed.

(** Every branch of [LiftedLLL.compute_value] ends with the read
    [self._source[index]]. *)
Lemma resolving_LiftedLLL_compute_value (read : Z → M Z) (source : nat)
    (lift : LiftingStage) (index : Z) :
  resolving source index (read index) →
  resolving source index (LiftedLLL_compute_value read source lift index).
Proof.
  intros Hr st v st' H. unfold LiftedLLL_compute_value in H.
  destruct (bool_decide (update_even _ = _)); [| by eapply Hr].
  apply bind_Ok_inv in H as (sum & st1 & _ & H).
  apply bind_Ok_inv in H as (sum' & st2 & _ & H).
  destruct (add _); apply bind_Ok_inv in H as (x & st3 & H3 & H4);
    cbv [ret] in H4; injection H4 as _ <-; by eapply Hr.
Qed.

Lemma growing_compute_value (read : nat → Z → M Z) (self : nat) (index : Z) :
  0 ≤ index → (∀ b pos, 0 ≤ pos → growing (read b pos)) →
  growing (compute_value read self index).
Proof.
  intros Hi Hread. apply growing_bind; [apply growing_deref |]. intros a.
  destruct (class_of a) as [| source lift]; [apply growing_raise |].
  apply growing_LiftedLLL_compute_value; [done |]. intros pos. apply Hread.
Qed.

Lemma bind_ret_state {A B} (m : M A) (x : B) (st : State) :
  (bind m (λ _, ret x) st).2 = (m st).2.
Proof. unfold bind. by destruct (m st) as [[a | e] st']. Qed.

Lemma getitem_body_grows (read : nat → Z → M Z) (self : nat) (index : Z) :
  0 ≤ index →
  (∀ b pos, 0 ≤ pos → growing (read b pos)) →
  (∀ b pos, 0 ≤ pos → resolving b pos (read b pos)) →
  growing (getitem_body read self index) ∧
  resolving self index (getitem_body read self index).
Proof.
  intros Hi Hgrow Hres. split.
  - intros st. unfold getitem_body. unfold bind at 1.
    destruct (deref self st) as [[arr | e] st0] eqn:Hd; cbn [snd];
      [| pose proof (deref_heap self st) as H; rewrite Hd in H; cbn in H; subst st0;
         apply grows_refl].
    apply deref_Ok_inv in Hd as [-> Harr]. unfold bind at 1.
    pose proof (list_getitem_state (_values arr) index st) as Hst.
    destruct (list_getitem (_values arr) index st) as [[ev | e] st1] eqn:Hl;
      cbn in Hst; subst st1; [| apply grows_refl].
    destruct ev as [v |]; [apply grows_refl |].
    unfold bind at 1.
    pose proof (growing_new_context (name arr) index _
                  (growing_compute_value read self index Hi Hgrow) st) as G5.
    destruct (new_context (name arr) index (compute_value read self index) st)
      as [[value | e] st5] eqn:Hnc; cbn [snd] in G5 |- *; [| exact G5].
    eapply grows_trans; [exact G5 |]. rewrite bind_ret_state.
    apply grows_set_value; [done |]. intros arr5 s lift Harr5 Hcls5.
    unfold new_context in Hnc.
    apply bind_Ok_inv in Hnc as (c & st2 & Henter & Htf).
    apply try_finally_Ok_inv in Htf as (st4 & Hcv & Hexit).
    assert (Hheap5 : heap st5 = heap st4).
    { pose proof (new_context_exit_heap c st4) as H. by rewrite Hexit in H. }
    assert (Hheap2 : heap st2 = heap st).
    { rewrite new_context_enter_run in Henter. by injection Henter as _ <-. }
    pose proof (growing_compute_value read self index Hi Hgrow st2) as G4.
    rewrite Hcv in G4. cbn [snd] in G4.
    unfold compute_value in Hcv.
    apply bind_Ok_inv in Hcv as (arr2 & st2' & Hd2 & Hcv).
    apply deref_Ok_inv in Hd2 as [-> Harr2].
    destruct (heap_shape_lookup st2 st4 self arr2 (grows_shape _ _ G4) Harr2)
      as (arr4 & Harr4 & _ & Hcls4).
    rewrite Hheap5, Harr4 in Harr5. injection Harr5 as ->.
    rewrite Hcls5 in Hcls4. rewrite <- Hcls4 in Hcv.
    unfold slot. rewrite Hheap5.
    apply (resolving_LiftedLLL_compute_value (read s) s lift index
             (Hres s index Hi) st2 value st4 Hcv).
  - intros st v st' H. unfold getitem_body in H.
    apply bind_Ok_inv in H as (arr & st0 & Hd & H).
    apply deref_Ok_inv in Hd as [-> Harr].
    apply bind_Ok_inv in H as (ev & st1 & Hl & H).
    apply list_getitem_Ok_inv in Hl as [-> Hev]; [| done].
    destruct ev as [v0 |].
    + cbv [ret] in H. injection H as _ <-.
      unfold slot. rewrite Harr. cbn. rewrite Hev. by eexists.
    + apply bind_Ok_inv in H as (value & st5 & Hnc & H).
      apply bind_Ok_inv in H as ([] & st6 & Hset & Hret).
      cbv [ret] in Hret. injection Hret as _ <-.
      rewrite (set_value_Ok_inv _ _ _ _ _ Hi Hset). by eexists.
Qed.

(** A read at an index that is not negative keeps the store closed,
    whatever its outcome, and when it returns its slot is resolved. *)
Lemma getitem_grows (fuel : nat) :
  ∀ self index, 0 ≤ index →
    growing (getitem fuel self index) ∧ resolving self index (getitem fuel self index).
Proof.
  induction fuel as [| fuel IH]; intros self index Hi.
  - split; [apply growing_raise | by intros st v st' H].
  - destruct (getitem_body_grows (getitem fuel) self index Hi
                (λ b pos Hp, proj1 (IH b pos Hp)) (λ b pos Hp, proj2 (IH b pos Hp)))
      as [Gb Rb].
    split.
    + cbn [getitem]. apply growing_bind; [apply growing_deref |]. intros arr.
      by apply growing_log_access.
    + intros st v st' H. cbn [getitem] in H.
      apply bind_Ok_inv in H as (arr & st0 & Hd & H).
      unfold log_access in H.
      apply bind_Ok_inv in H as (held & st1 & He & H).
      apply try_finally_Ok_inv in H as (st6 & Hb & Hexit).
      pose proof (log_access_exit_heap (name arr) index held st6) as Hh.
      rewrite Hexit in Hh. cbn [snd] in Hh.
      unfold slot. rewrite Hh. exact (Rb _ _ _ Hb).
Qed.

Lemma growing_run_reads (fuel : nat) (reads : list (nat * Z)) :
  Forall (λ r, 0 ≤ r.2) reads → growing (run_reads fuel reads).
Proof.
  induction 1 as [| [a i] reads Hi Hall IH]; cbn [run_reads]; [apply growing_ret |].
  apply growing_bind; [by apply getitem_grows |]. intros v.
  apply growing_bind; [apply IH |]. intros vs. apply growing_ret.
Qed.

Lemma growing_to_list (fuel : nat) (self : nat) : growing (to_list fuel self).
Proof.
  apply growing_bind; [apply growing_len |]. intros n.
  rewrite iter_loop_run_reads. apply growing_run_reads.
  apply Forall_fmap, Forall_seqZ. intros j Hj. cbn. lia.
Qed.

Lemma growing_for_each {A} (xs : list A) (body : A → M unit) :
  (∀ x, growing (body x)) → growing (for_each xs body).
Proof.
  intros Hb. induction xs as [| x xs IH]; cbn [for_each]; [apply growing_ret |].
  apply growing_bind; [apply Hb | by intros _].
Qed.

Lemma growing_dict_getitem {A} (d : gmap WaveletFilters A) (key : WaveletFilters) :
  growing (dict_getitem d key).
Proof.
  unfold dict_getitem. destruct (d !! key); [apply growing_ret | apply growing_raise].
Qed.

Lemma growing_append_delays (delays : list Z) (stages : list LiftingStage) :
  growing (append_delays delays stages).
Proof.
  revert delays. induction stages as [| stage stages IH]; intros delays;
    cbn [append_delays]; [apply growing_ret |].
  apply growing_bind; [apply growing_list_getitem |]. intros d. apply IH.
Qed.

Lemma growing_access (order : Order) (fuel : nat) (arrays : list nat)
    (w : WaveletFilters) :
  growing (access order fuel arrays w).
Proof.
  destruct order; cbn [access].
  - apply growing_for_each. intros array.
    apply growing_bind; [apply growing_to_list |]. intros _. apply growing_ret.
  - apply growing_bind; [apply growing_dict_getitem |]. intros stages.
    apply growing_bind; [apply growing_append_delays |]. intros delays.
    apply growing_bind; [apply growing_dict_getitem |]. intros stages'.
    apply growing_bind; [apply growing_append_delays |]. intros delays'.
    apply growing_bind; [apply growing_list_getitem |]. intros last_array.
    apply growing_bind; [apply growing_len |]. intros n.
    apply growing_bind.
    { unfold py_max. destruct delays'; [apply growing_raise | apply growing_ret]. }
    intros m. apply growing_for_each. intros i.
    apply growing_for_each. intros [delay array].
    apply growing_bind; [apply growing_len |]. intros n'.
    destruct (bool_decide (0 ≤ i - delay < n')) eqn:Hin; [| apply growing_ret].
    apply bool_decide_eq_true in Hin.
    apply growing_bind; [apply getitem_grows; lia |]. intros _. apply growing_ret.
  - apply growing_bind; [apply growing_list_getitem |]. intros array.
    apply growing_bind; [apply growing_to_list |]. intros _. apply growing_ret.
  - apply growing_bind; [apply growing_dict_getitem |]. intros stages.
    apply growing_bind; [apply growing_list_getitem |]. intros array.
    apply growing_bind; [apply growing_to_list |]. intros _.
    apply growing_bind; [apply growing_list_getitem |]. intros array'.
    apply growing_bind; [apply growing_to_list |]. intros _. apply growing_ret.
Qed.

(** A fresh chain is closed: no lifted array has a resolved slot. *)
Lemma chain_shape_closed (input_values : list Z) (stages : list LiftingStage)
    (h : list LoggingLazyList) (lg : AccessLogger) :
  chain_shape input_values stages h → source_closed (mkState lg h).
Proof.
  intros (Hlen & (nm & H0) & Hk) a arr s lift j Ha Hcls [v Hv]. proj_in Ha.
  destruct a as [| k].
  - rewrite H0 in Ha. by injection Ha as <-.
  - destruct (lookup_lt_is_Some_2 stages k) as [stage Hs];
      [apply lookup_lt_Some in Ha; lia |].
    destruct (Hk k stage Hs) as (arr' & Ha' & _ & Hvals).
    rewrite Ha' in Ha. injection Ha as <-.
    unfold slot in Hv. proj_in Hv. rewrite Ha' in Hv. cbn in Hv.
    rewrite Hvals in Hv.
    destruct (replicate (length input_values) None !! j) as [ev |] eqn:Hev; [| done].
    apply lookup_replicate in Hev as [-> _]. done.
Qed.

(** X9.  A read at an index that is not negative, from any state and
    whatever its outcome, keeps every resolved slot resolved and keeps
    the store closed under sources (a resolved slot of a lifted array
    has the same slot of its source resolved); and when the read
    returns, its own slot is resolved. *)
Theorem read_resolves_slot_and_sources (fuel : nat) (a : nat) (i : Z) (st : State) :
  0 ≤ i →
  (∀ v st', getitem fuel a i st = (Ok v, st') → is_Some (slot st' a (Z.to_nat i))) ∧
  (∀ b j, is_Some (slot st b j) → is_Some (slot (getitem fuel a i st).2 b j)) ∧
  (source_closed st → source_closed (getitem fuel a i st).2).
Proof.
  intros Hi. destruct (getitem_grows fuel a i Hi) as [G R].
  split; [apply R |]. split; [apply (grows_mono _ _ (G st)) |].
  apply (grows_closed _ _ (G st)).
Qed.

Lemma read_resolves_slot_and_sources_witness :
  (∀ v st', getitem 10 2 1 (session 10 [5; 7] haar_no_shift []).2 = (Ok v, st') →
            is_Some (slot st' 2 (Z.to_nat 1))) ∧
  (∀ b j, is_Some (slot (session 10 [5; 7] haar_no_shift []).2 b j) →
          is_Some (slot (getitem 10 2 1 (session 10 [5; 7] haar_no_shift []).2).2 b j)) ∧
  (source_closed (session 10 [5; 7] haar_no_shift []).2 →
   source_closed (getitem 10 2 1 (session 10 [5; 7] haar_no_shift []).2).2).
Proof.
  apply (read_resolves_slot_and_sources 10 2 1 (session 10 [5; 7] haar_no_shift []).2).
  lia.
Defined.

(** X10.  In a session of the command line the store stays closed
    under sources: after any reads at indices that are not negative,
    in range or not and whatever their outcomes, and after each of the
    four drivers, for any input and any recursion budget, every
    resolved slot of a lifted array has the same slot of its source
    resolved. *)
Theorem session_sources_resolved (fuel : nat) (input_values : list Z)
    (w : WaveletFilters) (reads : list (nat * Z)) (order : Order) :
  Forall (λ r, 0 ≤ r.2) reads →
  source_closed (session fuel input_values w reads).2 ∧
  source_closed ((let* arrays := construct_all_arrays input_values w in
                  access order fuel arrays w) initial_state).2.
Proof.
  intros Hreads.
  destruct (filter_tables w) as (ana & syn & HA & HS & _ & _ & _).
  pose proof (chain_shape_closed _ _ _ AccessLogger_init
                (all_arrays_shape input_values ana syn)) as Hc.
  split.
  - unfold session, bind, initial_state.
    rewrite (construct_all_arrays_run _ _ _ ana syn) by done.
    by apply (grows_closed _ _ (growing_run_reads fuel reads Hreads _)).
  - unfold bind, initial_state.
    rewrite (construct_all_arrays_run _ _ _ ana syn) by done.
    by apply (grows_closed _ _ (growing_access order fuel _ w _)).
Qed.

Lemma session_sources_resolved_witness :
  source_closed (session 10 [1; 2; 3] le_gall_5_3 [(4%nat, 1); (2%nat, 7)]).2 ∧
  source_closed ((let* arrays := construct_all_arrays [1; 2; 3] le_gall_5_3 in
                  access lazy 10 arrays le_gall_5_3) initial_state).2.
Proof.
  apply (session_sources_resolved 10 [1; 2; 3] le_gall_5_3 [(4%nat, 1); (2%nat, 7)] lazy).
  repeat constructor; cbn; lia.
Defined.

Lemma keys_from_length_resolved (nm : string) (vs : list (option Z)) :
  ∀ j, Forall is_Some vs → length (keys_from nm j vs) = length vs.
Proof.
  induction vs as [| ev vs IH]; intros j Hall; [done |].
  apply Forall_cons in Hall as [[v ->] Hall]. cbn. by rewrite IH.
Qed.

Lemma omap_head_key_length (K : list (string * Z * Z * option Z)) :
  Forall (λ hd, is_Some hd.2) K → length (omap head_key K) = length K.
Proof.
  induction 1 as [| [[[nm i] s] e] K [t Ht] Hall IH]; [done |].
  cbn in Ht. subst e. cbn. by rewrite IH.
Qed.

Lemma bind_length_const {A B} (f : A → list B) (l : list A) (n : nat) :
  Forall (λ x, length (f x) = n) l → length (l ≫= f) = (length l * n)%nat.
Proof.
  induction 1 as [| x l Hx Hall IH]; [done |].
  cbn. rewrite length_app, Hx. cbn in IH. rewrite IH. lia.
Qed.

(** What each driver leaves behind, on an input of two values or
    more. *)
Lemma access_final_state (fuel : nat) (order : Order) (input_values : list Z)
    (w : WaveletFilters) :
  (2 ≤ length input_values)%nat →
  (length (chain_stages w) < fuel)%nat →
  ∃ st ana syn,
    (let* arrays := construct_all_arrays input_values w in
     access order fuel arrays w) initial_state = (Ok tt, st) ∧
    ANALYSIS_FILTERS !! w = Some ana ∧ SYNTHESIS_FILTERS !! w = Some syn ∧
    chain_stages w = ana ++ syn ∧
    Inv (chain_table input_values (chain_stages w)) st ∧
    frame (mkState AccessLogger_init (all_arrays input_values ana syn)) st ∧
    ∀ a j, (a ≤ length (chain_stages w))%nat → (j < length input_values)%nat →
           is_Some (slot st a j).
Proof.
  intros Hn Hfuel.
  destruct (built_state input_values w Hn)
    as (ana & syn & HA & HS & Hinv & Hst & Hrun & HI).
  set (D := chain_table input_values (chain_stages w)) in *.
  set (st0 := mkState AccessLogger_init (all_arrays input_values ana syn)) in *.
  assert (HD : length D = S (length (chain_stages w))) by apply chain_table_length.
  destruct (access_returns order D (Z.of_nat (length input_values)) fuel w
              (length (chain_stages w)) ana syn st0)
    as (st & Hacc & (HI' & Hf & _) & Hres);
    [apply chain_table_lengths | lia | done | done | done | done
    | by rewrite Hst |].
  exists st, ana, syn. split; [unfold bind; by rewrite Hrun |].
  split; [done |]. split; [done |]. split; [done |]. split; [done |].
  split; [done |].
  pose proof (all_arrays_shape input_values ana syn) as Hshape.
  assert (Hclosed : source_closed st).
  { pose proof (growing_access order fuel (seq 0 (length D)) w st0) as G.
    rewrite Hacc in G. apply (grows_closed _ _ G).
    by eapply chain_shape_closed. }
  destruct Hshape as (Hlen0 & _ & Hlift).
  assert (Hdown : ∀ k, (k ≤ length (chain_stages w))%nat →
            ∀ j, (j < length input_values)%nat →
                 is_Some (slot st (length (chain_stages w) - k) j)).
  { induction k as [| k IH]; intros Hk j Hj.
    - rewrite Nat.sub_0_r. specialize (Hres (Z.of_nat j)).
      rewrite Nat2Z.id in Hres. rewrite Hres by lia. by eexists.
    - set (a := (length (chain_stages w) - S k)%nat).
      destruct (lookup_lt_is_Some_2 (ana ++ syn) a) as [stage Hstage];
        [rewrite <- Hst; lia |].
      destruct (Hlift a stage Hstage) as (arr0 & Ha0 & Hc0 & _).
      destruct (heap_shape_lookup st0 st (S a) arr0 (frame_shape _ _ Hf) Ha0)
        as (arr & Harr & _ & Hcls).
      apply (Hclosed (S a) arr a stage j Harr); [by rewrite Hcls |].
      replace (S a) with (length (chain_stages w) - k)%nat by lia.
      apply IH; lia. }
  intros a j Ha Hj.
  replace a with (length (chain_stages w) - (length (chain_stages w) - a))%nat by lia.
  apply Hdown; lia.
Qed.

(** X11.  On an input of two values or more, each of the four drivers
    completes and leaves every slot of every array resolved, whichever
    of them runs: the demand-driven orders, which read the last array
    (and the transform array) only, compute as much as the block
    order.  The call log then has one call record per slot of each
    lifted array, that is stages times length records, and the
    computation count of each slot is one for a lifted array and zero
    for the input array. *)
Theorem every_order_computes_each_slot_once (fuel : nat) (order : Order)
    (input_values : list Z) (w : WaveletFilters) :
  (2 ≤ length input_values)%nat →
  (length (chain_stages w) < fuel)%nat →
  ∃ st,
    (let* arrays := construct_all_arrays input_values w in
     access order fuel arrays w) initial_state = (Ok tt, st) ∧
    length (heap st) = S (length (chain_stages w)) ∧
    (∀ a arr, heap st !! a = Some arr →
              length (_values arr) = length input_values ∧
              Forall is_Some (_values arr)) ∧
    length (call_log (logger st))
    = (length (chain_stages w) * length input_values)%nat ∧
    (∀ a arr i, heap st !! a = Some arr → 0 ≤ i < Z.of_nat (length input_values) →
                computations (logger st) (name arr) i
                = match a with O => 0%nat | S _ => 1%nat end).
Proof.
  intros Hn Hfuel.
  destruct (access_final_state fuel order input_values w Hn Hfuel)
    as (st & ana & syn & Hrun & HA & HS & Hst & HI & Hf & Hres).
  set (D := chain_table input_values (chain_stages w)) in *.
  set (st0 := mkState AccessLogger_init (all_arrays input_values ana syn)) in *.
  assert (HD : length D = S (length (chain_stages w))) by apply chain_table_length.
  pose proof (all_arrays_shape input_values ana syn) as (Hlen0 & (nm0 & Hbase) & Hlift).
  assert (Hheap : length (heap st) = S (length (chain_stages w))).
  { destruct HI as ((Hl & _) & _). by rewrite <- Hl. }
  assert (Hvals : ∀ a arr, heap st !! a = Some arr →
            length (_values arr) = length input_values ∧
            Forall is_Some (_values arr)).
  { intros a arr Harr.
    pose proof (lookup_lt_Some _ _ _ Harr) as Ha.
    destruct (lookup_lt_is_Some_2 D a) as [d Hd]; [lia |].
    destruct (Inv_lookup D st a d HI Hd) as (arr' & Harr' & Hl & _).
    rewrite Harr in Harr'. injection Harr' as <-.
    pose proof (Forall_lookup_1 _ _ _ _ (chain_table_lengths _ _) Hd) as Hdl.
    cbn in Hdl. split; [lia |].
    apply Forall_lookup. intros j ev Hev.
    pose proof (lookup_lt_Some _ _ _ Hev) as Hj.
    destruct (Hres a j) as [v Hv]; [lia | lia |].
    unfold slot in Hv. rewrite Harr in Hv. cbn in Hv. rewrite Hev in Hv.
    cbn in Hv. by rewrite Hv. }
  assert (Hclass : ∀ k arr, heap st !! S k = Some arr →
            ∃ s lift, class_of arr = LiftedLLL s lift).
  { intros k arr Harr.
    pose proof (lookup_lt_Some _ _ _ Harr) as Hk.
    destruct (lookup_lt_is_Some_2 (ana ++ syn) k) as [stage Hstage];
      [rewrite <- Hst; lia |].
    destruct (Hlift k stage Hstage) as (arr0 & Ha0 & Hc0 & _).
    destruct (heap_shape_lookup st0 st (S k) arr0 (frame_shape _ _ Hf) Ha0)
      as (arr' & Harr' & _ & Hcls).
    rewrite Harr in Harr'. injection Harr' as <-.
    exists k, stage. by rewrite Hcls. }
  assert (Hbase' : ∀ arr, heap st !! 0%nat = Some arr → class_of arr = BaseLLL).
  { intros arr Harr.
    destruct (heap_shape_lookup st0 st 0 _ (frame_shape _ _ Hf) Hbase)
      as (arr' & Harr' & _ & Hcls).
    rewrite Harr in Harr'. by injection Harr' as <-. }
  assert (Hall : Forall (λ hd, is_Some hd.2) (call_heads (logger st))).
  { destruct (frame_heads _ _ Hf) as (K & -> & HK). done. }
  exists st. split; [done |]. split; [done |]. split; [done |]. split.
  - rewrite <- call_heads_length, <- (omap_head_key_length _ Hall).
    rewrite <- completed_keys_heads.
    destruct HI as (_ & _ & Hperm). rewrite Hperm.
    unfold resolved_keys.
    destruct (heap st) as [| arr0 rest] eqn:Hh; [done |].
    cbn [length] in Hheap. injection Hheap as Hrest.
    change ((arr0 :: rest) ≫= slot_keys) with (slot_keys arr0 ++ (rest ≫= slot_keys)).
    rewrite length_app.
    assert (H0 : slot_keys arr0 = []).
    { unfold slot_keys. by rewrite (Hbase' arr0). }
    rewrite H0. cbn [length].
    rewrite (bind_length_const slot_keys rest (length input_values)); [lia |].
    apply Forall_lookup. intros k arr Harr.
    destruct (Hclass k arr) as (s & lift & Hcls); [done |].
    destruct (Hvals (S k) arr) as [Hl Hsome]; [done |].
    unfold slot_keys. rewrite Hcls.
    by rewrite keys_from_length_resolved.
  - intros a arr i Harr Hi.
    assert (Hnd : NoDup (name <$> heap st)).
    { rewrite (heap_shape_names st0 st (frame_shape _ _ Hf)).
      by eapply all_arrays_names_NoDup. }
    rewrite (computations_slot D st a arr i HI Hall Hnd Harr) by lia.
    destruct (Hres a (Z.to_nat i)) as [v Hv];
      [apply lookup_lt_Some in Harr; lia | lia |].
    rewrite Hv. destruct a as [| k].
    + by rewrite (Hbase' arr).
    + destruct (Hclass k arr) as (s & lift & Hcls); [done |]. by rewrite Hcls.
Qed.

Lemma every_order_computes_each_slot_once_witness :
  ∃ st,
    (let* arrays := construct_all_arrays [1; 2; 3; 4] le_gall_5_3 in
     access lazy 10 arrays le_gall_5_3) initial_state = (Ok tt, st) ∧
    length (heap st) = S (length (chain_stages le_gall_5_3)) ∧
    (∀ a arr, heap st !! a = Some arr →
              length (_values arr) = length [1; 2; 3; 4] ∧
              Forall is_Some (_values arr)) ∧
    length (call_log (logger st))
    = (length (chain_stages le_gall_5_3) * length [1; 2; 3; 4])%nat ∧
    (∀ a arr i, heap st !! a = Some arr → 0 ≤ i < Z.of_nat (length [1; 2; 3; 4]) →
                computations (logger st) (name arr) i
                = match a with O => 0%nat | S _ => 1%nat end).
Proof.
  apply (every_order_computes_each_slot_once 10 lazy [1; 2; 3; 4] le_gall_5_3).
  - cbn. lia.
  - vm_compute. lia.
Defined.

(** ** The data model of the filter tables *)

(** X12.  Every stage of both filter tables, for every wavelet, has as
    many taps as its [L] says, at least one, and a shift that is not
    negative; and a wavelet has as many analysis stages as synthesis
    stages.  So the tap subscript of [compute_value] is always in range
    and its shifts are defined. *)
Theorem filter_tables_well_formed :
  ∀ w : WaveletFilters,
    ∃ analysis synthesis,
      ANALYSIS_FILTERS !! w = Some analysis ∧
      SYNTHESIS_FILTERS !! w = Some synthesis ∧
      length analysis = length synthesis ∧
      Forall stage_well_formed analysis ∧
      Forall stage_well_formed synthesis.
Proof.
  intros w. destruct (filter_tables w) as (ana & syn & HA & HS & Hinv & _ & _).
  exists ana, syn. split; [done |]. split; [done |].
  split; [by rewrite Hinv, length_fmap, length_reverse |].
  subst ana.
  destruct w; vm_compute in HS; injection HS as <-;
    (split; repeat constructor; cbn; lia).
Qed.

(** ** The arrays a read can change *)

Lemma heap_from_refl (a : nat) (st : State) : heap_from a st st.
Proof. by intros b Hb. Qed.

Lemma heap_from_trans (a : nat) (st1 st2 st3 : State) :
  heap_from a st1 st2 → heap_from a st2 st3 → heap_from a st1 st3.
Proof. intros H1 H2 b Hb. by rewrite H2, H1. Qed.

Lemma heap_from_weaken (a a' : nat) (st st' : State) :
  (a ≤ a')%nat → heap_from a st st' → heap_from a' st st'.
Proof. intros Hle H b Hb. apply H. lia. Qed.

Lemma local_heap {A} (a : nat) (m : M A) :
  (∀ st, heap (m st).2 = heap st) → local_from a m.
Proof.
  intros H st Hsb. split.
  - intros b _. by rewrite H.
  - unfold sources_below. by rewrite H.
Qed.

Lemma local_weaken {A} (a a' : nat) (m : M A) :
  (a ≤ a')%nat → local_from a m → local_from a' m.
Proof.
  intros Hle H st Hsb. destruct (H st Hsb) as [H1 H2]. split; [| done].
  by eapply heap_from_weaken.
Qed.

Lemma local_ret {A} (a : nat) (x : A) : local_from a (ret x).
Proof. by apply local_heap. Qed.

Lemma local_raise {A} (a : nat) (e : PyError) : local_from a (@raise A e).
Proof. by apply local_heap. Qed.

Lemma local_bind {A B} (a : nat) (m : M A) (k : A → M B) :
  local_from a m → (∀ x, local_from a (k x)) → local_from a (bind m k).
Proof.
  intros Hm Hk st Hsb. unfold bind. destruct (Hm st Hsb) as [H1 H2].
  destruct (m st) as [[x | e] st1]; cbn [fst snd] in *; [| done].
  destruct (Hk x st1 H2) as [H3 H4]. split; [| done]. by eapply heap_from_trans.
Qed.

Lemma local_try_finally {A} (a : nat) (body : M A) (fin : M unit) :
  local_from a body → local_from a fin → local_from a (try_finally body fin).
Proof.
  intros Hb Hfin st Hsb. unfold try_finally. destruct (Hb st Hsb) as [H1 H2].
  destruct (body st) as [r st1]; cbn [fst snd] in *.
  destruct (Hfin st1 H2) as [H3 H4].
  destruct (fin st1) as [[[] | e] st2]; cbn [fst snd] in *;
    (split; [by eapply heap_from_trans | done]).
Qed.

Lemma local_deref (a self : nat) : local_from a (deref self).
Proof. apply local_heap. intros st. by rewrite deref_heap. Qed.

Lemma local_len (a self : nat) : local_from a (len self).
Proof.
  apply local_bind; [apply local_deref |]. intros arr. apply local_ret.
Qed.

Lemma local_list_getitem {A} (a : nat) (l : list A) (i : Z) :
  local_from a (list_getitem l i).
Proof. apply local_heap. intros st. by rewrite list_getitem_state. Qed.

Lemma local_set_value (self : nat) (index value : Z) :
  local_from (S self) (set_value self index value).
Proof.
  intros st Hsb. cbv [set_value deref list_setitem bind get_heap put_heap ret raise].
  destruct (heap st !! self) as [arr |] eqn:Harr; [| by split].
  destruct (py_index (_values arr) index) as [p |]; [| by split].
  proj. split.
  - intros b Hb. proj. by rewrite list_lookup_insert_ne by lia.
  - intros b arrb s lift Hb Hcls. proj_in Hb.
    destruct (decide (b = self)) as [-> | Hne].
    + rewrite list_lookup_insert_eq in Hb by (by eapply lookup_lt_Some).
      injection Hb as <-. by eapply Hsb.
    + rewrite list_lookup_insert_ne in Hb by done. by eapply Hsb.
Qed.

Lemma local_new_context {A} (a : nat) (array_name : string) (index : Z) (body : M A) :
  local_from a body → local_from a (new_context array_name index body).
Proof.
  intros Hb. apply local_bind.
  - apply local_heap. intros st. by rewrite new_context_enter_run.
  - intros c. apply local_try_finally; [done |].
    apply local_heap, new_context_exit_heap.
Qed.

Lemma local_log_access {A} (a : nat) (array_name : string) (index : Z) (body : M A) :
  local_from a body → local_from a (log_access array_name index body).
Proof.
  intros Hb. apply local_bind.
  - apply local_heap, log_access_enter_heap.
  - intros h. apply local_try_finally; [done |].
    apply local_heap, log_access_exit_heap.
Qed.

Lemma local_compute_value_loop (read : Z → M Z) (source : nat)
    (lift : LiftingStage) (index : Z) (range : list Z) (sum : Z) (a : nat) :
  (∀ pos, local_from a (read pos)) →
  local_from a (compute_value_loop read source lift index range sum).
Proof.
  intros Hread. revert sum. induction range as [| i range IH]; intros sum; cbn.
  - apply local_ret.
  - apply local_bind; [apply local_len |]. intros n.
    apply local_bind; [apply local_list_getitem |]. intros tap.
    apply local_bind; [apply Hread |]. intros v. apply IH.
Qed.

Lemma local_LiftedLLL_compute_value (read : Z → M Z) (source : nat)
    (lift : LiftingStage) (index : Z) (a : nat) :
  (∀ pos, local_from a (read pos)) →
  local_from a (LiftedLLL_compute_value read source lift index).
Proof.
  intros Hread. unfold LiftedLLL_compute_value.
  destruct (bool_decide (update_even _ = _)); [| by apply Hread].
  apply local_bind; [by apply local_compute_value_loop |]. intros sum.
  apply local_bind.
  { destruct (bool_decide (LiftingStage.S lift < 0));
      [apply local_raise | apply local_ret]. }
  intros sum'.
  destruct (add _); (apply local_bind; [by apply Hread |]); intros v;
    apply local_ret.
Qed.

(** [compute_value] of array [self] reads its source, an earlier
    array: the arrays from [self] on are untouched. *)
Lemma local_compute_value (read : nat → Z → M Z) (self : nat) (index : Z) :
  (∀ b pos, local_from (S b) (read b pos)) →
  local_from self (compute_value read self index).
Proof.
  intros Hread st Hsb. unfold compute_value, bind.
  pose proof (deref_heap self st) as Hst.
  destruct (deref self st) as [[arr | e] st0] eqn:Hd; cbn in Hst; subst st0;
    cbn [snd]; [| split; [apply heap_from_refl | done]].
  apply deref_Ok_inv in Hd as [_ Harr].
  destruct (class_of arr) as [| source lift] eqn:Hcls;
    [split; [apply heap_from_refl | done] |].
  pose proof (Hsb self arr source lift Harr Hcls) as Hlt.
  apply (local_weaken (S source) self); [lia | | done].
  apply local_LiftedLLL_compute_value. intros pos. apply Hread.
Qed.

Lemma local_getitem_body (read : nat → Z → M Z) (self : nat) (index : Z) :
  (∀ b pos, local_from (S b) (read b pos)) →
  local_from (S self) (getitem_body read self index).
Proof.
  intros Hread. apply local_bind; [apply local_deref |]. intros arr.
  apply local_bind; [apply local_list_getitem |]. intros [v |].
  - apply local_ret.
  - apply local_bind.
    + apply local_new_context. apply (local_weaken self); [lia |].
      by apply local_compute_value.
    + intros value. apply local_bind; [apply local_set_value |].
      intros _. apply local_ret.
Qed.

Lemma local_getitem (fuel : nat) :
  ∀ self index, local_from (S self) (getitem fuel self index).
Proof.
  induction fuel as [| fuel IH]; intros self index; cbn [getitem].
  - apply local_raise.
  - apply local_bind; [apply local_deref |]. intros arr.
    apply local_log_access. by apply local_getitem_body.
Qed.

Lemma local_run_reads (fuel : nat) (reads : list (nat * Z)) (a : nat) :
  Forall (λ r, (r.1 < a)%nat) reads → local_from a (run_reads fuel reads).
Proof.
  induction 1 as [| [b i] reads Hb Hall IH]; cbn [run_reads]; [apply local_ret |].
  apply local_bind.
  - apply (local_weaken (S b)); [cbn in Hb; lia | apply local_getitem].
  - intros v. apply local_bind; [apply IH |]. intros vs. apply local_ret.
Qed.

Lemma list_getitem_py_index {A} (l : list A) (i : Z) (x : A) (st st' : State) :
  list_getitem l i st = (Ok x, st') → is_Some (py_index l i).
Proof. unfold list_getitem. by destruct (py_index l i). Qed.

(** A body that raises has not assigned to its array. *)
Lemma failed_getitem_body (read : nat → Z → M Z) (self : nat) (index : Z)
    (st st' : State) (e : PyError) :
  (∀ b pos, local_from (S b) (read b pos)) →
  sources_below st →
  getitem_body read self index st = (Raise e, st') →
  heap_from self st st'.
Proof.
  intros Hread Hsb H. unfold getitem_body in H. unfold bind at 1 in H.
  pose proof (deref_heap self st) as Hst.
  destruct (deref self st) as [[arr | e0] st0] eqn:Hd; cbn in Hst; subst st0;
    [| injection H as _ <-; apply heap_from_refl].
  apply deref_Ok_inv in Hd as [_ Harr]. unfold bind at 1 in H.
  pose proof (list_getitem_state (_values arr) index st) as Hst.
  destruct (list_getitem (_values arr) index st) as [[ev | e1] st1] eqn:Hl;
    cbn in Hst; subst st1; [| injection H as _ <-; apply heap_from_refl].
  destruct ev as [v |]; [done |].
  unfold bind at 1 in H.
  pose proof (local_new_context self (name arr) index _
                (local_compute_value read self index Hread) st Hsb) as [H5 _].
  destruct (new_context (name arr) index (compute_value read self index) st)
    as [[value | e2] st5] eqn:Hnc; cbn [snd] in H5; [| by injection H as _ <-].
  exfalso.
  assert (Harr5 : heap st5 !! self = Some arr) by (by rewrite H5).
  destruct (list_getitem_py_index _ _ _ _ _ Hl) as [p Hp].
  revert H. cbv [set_value deref list_setitem bind get_heap put_heap ret raise].
  by rewrite Harr5, Hp.
Qed.

Lemma session_state (fuel : nat) (input_values : list Z) (w : WaveletFilters)
    (reads : list (nat * Z)) :
  stack_ok (logger (session fuel input_values w reads).2) ∧
  sources_below (session fuel input_values w reads).2.
Proof.
  destruct (session_unfold fuel input_values w reads)
    as (ana & syn & HA & HS & Hst & ->).
  set (st0 := mkState AccessLogger_init (all_arrays input_values ana syn)).
  pose proof (framed_run_reads fuel reads st0) as [Hf _].
  pose proof (all_arrays_shape input_values ana syn) as (Hlen0 & (nm0 & Hbase) & Hlift).
  split.
  - unfold stack_ok. rewrite (frame_stack _ _ Hf). subst st0. proj. constructor.
  - intros b arr s lift Hb Hcls.
    destruct (heap_shape_lookup _ st0 b arr (eq_sym (frame_shape _ _ Hf)) Hb)
      as (arr0 & Harr0 & _ & Hc0).
    subst st0. proj_in Harr0. destruct b as [| k].
    + rewrite Hbase in Harr0. injection Harr0 as <-. cbn in Hc0. congruence.
    + destruct (lookup_lt_is_Some_2 (ana ++ syn) k) as [stage Hstage];
        [apply lookup_lt_Some in Harr0; lia |].
      destruct (Hlift k stage Hstage) as (arr0' & Ha0 & Hcl0 & _).
      rewrite Ha0 in Harr0. injection Harr0 as <-.
      rewrite Hcl0, Hcls in Hc0. injection Hc0 as -> _. lia.
Qed.

(** X13.  A read changes arrays up to its own only: in a session, a
    read of array [a], at any index and whatever its outcome, leaves
    every later array of the chain as it was. *)
Theorem read_leaves_later_arrays (fuel fuel' : nat) (input_values : list Z)
    (w : WaveletFilters) (reads : list (nat * Z)) (a b : nat) (i : Z) :
  (a < b)%nat →
  heap (getitem fuel' a i (session fuel input_values w reads).2).2 !! b
  = heap (session fuel input_values w reads).2 !! b.
Proof.
  intros Hb.
  destruct (session_state fuel input_values w reads) as [_ Hsb].
  destruct (local_getitem fuel' a i _ Hsb) as [H _]. apply H. lia.
Qed.

Lemma read_leaves_later_arrays_witness :
  heap (getitem 10 2 1 (session 10 [1; 2; 3; 4] le_gall_5_3 []).2).2 !! 3%nat
  = heap (session 10 [1; 2; 3; 4] le_gall_5_3 []).2 !! 3%nat.
Proof.
  apply (read_leaves_later_arrays 10 10 [1; 2; 3; 4] le_gall_5_3 [] 2 3 1). lia.
Defined.

(** X14.  A read that raises has not memoized anything in its own
    array: in a session, when [array[index]] raises, array [a] and the
    later arrays are as they were; only slots of earlier arrays, the
    sources, may have been resolved on the way. *)
Theorem failed_read_is_not_memoized (fuel fuel' : nat) (input_values : list Z)
    (w : WaveletFilters) (reads : list (nat * Z)) (a b : nat) (i : Z) (e : PyError) :
  (getitem fuel' a i (session fuel input_values w reads).2).1 = Raise e →
  (a ≤ b)%nat →
  heap (getitem fuel' a i (session fuel input_values w reads).2).2 !! b
  = heap (session fuel input_values w reads).2 !! b.
Proof.
  destruct (session_state fuel input_values w reads) as [Hok Hsb].
  set (st := (session fuel input_values w reads).2) in *.
  destruct (getitem fuel' a i st) as [r st'] eqn:H. cbn [fst snd].
  intros ->. revert H.
  destruct fuel' as [| fuel']; [by intros [= _ <-] |].
  cbn [getitem]. unfold bind at 1.
  pose proof (deref_heap a st) as Hst.
  destruct (deref a st) as [[arr | e0] st0] eqn:Hd; cbn in Hst; subst st0;
    [| by intros [= _ <-]].
  unfold log_access. unfold bind at 1.
  destruct (log_access_enter_ok (name arr) i st Hok)
    as (held & st1 & Henter & Hq1 & Hheld).
  rewrite Henter. unfold try_finally.
  pose proof (framed_getitem_body (getitem fuel') a i (framed_getitem fuel') st1)
    as [Hf _].
  destruct (getitem_body (getitem fuel') a i st1) as [r6 st6] eqn:Hb.
  cbn [snd] in Hf.
  destruct (log_access_exit_ok (name arr) i held st6 (held_ok_frame _ _ _ Hf Hheld))
    as (st7 & Hexit & Hq7).
  rewrite Hexit. intros [= -> <-]. intros Hle.
  rewrite (quiet_frame_heap _ _ Hq7).
  rewrite <- (quiet_frame_heap _ _ Hq1).
  apply (failed_getitem_body (getitem fuel') a i st1 st6 e); [| | done | done].
  - intros b' pos. apply local_getitem.
  - unfold sources_below. by rewrite (quiet_frame_heap _ _ Hq1).
Qed.

Lemma failed_read_is_not_memoized_witness :
  heap (getitem 10 4 0 (session 10 [7] le_gall_5_3 []).2).2 !! 4%nat
  = heap (session 10 [7] le_gall_5_3 []).2 !! 4%nat.
Proof.
  apply (failed_read_is_not_memoized 10 10 [7] le_gall_5_3 [] 4 4 0 IndexError).
  - reflexivity.
  - lia.
Defined.

(** ** The reads a computation logs *)

Lemma matches_weaken (e e' : bool) (K KE : list (string * Z)) :
  matches e K KE → matches (e && e') K KE.
Proof.
  destruct e, e'; cbn; try done. by intros ->.
Qed.

Lemma matches_nil (e : bool) (K : list (string * Z)) : matches e K [] → K = [].
Proof. destruct e; cbn; [done |]. apply prefix_nil_inv. Qed.

Lemma matches_refl (e : bool) (K : list (string * Z)) : matches e K K.
Proof. by destruct e; cbn. Qed.

Lemma matches_app (e : bool) (K1 K2 K2' : list (string * Z)) :
  matches e K2' K2 → matches e (K1 ++ K2') (K1 ++ K2).
Proof. destruct e; cbn; [by intros -> | by apply prefix_app]. Qed.

Lemma record_ok_weaken (sh : list (string * LLLClass * nat)) (e e' : bool)
    (r : CallRecord.t) :
  record_ok sh e r → record_ok sh (e && e') r.
Proof.
  intros (a & cls & n & Ha & Hm). exists a, cls, n. split; [done |].
  by apply matches_weaken.
Qed.

Lemma record_ok_weaken_r (sh : list (string * LLLClass * nat)) (e e' : bool)
    (r : CallRecord.t) :
  record_ok sh e' r → record_ok sh (e && e') r.
Proof. rewrite andb_comm. apply record_ok_weaken. Qed.

Lemma record_ok_same (sh : list (string * LLLClass * nat)) (e : bool)
    (r r' : CallRecord.t) :
  call_key r' = call_key r → access_keys r' = access_keys r →
  record_ok sh e r → record_ok sh e r'.
Proof.
  unfold call_key. intros [= H1 H2] H3 (a & cls & n & Ha & Hm).
  exists a, cls, n. by rewrite H1, H2, H3.
Qed.

Lemma appended_refl (sh : list (string * LLLClass * nat)) (c : option nat)
    (e : bool) (st : State) :
  appended sh c [] e st st.
Proof.
  split; try done.
  - intros c' r Hr. exists r. split; [done |]. split; [done |].
    by destruct (decide _); rewrite app_nil_r.
  - intros c' r' Hle Hr. apply lookup_lt_Some in Hr. lia.
Qed.

Lemma appended_lengths (sh : list (string * LLLClass * nat)) (c : option nat)
    (K : list (string * Z)) (e : bool) (st st' : State) :
  appended sh c K e st st' →
  (length (call_log (logger st)) ≤ length (call_log (logger st')))%nat.
Proof.
  intros [_ _ Hold _].
  destruct (decide (length (call_log (logger st)) = 0)%nat) as [-> | Hne]; [lia |].
  destruct (lookup_lt_is_Some_2 (call_log (logger st))
              (pred (length (call_log (logger st))))) as [r Hr]; [lia |].
  destruct (Hold _ _ Hr) as (r' & Hr' & _). apply lookup_lt_Some in Hr'. lia.
Qed.

Lemma appended_stack_ok (sh : list (string * LLLClass * nat)) (c : option nat)
    (K : list (string * Z)) (e : bool) (st st' : State) :
  appended sh c K e st st' → stack_ok (logger st) → stack_ok (logger st').
Proof.
  intros Ha Hok. pose proof (appended_lengths _ _ _ _ _ _ Ha) as Hle.
  unfold stack_ok in *. rewrite (ap_stack _ _ _ _ _ _ Ha).
  eapply Forall_impl; [exact Hok |]. intros c0 Hc0. cbn in Hc0. lia.
Qed.

Lemma stack_top_valid (lg : AccessLogger) (c : nat) :
  stack_ok lg → last (_call_stack lg) = Some c → (c < length (call_log lg))%nat.
Proof.
  intros Hok Hlast. apply last_Some in Hlast as [l' Hl]. unfold stack_ok in Hok.
  rewrite Hl in Hok. apply Forall_app in Hok as [_ Hok].
  by apply (Forall_singleton (λ c : nat, (c < length (call_log lg))%nat)) in Hok.
Qed.

Lemma appended_trans (sh : list (string * LLLClass * nat)) (c : option nat)
    (K1 K2 : list (string * Z)) (e1 e2 : bool) (st1 st2 st3 : State) :
  (∀ c0, c = Some c0 → (c0 < length (call_log (logger st1)))%nat) →
  appended sh c K1 e1 st1 st2 → appended sh c K2 e2 st2 st3 →
  appended sh c (K1 ++ K2) (e1 && e2) st1 st3.
Proof.
  intros Hc H12 H23.
  pose proof (appended_lengths _ _ _ _ _ _ H12) as Hle.
  destruct H12 as [S1 Sh1 O1 N1]. destruct H23 as [S2 Sh2 O2 N2]. split.
  - congruence.
  - congruence.
  - intros c' r Hr. destruct (O1 _ _ Hr) as (r2 & Hr2 & Hk2 & Ha2).
    destruct (O2 _ _ Hr2) as (r3 & Hr3 & Hk3 & Ha3).
    exists r3. split; [done |]. split; [congruence |].
    rewrite Ha3, Ha2, <- app_assoc. f_equal.
    by destruct (decide _); [| rewrite app_nil_r].
  - intros c' r3 Hc' Hr3.
    destruct (decide (c' < length (call_log (logger st2)))%nat) as [Hlt | Hge].
    + destruct (lookup_lt_is_Some_2 _ _ Hlt) as [r2 Hr2].
      destruct (O2 _ _ Hr2) as (r3' & Hr3' & Hk3 & Ha3).
      rewrite Hr3 in Hr3'. injection Hr3' as <-.
      apply record_ok_weaken. apply (record_ok_same sh e1 r2); [done | | by eapply N1].
      rewrite Ha3. destruct (decide (c = Some c')) as [-> | Hne]; [| by rewrite app_nil_r].
      specialize (Hc c' eq_refl). lia.
    + apply record_ok_weaken_r. apply (N2 c'); [lia | done].
Qed.

Lemma traced_ret {A} (sh : list (string * LLLClass * nat)) (x : A) :
  traced sh [] (ret x).
Proof. intros st Hsh Hok. exists []. split; [apply appended_refl | done]. Qed.

Lemma traced_raise {A} (sh : list (string * LLLClass * nat))
    (K : list (string * Z)) (e : PyError) :
  traced sh K (@raise A e).
Proof.
  intros st Hsh Hok. exists []. split; [apply appended_refl |].
  cbn. apply prefix_nil.
Qed.

Lemma traced_bind {A B} (sh : list (string * LLLClass * nat))
    (K1 K2 : list (string * Z)) (m : M A) (k : A → M B) :
  traced sh K1 m → (∀ x, traced sh K2 (k x)) → traced sh (K1 ++ K2) (bind m k).
Proof.
  intros Hm Hk st Hsh Hok. destruct (Hm st Hsh Hok) as (K1' & Ha & Hm1).
  unfold bind. destruct (m st) as [[x | e] st1]; cbn [fst snd is_ok] in *.
  - cbn in Hm1. subst K1'.
    destruct (Hk x st1) as (K2' & Ha2 & Hm2).
    { by rewrite (ap_shape _ _ _ _ _ _ Ha). }
    { by eapply appended_stack_ok. }
    rewrite (ap_stack _ _ _ _ _ _ Ha) in Ha2.
    exists (K1 ++ K2'). split; [| by apply matches_app].
    apply (appended_trans sh _ K1 K2' true _ st st1); [| done | done].
    intros c0 Hc0. by apply stack_top_valid.
  - exists K1'. split; [done |]. cbn in *. by apply prefix_app_r.
Qed.

(** A step that leaves the state alone and whose results satisfy [Q]. *)
Lemma traced_bind_pure {A B} (sh : list (string * LLLClass * nat))
    (K : list (string * Z)) (m : M A) (k : A → M B) (Q : A → Prop) :
  (∀ st, heap_shape st = sh → (m st).2 = st ∧ ∀ x, (m st).1 = Ok x → Q x) →
  (∀ x, Q x → traced sh K (k x)) →
  traced sh K (bind m k).
Proof.
  intros Hm Hk st Hsh Hok. destruct (Hm st Hsh) as [H1 H2]. unfold bind.
  destruct (m st) as [[x | e] st1]; cbn [fst snd] in *; subst st1.
  - by apply Hk; [apply H2 | |].
  - exists []. split; [apply appended_refl |]. cbn. apply prefix_nil.
Qed.

Lemma appended_logger_same (sh : list (string * LLLClass * nat)) (c : option nat)
    (e : bool) (st st' : State) :
  logger st' = logger st → heap_shape st' = heap_shape st →
  appended sh c [] e st st'.
Proof.
  intros Hl Hs. split; rewrite ?Hl; try done.
  - intros c' r Hr. exists r. split; [done |]. split; [done |].
    by destruct (decide _); rewrite app_nil_r.
  - intros c' r' Hle Hr. apply lookup_lt_Some in Hr. lia.
Qed.

Lemma traced_pure {A} (sh : list (string * LLLClass * nat)) (m : M A) :
  (∀ st, (m st).2 = st) → traced sh [] m.
Proof.
  intros H st Hsh Hok. exists []. rewrite H.
  split; [apply appended_refl | apply matches_refl].
Qed.

Lemma set_value_logger (self : nat) (index value : Z) (st : State) :
  logger (set_value self index value st).2 = logger st.
Proof.
  cbv [set_value deref list_setitem bind get_heap put_heap ret raise].
  destruct (heap st !! self) as [arr |]; [| done].
  by destruct (py_index (_values arr) index).
Qed.

Lemma traced_set_value (sh : list (string * LLLClass * nat))
    (self : nat) (index value : Z) :
  traced sh [] (set_value self index value).
Proof.
  intros st Hsh Hok. exists []. split; [| apply matches_refl].
  apply appended_logger_same; [apply set_value_logger |].
  apply (frame_shape _ _ (proj1 (framed_set_value self index value st))).
Qed.

Lemma access_keys_insert_end (r : CallRecord.t) (p : nat) (acc : AccessRecord.t)
    (t : Z) :
  CallRecord.access_log r !! p = Some acc →
  (λ a, (AccessRecord.array_name a, AccessRecord.index a))
    <$> <[p := AccessRecord.mk (AccessRecord.array_name acc) (AccessRecord.index acc)
                 (AccessRecord.start_time acc) (Some t)]> (CallRecord.access_log r)
  = access_keys r.
Proof.
  intros Hp. unfold access_keys. rewrite list_fmap_insert. cbn.
  apply list_insert_id. by rewrite list_lookup_fmap, Hp.
Qed.

Lemma log_access_enter_appended (sh : list (string * LLLClass * nat))
    (array_name : string) (index : Z) (st : State) :
  stack_ok (logger st) →
  ∃ held st1, log_access_enter array_name index st = (Ok held, st1) ∧
              appended sh (last (_call_stack (logger st))) [(array_name, index)]
                true st st1 ∧
              held_ok held st1.
Proof.
  intros Hok.
  cbv [log_access_enter time call_record_append_access call_record_deref
       set_call_log bind ret raise get_logger put_logger].
  destruct st as [[t stack log first lst] h]. unfold stack_ok in Hok. proj_in Hok. proj.
  destruct (last stack) as [top |] eqn:Htop; proj.
  - assert (Hlt : (top < length log)%nat).
    { apply last_Some in Htop as [l' ->]. apply Forall_app in Hok as [_ Hok].
      by apply (Forall_singleton (λ c : nat, (c < length log)%nat)) in Hok. }
    destruct (lookup_lt_is_Some_2 log top Hlt) as [r Hr]. rewrite Hr. proj.
    eexists _, _. split; [done |]. split.
    + split; proj; [done | done | |].
      * intros c' r0 Hr0. destruct (decide (c' = top)) as [-> | Hne].
        -- rewrite Hr in Hr0. injection Hr0 as <-.
           eexists. split; [by rewrite list_lookup_insert_eq |]. split; [done |].
           rewrite decide_True by done. unfold access_keys. cbn.
           by rewrite fmap_app.
        -- exists r0. rewrite list_lookup_insert_ne by done.
           split; [done |]. split; [done |].
           rewrite decide_False by congruence. by rewrite app_nil_r.
      * intros c' r' Hle Hr'. apply lookup_lt_Some in Hr'.
        rewrite length_insert in Hr'. lia.
    + cbn. eexists. split.
      * unfold access_lens. proj. rewrite list_lookup_fmap.
        rewrite list_lookup_insert_eq by done. done.
      * cbn. rewrite length_app. cbn. lia.
  - eexists _, _. split; [done |]. split; [| done]. split; proj; [done | done | |].
    + intros c' r0 Hr0. exists r0. split; [done |]. split; [done |].
      rewrite decide_False by done. by rewrite app_nil_r.
    + intros c' r' Hle Hr'. apply lookup_lt_Some in Hr'. lia.
Qed.

Lemma log_access_exit_appended (sh : list (string * LLLClass * nat))
    (array_name : string) (index : Z) (held : option (nat * nat))
    (c : option nat) (st : State) :
  held_ok held st →
  ∃ st', log_access_exit array_name index held st = (Ok tt, st') ∧
         appended sh c [] true st st'.
Proof.
  intros Hh.
  cbv [log_access_exit time access_record_set_end_time call_record_deref
       set_call_log bind ret raise get_logger put_logger].
  destruct st as [[t stack log first lst] h]. proj.
  destruct held as [[c0 p] |]; proj.
  - destruct Hh as (n & Hn & Hp). unfold access_lens in Hn. proj_in Hn.
    rewrite list_lookup_fmap in Hn.
    destruct (log !! c0) as [r |] eqn:Hr; [| done]. cbn in Hn. simplify_eq. proj.
    destruct (lookup_lt_is_Some_2 (CallRecord.access_log r) p Hp) as [acc Hacc].
    rewrite Hacc. proj.
    eexists. split; [done |]. split; proj; [done | done | |].
    + intros c' r0 Hr0. destruct (decide (c' = c0)) as [-> | Hne].
      * rewrite Hr in Hr0. injection Hr0 as <-.
        eexists. split; [by rewrite list_lookup_insert_eq by (by eapply lookup_lt_Some) |].
        split; [done |]. unfold access_keys at 1. cbn.
        rewrite (access_keys_insert_end _ _ _ _ Hacc).
        by destruct (decide _); rewrite app_nil_r.
      * exists r0. rewrite list_lookup_insert_ne by done.
        split; [done |]. split; [done |].
        by destruct (decide _); rewrite app_nil_r.
    + intros c' r' Hle Hr'. apply lookup_lt_Some in Hr'.
      rewrite length_insert in Hr'. lia.
  - eexists. split; [done |]. split; proj; [done | done | |].
    + intros c' r0 Hr0. exists r0. split; [done |]. split; [done |].
      by destruct (decide _); rewrite app_nil_r.
    + intros c' r' Hle Hr'. apply lookup_lt_Some in Hr'. lia.
Qed.

Lemma held_ok_appended (sh : list (string * LLLClass * nat)) (c : option nat)
    (K : list (string * Z)) (e : bool) (held : option (nat * nat)) (st st' : State) :
  appended sh c K e st st' → held_ok held st → held_ok held st'.
Proof.
  intros Ha. destruct held as [[c0 p] |]; [| done].
  intros (n & Hn & Hp). unfold access_lens in *. rewrite list_lookup_fmap in Hn.
  destruct (call_log (logger st) !! c0) as [r |] eqn:Hr; [| done].
  cbn in Hn. injection Hn as <-.
  destruct (ap_old _ _ _ _ _ _ Ha c0 r Hr) as (r' & Hr' & _ & Hk).
  exists (length (CallRecord.access_log r')). unfold access_lens.
  rewrite list_lookup_fmap, Hr'. split; [done |].
  apply (f_equal length) in Hk. unfold access_keys in Hk.
  rewrite length_app, !length_fmap in Hk. lia.
Qed.

Lemma traced_log_access {A} (sh : list (string * LLLClass * nat))
    (array_name : string) (index : Z) (body : M A) :
  traced sh [] body → traced sh [(array_name, index)] (log_access array_name index body).
Proof.
  intros Hb st Hsh Hok. unfold log_access, bind.
  destruct (log_access_enter_appended sh array_name index st Hok)
    as (held & st1 & Henter & Ha1 & Hheld).
  rewrite Henter. unfold try_finally.
  destruct (Hb st1) as (K' & Ha2 & Hm2).
  { by rewrite (ap_shape _ _ _ _ _ _ Ha1). }
  { by eapply appended_stack_ok. }
  rewrite (ap_stack _ _ _ _ _ _ Ha1) in Ha2.
  apply matches_nil in Hm2. subst K'.
  destruct (body st1) as [r st6]; cbn [fst snd] in *.
  destruct (log_access_exit_appended sh array_name index held
              (last (_call_stack (logger st))) st6)
    as (st7 & Hexit & Ha3); [by eapply held_ok_appended |].
  rewrite Hexit. cbn [fst snd]. exists [(array_name, index)].
  split; [| apply matches_refl].
  assert (Hvalid : ∀ c0, last (_call_stack (logger st)) = Some c0 →
                         (c0 < length (call_log (logger st)))%nat)
    by (intros c0; by apply stack_top_valid).
  pose proof (appended_trans sh _ _ _ _ _ _ _ _ Hvalid Ha1 Ha2) as H12.
  pose proof (appended_trans sh _ _ _ _ _ _ _ _ Hvalid H12 Ha3) as H13.
  cbn in H13. by rewrite andb_true_r in H13.
Qed.

(** A computation under [new_context]: its accesses go to the new call
    record, which is left complete in the log. *)
Lemma traced_new_context {A} (sh : list (string * LLLClass * nat))
    (array_name : string) (index : Z) (body : M A) (KE : list (string * Z)) :
  traced sh KE body →
  (∀ e r, call_key r = (array_name, index) → matches e (access_keys r) KE →
          record_ok sh e r) →
  traced sh [] (new_context array_name index body).
Proof.
  intros Hb Hrec st Hsh Hok. unfold new_context, bind.
  rewrite new_context_enter_run. unfold try_finally.
  set (c := length (call_log (logger st))).
  set (rec0 := CallRecord.mk array_name index (_time (logger st) + 1) None []).
  set (st2 := mkState _ _).
  assert (Hlog2 : call_log (logger st2) = call_log (logger st) ++ [rec0]) by done.
  assert (Hstack2 : _call_stack (logger st2) = _call_stack (logger st) ++ [c]) by done.
  destruct (Hb st2) as (K' & Ha & Hm).
  { done. }
  { unfold stack_ok. rewrite Hstack2, Hlog2, length_app. cbn [length].
    apply Forall_app. split.
    - eapply Forall_impl; [exact Hok |]. intros c0 Hc0. cbn in Hc0. lia.
    - apply Forall_singleton. subst c. lia. }
  rewrite Hstack2, last_snoc in Ha.
  destruct (body st2) as [r st4]; cbn [fst snd] in *.
  destruct Ha as [S4 Sh4 O4 N4].
  destruct (O4 c rec0) as (r4 & Hr4 & Hk4 & Hacc4).
  { rewrite Hlog2. rewrite lookup_app_r by (subst c; lia).
    by rewrite Nat.sub_diag. }
  rewrite decide_True in Hacc4 by done. cbn in Hacc4.
  rewrite (new_context_exit_run c r4 (_call_stack (logger st)) st4)
    by (by rewrite ?S4).
  cbn [fst snd]. exists []. split; [| apply matches_refl].
  split; proj.
  - done.
  - unfold heap_shape in *. proj. by rewrite Sh4.
  - intros c' r0 Hr0.
    pose proof (lookup_lt_Some _ _ _ Hr0) as Hlt.
    destruct (O4 c' r0) as (r' & Hr' & Hk' & Hacc').
    { rewrite Hlog2. by apply lookup_app_l_Some. }
    rewrite decide_False in Hacc' by (intros [= Heq]; unfold c in Heq; lia).
    exists r'. rewrite list_lookup_insert_ne by (subst c; lia).
    split; [done |]. split; [done |].
    rewrite Hacc'. by destruct (decide _).
  - intros c' r5 Hle Hr5. destruct (decide (c' = c)) as [-> | Hne].
    + rewrite list_lookup_insert_eq in Hr5 by (by eapply lookup_lt_Some).
      injection Hr5 as <-. apply Hrec; [exact Hk4 |].
      unfold access_keys. cbn. fold (access_keys r4). by rewrite Hacc4.
    + rewrite list_lookup_insert_ne in Hr5 by done.
      apply (N4 c'); [| done]. rewrite Hlog2, length_app. cbn. subst c. lia.
Qed.

Lemma deref_shape (sh : list (string * LLLClass * nat)) (self : nat) (st : State) :
  heap_shape st = sh →
  (deref self st).2 = st ∧
  ∀ arr, (deref self st).1 = Ok arr → sh !! self = Some (shape_of arr).
Proof.
  intros Hsh. split; [apply deref_heap |]. intros arr.
  destruct (deref self st) as [[arr' | e] st'] eqn:Hd; [| done].
  cbn. intros [= ->]. apply deref_Ok_inv in Hd as [_ Harr].
  rewrite <- Hsh. unfold heap_shape. by rewrite list_lookup_fmap, Harr.
Qed.

Lemma len_shape (sh : list (string * LLLClass * nat)) (self : nat) (st : State)
    (nm : string) (cls : LLLClass) (n : nat) :
  heap_shape st = sh → sh !! self = Some (nm, cls, n) →
  (len self st).2 = st ∧ ∀ x, (len self st).1 = Ok x → x = Z.of_nat n.
Proof.
  intros Hsh Hs. destruct (deref_shape sh self st Hsh) as [H1 H2].
  unfold len, bind. destruct (deref self st) as [[arr | e] st'];
    cbn [fst snd] in *; subst st'; [| done].
  split; [done |]. intros x [= <-]. specialize (H2 arr eq_refl).
  rewrite Hs in H2. by injection H2 as _ _ ->.
Qed.

Lemma len_state (self : nat) (st : State) : (len self st).2 = st.
Proof.
  unfold len, bind. pose proof (deref_heap self st) as H.
  by destruct (deref self st) as [[arr | e] st'].
Qed.

Lemma traced_list_getitem {A} (sh : list (string * LLLClass * nat))
    (l : list A) (i : Z) :
  traced sh [] (list_getitem l i).
Proof. apply traced_pure. intros st. apply list_getitem_state. Qed.

Lemma traced_compute_value_loop (sh : list (string * LLLClass * nat))
    (read : Z → M Z) (source : nat) (lift : LiftingStage) (index : Z)
    (nm : string) (cls : LLLClass) (n : nat) :
  sh !! source = Some (nm, cls, n) →
  (∀ pos, traced sh [(nm, pos)] (read pos)) →
  ∀ range sum,
    traced sh
      ((λ i, (nm, clamp_pos (LiftingStage.lift_type lift) (Z.of_nat n)
                    (index + 2 * i - 1))) <$> range)
      (compute_value_loop read source lift index range sum).
Proof.
  intros Hs Hread range.
  induction range as [| i range IH]; intros sum;
    cbn [compute_value_loop fmap list_fmap]; [apply traced_ret |].
  apply (traced_bind_pure sh _ _ _ (λ x, x = Z.of_nat n)).
  { intros st Hsh. by eapply len_shape. }
  intros n0 ->.
  apply (traced_bind sh [] _); [apply traced_list_getitem |]. intros tap.
  apply (traced_bind sh [_] _); [apply Hread |]. intros v. apply IH.
Qed.

Lemma traced_compute_value_loop_dangling (sh : list (string * LLLClass * nat))
    (read : Z → M Z) (source : nat) (lift : LiftingStage) (index : Z) :
  (∀ pos, traced sh [] (read pos)) →
  ∀ range sum, traced sh [] (compute_value_loop read source lift index range sum).
Proof.
  intros Hread range.
  induction range as [| i range IH]; intros sum;
    cbn [compute_value_loop]; [apply traced_ret |].
  apply (traced_bind sh [] []); [apply traced_pure, len_state |]. intros n0.
  apply (traced_bind sh [] []); [apply traced_list_getitem |]. intros tap.
  apply (traced_bind sh [] []); [apply Hread |]. intros v. apply IH.
Qed.

Lemma traced_compute_value (sh : list (string * LLLClass * nat))
    (read : nat → Z → M Z) (self : nat) (index : Z)
    (nm : string) (cls : LLLClass) (n : nat) :
  sh !! self = Some (nm, cls, n) →
  (∀ b pos, traced sh (read_key sh b pos) (read b pos)) →
  traced sh (expected_reads sh cls index) (compute_value read self index).
Proof.
  intros Ha Hread. unfold compute_value.
  apply (traced_bind_pure sh _ _ _ (λ arr, class_of arr = cls)).
  { intros st Hsh. destruct (deref_shape sh self st Hsh) as [H1 H2].
    split; [done |]. intros arr Harr. specialize (H2 arr Harr).
    rewrite Ha in H2. by injection H2 as _ -> _. }
  clear Ha. intros arr <-. destruct (class_of arr) as [| source lift] eqn:Hcls;
    [apply traced_raise |].
  unfold expected_reads, LiftedLLL_compute_value.
  assert (Hshift : ∀ sum : Z,
            traced sh []
              (if bool_decide (LiftingStage.S lift < 0) then raise ValueError
               else ret (Z.shiftr sum (LiftingStage.S lift)))).
  { intros sum. destruct (bool_decide _); [apply traced_raise | apply traced_ret]. }
  destruct (sh !! source) as [[[nms clss] ns] |] eqn:Hs.
  - assert (Hr : ∀ pos, traced sh [(nms, pos)] (read source pos)).
    { intros pos. specialize (Hread source pos). unfold read_key in Hread.
      by rewrite Hs in Hread. }
    destruct (bool_decide (update_even _ = _)); [| apply Hr].
    apply traced_bind; [by eapply traced_compute_value_loop |]. intros sum.
    apply (traced_bind sh [] [_]); [apply Hshift |]. intros sum'.
    destruct (add _); (apply (traced_bind sh [_] []); [apply Hr |]); intros v;
      apply traced_ret.
  - assert (Hr : ∀ pos, traced sh [] (read source pos)).
    { intros pos. specialize (Hread source pos). unfold read_key in Hread.
      by rewrite Hs in Hread. }
    destruct (bool_decide (update_even _ = _)); [| apply Hr].
    apply (traced_bind sh [] []); [by apply traced_compute_value_loop_dangling |].
    intros sum.
    apply (traced_bind sh [] []); [apply Hshift |]. intros sum'.
    destruct (add _); (apply (traced_bind sh [] []); [apply Hr |]); intros v;
      apply traced_ret.
Qed.

Lemma traced_getitem_body (sh : list (string * LLLClass * nat))
    (read : nat → Z → M Z) (self : nat) (index : Z) :
  (∀ b pos, traced sh (read_key sh b pos) (read b pos)) →
  traced sh [] (getitem_body read self index).
Proof.
  intros Hread. unfold getitem_body.
  destruct (sh !! self) as [[[nm cls] n] |] eqn:Ha.
  - apply (traced_bind_pure sh _ _ _ (λ arr, name arr = nm)).
    { intros st Hsh. destruct (deref_shape sh self st Hsh) as [H1 H2].
      split; [done |]. intros arr Harr. specialize (H2 arr Harr).
      rewrite Ha in H2. by injection H2 as -> _ _. }
    intros arr Hnm.
    apply (traced_bind sh [] []); [apply traced_list_getitem |]. intros [v |].
    + apply traced_ret.
    + apply (traced_bind sh [] []).
      * apply (traced_new_context sh _ _ _ (expected_reads sh cls index)).
        -- by eapply traced_compute_value.
        -- intros e r [= H1 H2] Hm. exists self, cls, n.
           rewrite H1, H2, Hnm. by split.
      * intros value. apply (traced_bind sh [] []); [apply traced_set_value |].
        intros _. apply traced_ret.
  - apply (traced_bind_pure sh _ _ _ (λ _, False)); [| done].
    intros st Hsh. destruct (deref_shape sh self st Hsh) as [H1 H2].
    split; [done |]. intros arr Harr. specialize (H2 arr Harr). congruence.
Qed.

(** A read logs one access, for its array and index, in the call
    record of the computation that makes it, and each computation it
    starts lists its reads. *)
Lemma traced_getitem (sh : list (string * LLLClass * nat)) (fuel : nat) :
  ∀ self index, traced sh (read_key sh self index) (getitem fuel self index).
Proof.
  induction fuel as [| fuel IH]; intros self index; cbn [getitem].
  - apply traced_raise.
  - unfold read_key. destruct (sh !! self) as [[[nm cls] n] |] eqn:Ha.
    + apply (traced_bind_pure sh _ _ _ (λ arr, name arr = nm)).
      { intros st Hsh. destruct (deref_shape sh self st Hsh) as [H1 H2].
        split; [done |]. intros arr Harr. specialize (H2 arr Harr).
        rewrite Ha in H2. by injection H2 as -> _ _. }
      intros arr <-. apply traced_log_access. by apply traced_getitem_body.
    + apply (traced_bind_pure sh _ _ _ (λ _, False)); [| done].
      intros st Hsh. destruct (deref_shape sh self st Hsh) as [H1 H2].
      split; [done |]. intros arr Harr. specialize (H2 arr Harr). congruence.
Qed.

Lemma traced_recorded {A} (sh : list (string * LLLClass * nat))
    (K : list (string * Z)) (m : M A) :
  traced sh K m → recorded sh m.
Proof.
  intros Hm st Hsh Hstack. destruct (Hm st Hsh) as (K' & [H1 H2 H3 H4] & _).
  { unfold stack_ok. rewrite Hstack. constructor. }
  rewrite Hstack in H3. cbn [last] in H3. by split.
Qed.

Lemma recorded_ret {A} (sh : list (string * LLLClass * nat)) (x : A) :
  recorded sh (ret x).
Proof. intros st _ _. apply appended_refl. Qed.

Lemma recorded_raise {A} (sh : list (string * LLLClass * nat)) (e : PyError) :
  recorded sh (@raise A e).
Proof. intros st _ _. apply appended_refl. Qed.

Lemma recorded_pure {A} (sh : list (string * LLLClass * nat)) (m : M A) :
  (∀ st, (m st).2 = st) → recorded sh m.
Proof. intros H st _ _. rewrite H. apply appended_refl. Qed.

Lemma recorded_bind {A B} (sh : list (string * LLLClass * nat))
    (m : M A) (k : A → M B) :
  recorded sh m → (∀ x, recorded sh (k x)) → recorded sh (bind m k).
Proof.
  intros Hm Hk st Hsh Hstack. specialize (Hm st Hsh Hstack). unfold bind.
  destruct (m st) as [[x | e] st1]; cbn [fst snd is_ok] in *; [| done].
  assert (H2 : appended sh None [] (is_ok (k x st1).1) st1 (k x st1).2).
  { apply Hk.
    - by rewrite (ap_shape _ _ _ _ _ _ Hm).
    - by rewrite (ap_stack _ _ _ _ _ _ Hm). }
  by apply (appended_trans sh None [] [] true _ st st1).
Qed.

Lemma recorded_getitem (sh : list (string * LLLClass * nat)) (fuel : nat)
    (self : nat) (index : Z) :
  recorded sh (getitem fuel self index).
Proof. eapply traced_recorded, traced_getitem. Qed.

Lemma recorded_run_reads (sh : list (string * LLLClass * nat)) (fuel : nat)
    (reads : list (nat * Z)) :
  recorded sh (run_reads fuel reads).
Proof.
  induction reads as [| [a i] reads IH]; cbn [run_reads]; [apply recorded_ret |].
  apply recorded_bind; [apply recorded_getitem |]. intros v.
  apply recorded_bind; [apply IH |]. intros vs. apply recorded_ret.
Qed.

Lemma recorded_to_list (sh : list (string * LLLClass * nat)) (fuel : nat)
    (self : nat) :
  recorded sh (to_list fuel self).
Proof.
  apply recorded_bind; [apply recorded_pure, len_state |]. intros n.
  rewrite iter_loop_run_reads. apply recorded_run_reads.
Qed.

Lemma recorded_for_each {A} (sh : list (string * LLLClass * nat))
    (xs : list A) (body : A → M unit) :
  (∀ x, recorded sh (body x)) → recorded sh (for_each xs body).
Proof.
  intros Hb. induction xs as [| x xs IH]; cbn [for_each]; [apply recorded_ret |].
  apply recorded_bind; [apply Hb | by intros _].
Qed.

Lemma recorded_list_getitem {A} (sh : list (string * LLLClass * nat))
    (l : list A) (i : Z) :
  recorded sh (list_getitem l i).
Proof. apply recorded_pure. intros st. apply list_getitem_state. Qed.

Lemma recorded_dict_getitem {A} (sh : list (string * LLLClass * nat))
    (d : gmap WaveletFilters A) (key : WaveletFilters) :
  recorded sh (dict_getitem d key).
Proof.
  unfold dict_getitem. destruct (d !! key); [apply recorded_ret | apply recorded_raise].
Qed.

Lemma recorded_append_delays (sh : list (string * LLLClass * nat))
    (delays : list Z) (stages : list LiftingStage) :
  recorded sh (append_delays delays stages).
Proof.
  revert delays. induction stages as [| stage stages IH]; intros delays;
    cbn [append_delays]; [apply recorded_ret |].
  apply recorded_bind; [apply recorded_list_getitem |]. intros d. apply IH.
Qed.

Lemma recorded_access (sh : list (string * LLLClass * nat)) (order : Order)
    (fuel : nat) (arrays : list nat) (w : WaveletFilters) :
  recorded sh (access order fuel arrays w).
Proof.
  destruct order; cbn [access].
  - apply recorded_for_each. intros array.
    apply recorded_bind; [apply recorded_to_list |]. intros _. apply recorded_ret.
  - apply recorded_bind; [apply recorded_dict_getitem |]. intros stages.
    apply recorded_bind; [apply recorded_append_delays |]. intros delays.
    apply recorded_bind; [apply recorded_dict_getitem |]. intros stages'.
    apply recorded_bind; [apply recorded_append_delays |]. intros delays'.
    apply recorded_bind; [apply recorded_list_getitem |]. intros last_array.
    apply recorded_bind; [apply recorded_pure, len_state |]. intros n.
    apply recorded_bind.
    { unfold py_max. destruct delays'; [apply recorded_raise | apply recorded_ret]. }
    intros m. apply recorded_for_each. intros i.
    apply recorded_for_each. intros [delay array].
    apply recorded_bind; [apply recorded_pure, len_state |]. intros n'.
    destruct (bool_decide _); [| apply recorded_ret].
    apply recorded_bind; [apply recorded_getitem |]. intros _. apply recorded_ret.
  - apply recorded_bind; [apply recorded_list_getitem |]. intros array.
    apply recorded_bind; [apply recorded_to_list |]. intros _. apply recorded_ret.
  - apply recorded_bind; [apply recorded_dict_getitem |]. intros stages.
    apply recorded_bind; [apply recorded_list_getitem |]. intros array.
    apply recorded_bind; [apply recorded_to_list |]. intros _.
    apply recorded_bind; [apply recorded_list_getitem |]. intros array'.
    apply recorded_bind; [apply recorded_to_list |]. intros _. apply recorded_ret.
Qed.

(** X15.  The call records list the reads of the computations.  In a
    session, after any reads (any arrays and indices, whatever their
    outcomes) and after each of the four drivers, every call record is
    for an array of the chain and its access log holds, in order, the
    reads [compute_value] makes of the source for that slot: the [L]
    clamped positions when the stage updates the parity of the index,
    and then the index itself; all of them when the run returned, and
    the first of them otherwise. *)
Theorem call_records_list_the_reads (fuel : nat) (input_values : list Z)
    (w : WaveletFilters) :
  (∀ reads,
     Forall (record_ok (heap_shape (session fuel input_values w reads).2)
               (is_ok (session fuel input_values w reads).1))
            (call_log (logger (session fuel input_values w reads).2))) ∧
  (∀ order,
     Forall (record_ok
               (heap_shape
                  ((let* arrays := construct_all_arrays input_values w in
                    access order fuel arrays w) initial_state).2)
               (is_ok
                  ((let* arrays := construct_all_arrays input_values w in
                    access order fuel arrays w) initial_state).1))
            (call_log
               (logger
                  ((let* arrays := construct_all_arrays input_values w in
                    access order fuel arrays w) initial_state).2))).
Proof.
  destruct (filter_tables w) as (ana & syn & HA & HS & _ & _ & _).
  set (st0 := mkState AccessLogger_init (all_arrays input_values ana syn)).
  assert (Hall : ∀ {A} (m : M A), recorded (heap_shape st0) m →
            Forall (record_ok (heap_shape (m st0).2) (is_ok (m st0).1))
                   (call_log (logger (m st0).2))).
  { intros A m Hm. specialize (Hm st0 eq_refl eq_refl).
    rewrite (ap_shape _ _ _ _ _ _ Hm). apply Forall_lookup. intros c r Hr.
    apply (ap_new _ _ _ _ _ _ Hm c r); [cbn; lia | done]. }
  split.
  - intros reads. unfold session, bind, initial_state.
    rewrite (construct_all_arrays_run _ _ _ ana syn) by done.
    apply Hall, recorded_run_reads.
  - intros order. unfold bind, initial_state.
    rewrite (construct_all_arrays_run _ _ _ ana syn) by done.
    apply Hall, recorded_access.
Qed.

(** ** The times of the computations *)

Lemma in_window_widen (sh : list (string * LLLClass * nat)) (bound bound' : nat)
    (t0 t1 t0' t1' : Z) (hd : string * Z * Z * option Z) :
  (bound ≤ bound')%nat → t0' ≤ t0 → t1 ≤ t1' →
  in_window sh bound t0 t1 hd → in_window sh bound' t0' t1' hd.
Proof.
  intros Hb H0 H1 (Hs & (e & He & Hse & Het) & (b & cls & n & Hlt & Hb')).
  split; [lia |]. split.
  - exists e. split; [done |]. lia.
  - exists b, cls, n. split; [lia | done].
Qed.

Lemma windowed_refl (sh : list (string * LLLClass * nat)) (bound : nat) (st : State) :
  windowed sh bound st st.
Proof.
  split; try done. exists []. rewrite app_nil_r. split; [done |].
  split; [constructor |]. intros i j hi hj _ Hi. done.
Qed.

Lemma windowed_trans (sh : list (string * LLLClass * nat)) (bound : nat)
    (st1 st2 st3 : State) :
  windowed sh bound st1 st2 → windowed sh bound st2 st3 → windowed sh bound st1 st3.
Proof.
  intros [S1 Sh1 T1 (K1 & H1 & F1 & Q1)] [S2 Sh2 T2 (K2 & H2 & F2 & Q2)].
  split; [congruence | congruence | lia |].
  exists (K1 ++ K2). split; [by rewrite H2, H1, app_assoc |]. split.
  - apply Forall_app. split.
    + eapply Forall_impl; [exact F1 |]. intros hd. apply in_window_widen; lia.
    + eapply Forall_impl; [exact F2 |]. intros hd. apply in_window_widen; lia.
  - intros i j hi hj Hij Hi Hj Hnm.
    destruct (decide (j < length K1)%nat) as [Hj1 | Hj2].
    + rewrite lookup_app_l in Hi, Hj by lia. exact (Q1 i j hi hj Hij Hi Hj Hnm).
    + rewrite lookup_app_r in Hj by lia.
      destruct (decide (i < length K1)%nat) as [Hi1 | Hi2].
      * rewrite lookup_app_l in Hi by lia.
        pose proof (Forall_lookup_1 _ _ _ _ F1 Hi) as (_ & (e & He & _ & Het) & _).
        pose proof (Forall_lookup_1 _ _ _ _ F2 Hj) as (Hs & _).
        exists e. split; [done | lia].
      * rewrite lookup_app_r in Hi by lia.
        apply (Q2 _ _ hi hj) with (3 := Hj) (2 := Hi); [lia | done].
Qed.

Lemma windowed_weaken (sh : list (string * LLLClass * nat)) (bound bound' : nat)
    (st st' : State) :
  (bound ≤ bound')%nat → windowed sh bound st st' → windowed sh bound' st st'.
Proof.
  intros Hb [S1 Sh1 T1 (K & H1 & F1 & Q1)]. split; try done.
  exists K. split; [done |]. split; [| done].
  eapply Forall_impl; [exact F1 |]. intros hd. apply in_window_widen; lia.
Qed.

(** A step that keeps the stack, the shapes and the heads of the call
    records and does not turn the clock back. *)
Lemma windowed_quiet (sh : list (string * LLLClass * nat)) (bound : nat)
    (st st' : State) :
  _call_stack (logger st') = _call_stack (logger st) →
  heap_shape st' = heap_shape st →
  call_heads (logger st') = call_heads (logger st) →
  _time (logger st) ≤ _time (logger st') →
  windowed sh bound st st'.
Proof.
  intros H1 H2 H3 H4. split; try done. exists []. rewrite app_nil_r.
  split; [done |]. split; [constructor |]. intros i j hi hj _ Hi. done.
Qed.

Lemma windowed_stack_ok (sh : list (string * LLLClass * nat)) (bound : nat)
    (st st' : State) :
  windowed sh bound st st' → stack_ok (logger st) → stack_ok (logger st').
Proof.
  intros [S1 _ _ (K & H1 & _)] Hok. unfold stack_ok in *. rewrite S1.
  eapply Forall_impl; [exact Hok |]. intros c Hc. cbn in *.
  rewrite <- call_heads_length in Hc.
  rewrite <- call_heads_length, H1, length_app. lia.
Qed.

Lemma timed_weaken {A} (sh : list (string * LLLClass * nat)) (bound bound' : nat)
    (m : M A) :
  (bound ≤ bound')%nat → timed sh bound m → timed sh bound' m.
Proof. intros Hb H st Hsh Hok. eapply windowed_weaken; [exact Hb | by apply H]. Qed.

Lemma timed_pure {A} (sh : list (string * LLLClass * nat)) (bound : nat) (m : M A) :
  (∀ st, (m st).2 = st) → timed sh bound m.
Proof. intros H st _ _. rewrite H. apply windowed_refl. Qed.

Lemma timed_ret {A} (sh : list (string * LLLClass * nat)) (bound : nat) (x : A) :
  timed sh bound (ret x).
Proof. by apply timed_pure. Qed.

Lemma timed_raise {A} (sh : list (string * LLLClass * nat)) (bound : nat)
    (e : PyError) :
  timed sh bound (@raise A e).
Proof. by apply timed_pure. Qed.

Lemma timed_bind {A B} (sh : list (string * LLLClass * nat)) (bound : nat)
    (m : M A) (k : A → M B) :
  timed sh bound m → (∀ x, timed sh bound (k x)) → timed sh bound (bind m k).
Proof.
  intros Hm Hk st Hsh Hok. specialize (Hm st Hsh Hok). unfold bind.
  destruct (m st) as [[x | e] st1]; cbn [fst snd] in *; [| done].
  eapply windowed_trans; [exact Hm |]. apply Hk.
  - by rewrite (w_shape _ _ _ _ Hm).
  - by eapply windowed_stack_ok.
Qed.

Lemma timed_bind_pure {A B} (sh : list (string * LLLClass * nat)) (bound : nat)
    (m : M A) (k : A → M B) (Q : A → Prop) :
  (∀ st, heap_shape st = sh → (m st).2 = st ∧ ∀ x, (m st).1 = Ok x → Q x) →
  (∀ x, Q x → timed sh bound (k x)) →
  timed sh bound (bind m k).
Proof.
  intros Hm Hk st Hsh Hok. destruct (Hm st Hsh) as [H1 H2]. unfold bind.
  destruct (m st) as [[x | e] st1]; cbn [fst snd] in *; subst st1.
  - by apply Hk; [apply H2 | |].
  - apply windowed_refl.
Qed.

Lemma timed_set_value (sh : list (string * LLLClass * nat)) (bound : nat)
    (self : nat) (index value : Z) :
  timed sh bound (set_value self index value).
Proof.
  intros st Hsh Hok.
  pose proof (frame_shape _ _ (proj1 (framed_set_value self index value st))) as Hs.
  pose proof (set_value_logger self index value st) as Hl.
  apply windowed_quiet; rewrite ?Hl; (done || lia).
Qed.

Lemma timed_log_access {A} (sh : list (string * LLLClass * nat)) (bound : nat)
    (array_name : string) (index : Z) (body : M A) :
  framed body → timed sh bound body →
  timed sh bound (log_access array_name index body).
Proof.
  intros Hf Hb st Hsh Hok. unfold log_access, bind.
  pose proof (log_access_enter_time array_name index st) as Ht1.
  destruct (log_access_enter_ok array_name index st Hok)
    as (held & st1 & Henter & (Hh1 & Hs1 & Hc1) & Hheld).
  rewrite Henter in Ht1 |- *. cbn [snd] in Ht1. unfold try_finally.
  assert (W1 : windowed sh bound st st1).
  { apply windowed_quiet; try done; [| lia]. unfold heap_shape. by rewrite Hh1. }
  assert (W2 : windowed sh bound st1 (body st1).2).
  { apply Hb; [by rewrite (w_shape _ _ _ _ W1) | by eapply windowed_stack_ok]. }
  destruct (Hf st1) as [Hfr _].
  destruct (body st1) as [r st6]; cbn [fst snd] in *.
  pose proof (log_access_exit_time array_name index held st6) as Ht7.
  destruct (log_access_exit_ok array_name index held st6
              (held_ok_frame _ _ _ Hfr Hheld)) as (st7 & Hexit & (Hh7 & Hs7 & Hc7)).
  rewrite Hexit in Ht7 |- *. cbn [fst snd] in *.
  eapply windowed_trans; [exact W1 |]. eapply windowed_trans; [exact W2 |].
  apply windowed_quiet; try done; [| lia]. unfold heap_shape. by rewrite Hh7.
Qed.

Lemma shape_name_inj (sh : list (string * LLLClass * nat)) (a b : nat)
    (nm : string) (c1 c2 : LLLClass) (n1 n2 : nat) :
  NoDup ((λ s, s.1.1) <$> sh) →
  sh !! a = Some (nm, c1, n1) → sh !! b = Some (nm, c2, n2) → a = b.
Proof.
  intros Hnd Ha Hb. eapply NoDup_lookup; [exact Hnd | |].
  - by rewrite list_lookup_fmap, Ha.
  - by rewrite list_lookup_fmap, Hb.
Qed.

(** A computation under [new_context] of array [a]: its call record
    spans the call records of the reads it makes, which are for earlier
    arrays. *)
Lemma timed_new_context {A} (sh : list (string * LLLClass * nat)) (a : nat)
    (nm : string) (cls : LLLClass) (n : nat) (index : Z) (body : M A) :
  NoDup ((λ s, s.1.1) <$> sh) → sh !! a = Some (nm, cls, n) →
  timed sh a body → timed sh (S a) (new_context nm index body).
Proof.
  intros Hnd Ha Hb st Hsh Hok. unfold new_context, bind.
  rewrite new_context_enter_run. unfold try_finally.
  set (t := _time (logger st)). set (c := length (call_log (logger st))).
  set (rec0 := CallRecord.mk nm index (t + 1) None []).
  set (st2 := mkState _ _).
  assert (Hlog2 : call_log (logger st2) = call_log (logger st) ++ [rec0]) by done.
  assert (Hstack2 : _call_stack (logger st2) = _call_stack (logger st) ++ [c]) by done.
  assert (Htime2 : _time (logger st2) = t + 1) by done.
  assert (Hheads2 : call_heads (logger st2)
                    = call_heads (logger st) ++ [(nm, index, t + 1, None)]).
  { unfold call_heads. by rewrite Hlog2, fmap_app. }
  assert (Hc : length (call_heads (logger st)) = c) by apply call_heads_length.
  assert (W : windowed sh a st2 (body st2).2).
  { apply Hb; [done |]. unfold stack_ok. rewrite Hstack2, Hlog2, length_app.
    cbn [length]. apply Forall_app. split.
    - eapply Forall_impl; [exact Hok |]. intros c0 Hc0. cbn in Hc0. lia.
    - apply Forall_singleton. unfold c. lia. }
  destruct (body st2) as [r st4]; cbn [fst snd] in *.
  destruct W as [S4 Sh4 T4 (K' & H4 & F4 & Q4)].
  rewrite Htime2 in T4, F4. rewrite Hheads2 in H4.
  assert (Hhead : call_heads (logger st4) !! c = Some (nm, index, t + 1, None)).
  { rewrite H4, <- app_assoc. rewrite lookup_app_r by lia.
    by replace (c - length (call_heads (logger st)))%nat with 0%nat by lia. }
  unfold call_heads in Hhead. rewrite list_lookup_fmap in Hhead.
  destruct (call_log (logger st4) !! c) as [r4 |] eqn:Hr4; [| done].
  cbn in Hhead. unfold call_head in Hhead. injection Hhead as Hn4 Hi4 Hs4 He4.
  rewrite (new_context_exit_run c r4 (_call_stack (logger st)) st4)
    by (by rewrite ?S4).
  cbn [snd]. split; proj.
  - done.
  - unfold heap_shape in *. proj. by rewrite Sh4.
  - fold t. lia.
  - exists ((nm, index, t + 1, Some (_time (logger st4) + 1)) :: K'). split; [| split].
    + unfold call_heads at 1. proj. rewrite list_fmap_insert.
      fold (call_heads (logger st4)). rewrite H4, <- app_assoc.
      rewrite insert_app_r_alt by lia.
      replace (c - length (call_heads (logger st)))%nat with 0%nat by lia.
      cbn. unfold call_head. cbn. by rewrite Hn4, Hi4, Hs4.
    + fold t. constructor.
      * split; [cbn; lia |]. split.
        -- eexists. split; [done |]. cbn. lia.
        -- exists a, cls, n. split; [lia | done].
      * eapply Forall_impl; [exact F4 |]. intros hd. apply in_window_widen; lia.
    + intros i0 j hi hj Hij Hi Hj Hnm. destruct j as [| j']; [lia |].
      cbn in Hj. destruct i0 as [| i'].
      * cbn in Hi. injection Hi as <-. cbn in Hnm.
        pose proof (Forall_lookup_1 _ _ _ _ F4 Hj) as (_ & _ & (b & clsb & nb & Hb1 & Hb2)).
        rewrite <- Hnm in Hb2.
        pose proof (shape_name_inj sh a b nm _ _ _ _ Hnd Ha Hb2). lia.
      * cbn in Hi. apply (Q4 i' j' hi hj); (done || lia).
Qed.

Lemma timed_compute_value_loop (sh : list (string * LLLClass * nat)) (bound : nat)
    (read : Z → M Z) (source : nat) (lift : LiftingStage) (index : Z)
    (range : list Z) (sum : Z) :
  (∀ pos, timed sh bound (read pos)) →
  timed sh bound (compute_value_loop read source lift index range sum).
Proof.
  intros Hread. revert sum. induction range as [| i range IH]; intros sum; cbn.
  - apply timed_ret.
  - apply timed_bind; [apply timed_pure, len_state |]. intros n.
    apply timed_bind; [apply timed_pure; intros st; apply list_getitem_state |].
    intros tap. apply timed_bind; [apply Hread |]. intros v. apply IH.
Qed.

Lemma timed_fails {B} (sh : list (string * LLLClass * nat)) (bound : nat)
    (self : nat) (k : LoggingLazyList → M B) :
  sh !! self = None → timed sh bound (bind (deref self) k).
Proof.
  intros Ha. apply (timed_bind_pure sh _ _ _ (λ _, False)); [| done].
  intros st Hsh. destruct (deref_shape sh self st Hsh) as [H1 H2].
  split; [done |]. intros arr Harr. specialize (H2 arr Harr). congruence.
Qed.

Lemma timed_compute_value (sh : list (string * LLLClass * nat))
    (read : nat → Z → M Z) (self : nat) (index : Z) :
  shape_ok sh →
  (∀ b pos, timed sh (S b) (read b pos)) →
  timed sh self (compute_value read self index).
Proof.
  intros [_ Hbelow] Hread. unfold compute_value.
  destruct (sh !! self) as [[[nm cls] n] |] eqn:Ha; [| by apply timed_fails].
  apply (timed_bind_pure sh _ _ _ (λ arr, class_of arr = cls)).
  { intros st Hsh. destruct (deref_shape sh self st Hsh) as [H1 H2].
    split; [done |]. intros arr Harr. specialize (H2 arr Harr).
    rewrite Ha in H2. by injection H2 as _ -> _. }
  intros arr Hcls. rewrite Hcls. destruct cls as [| source lift]; [apply timed_raise |].
  pose proof (Hbelow self nm source lift n Ha) as Hlt.
  assert (Hr : ∀ pos, timed sh self (read source pos)).
  { intros pos. apply (timed_weaken sh (S source)); [lia | apply Hread]. }
  unfold LiftedLLL_compute_value.
  destruct (bool_decide (update_even _ = _)); [| apply Hr].
  apply timed_bind; [by apply timed_compute_value_loop |]. intros sum.
  apply timed_bind.
  { destruct (bool_decide (LiftingStage.S lift < 0));
      [apply timed_raise | apply timed_ret]. }
  intros sum'.
  destruct (add _); (apply timed_bind; [apply Hr |]); intros v; apply timed_ret.
Qed.

Lemma timed_getitem_body (sh : list (string * LLLClass * nat))
    (read : nat → Z → M Z) (self : nat) (index : Z) :
  shape_ok sh →
  (∀ b pos, timed sh (S b) (read b pos)) →
  timed sh (S self) (getitem_body read self index).
Proof.
  intros Hsh Hread. unfold getitem_body.
  destruct (sh !! self) as [[[nm cls] n] |] eqn:Ha; [| by apply timed_fails].
  apply (timed_bind_pure sh _ _ _ (λ arr, name arr = nm)).
  { intros st Hst. destruct (deref_shape sh self st Hst) as [H1 H2].
    split; [done |]. intros arr Harr. specialize (H2 arr Harr).
    rewrite Ha in H2. by injection H2 as -> _ _. }
  intros arr Hnm.
  apply timed_bind; [apply timed_pure; intros st; apply list_getitem_state |].
  intros [v |]; [apply timed_ret |].
  apply timed_bind.
  - rewrite Hnm. apply (timed_new_context sh self nm cls n); [apply Hsh | done |].
    by apply timed_compute_value.
  - intros value. apply timed_bind; [apply timed_set_value |].
    intros _. apply timed_ret.
Qed.

Lemma timed_getitem (sh : list (string * LLLClass * nat)) (fuel : nat) :
  shape_ok sh →
  ∀ self index, timed sh (S self) (getitem fuel self index).
Proof.
  intros Hsh. induction fuel as [| fuel IH]; intros self index; cbn [getitem].
  - apply timed_raise.
  - destruct (sh !! self) as [[[nm cls] n] |] eqn:Ha; [| by apply timed_fails].
    apply (timed_bind_pure sh _ _ _ (λ _, True)).
    { intros st Hst. split; [apply deref_heap | done]. }
    intros arr _. apply timed_log_access.
    + apply framed_getitem_body, framed_getitem.
    + by apply timed_getitem_body.
Qed.

Lemma timed_getitem_top (sh : list (string * LLLClass * nat)) (fuel : nat)
    (self : nat) (index : Z) :
  shape_ok sh → timed sh (length sh) (getitem fuel self index).
Proof.
  intros Hsh. destruct (decide (self < length sh)%nat) as [Hlt | Hge].
  - apply (timed_weaken sh (S self)); [lia | by apply timed_getitem].
  - destruct fuel as [| fuel]; cbn [getitem]; [apply timed_raise |].
    apply timed_fails. apply lookup_ge_None. lia.
Qed.

Lemma timed_run_reads (sh : list (string * LLLClass * nat)) (fuel : nat)
    (reads : list (nat * Z)) :
  shape_ok sh → timed sh (length sh) (run_reads fuel reads).
Proof.
  intros Hsh.
  induction reads as [| [a i] reads IH]; cbn [run_reads]; [apply timed_ret |].
  apply timed_bind; [by apply timed_getitem_top |]. intros v.
  apply timed_bind; [apply IH |]. intros vs. apply timed_ret.
Qed.

Lemma timed_to_list (sh : list (string * LLLClass * nat)) (fuel : nat) (self : nat) :
  shape_ok sh → timed sh (length sh) (to_list fuel self).
Proof.
  intros Hsh. apply timed_bind; [apply timed_pure, len_state |]. intros n.
  rewrite iter_loop_run_reads. by apply timed_run_reads.
Qed.

Lemma timed_for_each {A} (sh : list (string * LLLClass * nat)) (bound : nat)
    (xs : list A) (body : A → M unit) :
  (∀ x, timed sh bound (body x)) → timed sh bound (for_each xs body).
Proof.
  intros Hb. induction xs as [| x xs IH]; cbn [for_each]; [apply timed_ret |].
  apply timed_bind; [apply Hb | by intros _].
Qed.

Lemma timed_list_getitem {A} (sh : list (string * LLLClass * nat)) (bound : nat)
    (l : list A) (i : Z) :
  timed sh bound (list_getitem l i).
Proof. apply timed_pure. intros st. apply list_getitem_state. Qed.

Lemma timed_dict_getitem {A} (sh : list (string * LLLClass * nat)) (bound : nat)
    (d : gmap WaveletFilters A) (key : WaveletFilters) :
  timed sh bound (dict_getitem d key).
Proof.
  unfold dict_getitem. destruct (d !! key); [apply timed_ret | apply timed_raise].
Qed.

Lemma timed_append_delays (sh : list (string * LLLClass * nat)) (bound : nat)
    (delays : list Z) (stages : list LiftingStage) :
  timed sh bound (append_delays delays stages).
Proof.
  revert delays. induction stages as [| stage stages IH]; intros delays;
    cbn [append_delays]; [apply timed_ret |].
  apply timed_bind; [apply timed_list_getitem |]. intros d. apply IH.
Qed.

Lemma timed_access (sh : list (string * LLLClass * nat)) (order : Order)
    (fuel : nat) (arrays : list nat) (w : WaveletFilters) :
  shape_ok sh → timed sh (length sh) (access order fuel arrays w).
Proof.
  intros Hsh. destruct order; cbn [access].
  - apply timed_for_each. intros array.
    apply timed_bind; [by apply timed_to_list |]. intros _. apply timed_ret.
  - apply timed_bind; [apply timed_dict_getitem |]. intros stages.
    apply timed_bind; [apply timed_append_delays |]. intros delays.
    apply timed_bind; [apply timed_dict_getitem |]. intros stages'.
    apply timed_bind; [apply timed_append_delays |]. intros delays'.
    apply timed_bind; [apply timed_list_getitem |]. intros last_array.
    apply timed_bind; [apply timed_pure, len_state |]. intros n.
    apply timed_bind.
    { unfold py_max. destruct delays'; [apply timed_raise | apply timed_ret]. }
    intros m. apply timed_for_each. intros i.
    apply timed_for_each. intros [delay array].
    apply timed_bind; [apply timed_pure, len_state |]. intros n'.
    destruct (bool_decide _); [| apply timed_ret].
    apply timed_bind; [by apply timed_getitem_top |]. intros _. apply timed_ret.
  - apply timed_bind; [apply timed_list_getitem |]. intros array.
    apply timed_bind; [by apply timed_to_list |]. intros _. apply timed_ret.
  - apply timed_bind; [apply timed_dict_getitem |]. intros stages.
    apply timed_bind; [apply timed_list_getitem |]. intros array.
    apply timed_bind; [by apply timed_to_list |]. intros _.
    apply timed_bind; [apply timed_list_getitem |]. intros array'.
    apply timed_bind; [by apply timed_to_list |]. intros _. apply timed_ret.
Qed.

Lemma all_arrays_shape_ok (w : WaveletFilters) (input_values : list Z)
    (analysis synthesis : list LiftingStage) :
  ANALYSIS_FILTERS !! w = Some analysis →
  SYNTHESIS_FILTERS !! w = Some synthesis →
  shape_ok (shape_of <$> all_arrays input_values analysis synthesis).
Proof.
  intros HA HS. split.
  - rewrite <- list_fmap_compose.
    by apply (all_arrays_names_NoDup w).
  - intros b nm s lift n Hb. rewrite list_lookup_fmap in Hb.
    destruct (all_arrays input_values analysis synthesis !! b) as [arr |] eqn:Harr;
      [| done].
    cbn in Hb. injection Hb as _ Hcls _.
    pose proof (all_arrays_shape input_values analysis synthesis)
      as (Hlen0 & (nm0 & Hbase) & Hlift).
    destruct b as [| k].
    + rewrite Hbase in Harr. injection Harr as <-. done.
    + destruct (lookup_lt_is_Some_2 (analysis ++ synthesis) k) as [stage Hstage];
        [apply lookup_lt_Some in Harr; lia |].
      destruct (Hlift k stage Hstage) as (arr' & Ha' & Hc' & _).
      rewrite Ha' in Harr. injection Harr as <-.
      rewrite Hc' in Hcls. injection Hcls as -> _. lia.
Qed.

(** X16.  No two computations of slots of the same array overlap in
    time.  In a session, after any reads (any arrays and indices,
    whatever their outcomes) and after each of the four drivers, of two
    call records for the same array the earlier of the log has ended
    before the later starts: at any time at most one computation per
    array is in progress. *)
Theorem computations_of_an_array_never_overlap (fuel : nat)
    (input_values : list Z) (w : WaveletFilters) :
  (∀ reads, never_overlap (logger (session fuel input_values w reads).2)) ∧
  (∀ order,
     never_overlap
       (logger ((let* arrays := construct_all_arrays input_values w in
                 access order fuel arrays w) initial_state).2)).
Proof.
  destruct (filter_tables w) as (ana & syn & HA & HS & _ & _ & _).
  set (st0 := mkState AccessLogger_init (all_arrays input_values ana syn)).
  pose proof (all_arrays_shape_ok w input_values ana syn HA HS) as Hsh.
  assert (Hall : ∀ {A} (m : M A),
            timed (heap_shape st0) (length (heap_shape st0)) m →
            never_overlap (logger (m st0).2)).
  { intros A m Hm. destruct (Hm st0 eq_refl) as [_ _ _ (K & HK & _ & Hseq)].
    { unfold stack_ok. cbn. constructor. }
    cbn in HK. intros c1 c2 r1 r2 Hlt H1 H2 Hnm.
    destruct (Hseq c1 c2 (call_head r1) (call_head r2) Hlt) as (e & He & Hlt').
    - rewrite <- HK. unfold call_heads. by rewrite list_lookup_fmap, H1.
    - rewrite <- HK. unfold call_heads. by rewrite list_lookup_fmap, H2.
    - done.
    - by exists e. }
  split.
  - intros reads. unfold session, bind, initial_state.
    rewrite (construct_all_arrays_run _ _ _ ana syn) by done.
    apply Hall. by apply timed_run_reads.
  - intros order. unfold bind, initial_state.
    rewrite (construct_all_arrays_run _ _ _ ana syn) by done.
    apply Hall. by apply timed_access.
Qed.

(** ** The store the drivers leave *)

(** X17.  The four computation orders leave the same store: on an
    input of two values or more, whichever two drivers are run on
    fresh chains over the same input, every array of the chain ends
    with the same values, all resolved, not the output array only. *)
Theorem all_orders_leave_the_same_store (fuel : nat) (order1 order2 : Order)
    (input_values : list Z) (w : WaveletFilters) :
  (2 ≤ length input_values)%nat →
  (length (chain_stages w) < fuel)%nat →
  heap ((let* arrays := construct_all_arrays input_values w in
         access order1 fuel arrays w) initial_state).2
  = heap ((let* arrays := construct_all_arrays input_values w in
           access order2 fuel arrays w) initial_state).2.
Proof.
  intros Hn Hfuel.
  destruct (access_final_state fuel order1 input_values w Hn Hfuel)
    as (st1 & ana & syn & -> & HA & HS & Hst & HI1 & Hf1 & Hres1).
  destruct (access_final_state fuel order2 input_values w Hn Hfuel)
    as (st2 & ana' & syn' & -> & HA' & HS' & _ & HI2 & Hf2 & Hres2).
  rewrite HA in HA'. injection HA' as <-. rewrite HS in HS'. injection HS' as <-.
  cbn [snd]. set (D := chain_table input_values (chain_stages w)) in *.
  assert (HD : length D = S (length (chain_stages w))) by apply chain_table_length.
  apply list_eq. intros a.
  destruct (heap st1 !! a) as [arr1 |] eqn:H1.
  - destruct (heap_shape_lookup _ _ a arr1 (eq_sym (frame_shape _ _ Hf1)) H1)
      as (arr0 & H0 & Hn0 & Hc0).
    destruct (heap_shape_lookup _ st2 a arr0 (frame_shape _ _ Hf2) H0)
      as (arr2 & H2 & Hn2 & Hc2).
    rewrite H2. f_equal.
    pose proof (lookup_lt_Some _ _ _ H1) as Ha.
    assert (Ha' : (a ≤ length (chain_stages w))%nat).
    { destruct HI1 as ((Hl & _) & _). lia. }
    destruct (lookup_lt_is_Some_2 D a) as [d Hd]; [lia |].
    destruct (Inv_lookup D st1 a d HI1 Hd) as (arr1' & H1' & Hl1 & _).
    destruct (Inv_lookup D st2 a d HI2 Hd) as (arr2' & H2' & Hl2 & _).
    rewrite H1 in H1'. injection H1' as <-. rewrite H2 in H2'. injection H2' as <-.
    pose proof (Forall_lookup_1 _ _ _ _ (chain_table_lengths _ _) Hd) as Hdl.
    cbn in Hdl.
    assert (Hv : _values arr1 = _values arr2).
    { apply list_eq. intros j.
      destruct (decide (j < length input_values)%nat) as [Hj | Hj].
      - destruct (Hres1 a j Ha' Hj) as [v1 Hv1]. destruct (Hres2 a j Ha' Hj) as [v2 Hv2].
        pose proof (slot_table D st1 a j v1 HI1 Hv1) as E1.
        pose proof (slot_table D st2 a j v2 HI2 Hv2) as E2.
        unfold slot in Hv1, Hv2. rewrite H1 in Hv1. rewrite H2 in Hv2.
        cbn in Hv1, Hv2.
        destruct (_values arr1 !! j) as [[u1 |] |]; cbn in Hv1; [| done | done].
        destruct (_values arr2 !! j) as [[u2 |] |]; cbn in Hv2; [| done | done].
        congruence.
      - rewrite !lookup_ge_None_2; [done | lia | lia]. }
    destruct arr1, arr2. cbn in *. congruence.
  - apply lookup_ge_None in H1. symmetry. apply lookup_ge_None.
    destruct HI1 as ((Hl1 & _) & _). destruct HI2 as ((Hl2 & _) & _). lia.
Qed.

Lemma all_orders_leave_the_same_store_witness :
  heap ((let* arrays := construct_all_arrays [1; 2; 3; 4] le_gall_5_3 in
         access lazy 10 arrays le_gall_5_3) initial_state).2
  = heap ((let* arrays := construct_all_arrays [1; 2; 3; 4] le_gall_5_3 in
           access chained 10 arrays le_gall_5_3) initial_state).2.
Proof.
  apply (all_orders_leave_the_same_store 10 lazy chained [1; 2; 3; 4] le_gall_5_3).
  - cbn. lia.
  - vm_compute. lia.
Defined.

(** ** The ticks of the clock *)

Lemma sum_list_with_insert {A} (f : A → nat) (l : list A) (i : nat) (x y : A) :
  l !! i = Some x →
  (sum_list_with f (<[i := y]> l) + f x = sum_list_with f l + f y)%nat.
Proof.
  revert i. induction l as [| z l IH]; intros i Hi; [done |].
  destruct i as [| i].
  - cbn in Hi. injection Hi as ->. cbn. lia.
  - change (<[S i := y]> (z :: l)) with (z :: <[i := y]> l).
    cbn [sum_list_with]. specialize (IH i Hi). lia.
Qed.

Lemma frame_stack_ok (st st' : State) :
  frame st st' → stack_ok (logger st) → stack_ok (logger st').
Proof.
  intros Hf Hok. pose proof (frame_log_length _ _ Hf) as Hle.
  unfold stack_ok in *. rewrite (frame_stack _ _ Hf).
  eapply Forall_impl; [exact Hok |]. intros c Hc. cbn in Hc. lia.
Qed.

Lemma neutral_balanced {A} (m : M A) : neutral m → balanced m.
Proof. intros H st Hok _. by apply H. Qed.

Lemma neutral_pure {A} (m : M A) : (∀ st, (m st).2 = st) → neutral m.
Proof. intros H st _. by rewrite H. Qed.

Lemma neutral_bind {A B} (m : M A) (k : A → M B) :
  framed m → neutral m → (∀ x, neutral (k x)) → neutral (bind m k).
Proof.
  intros Hf Hm Hk st Hok. specialize (Hm st Hok). destruct (Hf st) as [Hfr _].
  unfold bind. destruct (m st) as [[x | e] st1]; cbn [fst snd] in *; [| done].
  rewrite <- Hm. apply Hk. by eapply frame_stack_ok.
Qed.

Lemma balanced_bind {A B} (m : M A) (k : A → M B) :
  framed m → balanced m → (∀ x, balanced (k x)) → balanced (bind m k).
Proof.
  intros Hf Hm Hk st Hok Hne. specialize (Hm st Hok Hne).
  destruct (Hf st) as [Hfr _].
  unfold bind. destruct (m st) as [[x | e] st1]; cbn [fst snd] in *; [| done].
  rewrite <- Hm. apply Hk; [by eapply frame_stack_ok |].
  by rewrite (frame_stack _ _ Hfr).
Qed.

Lemma neutral_set_value (self : nat) (index value : Z) :
  neutral (set_value self index value).
Proof. intros st _. by rewrite set_value_logger. Qed.

(** A computation under [new_context]: one tick before, one after,
    and one call record. *)
Lemma neutral_new_context {A} (array_name : string) (index : Z) (body : M A) :
  framed body → balanced body → neutral (new_context array_name index body).
Proof.
  intros Hf Hb st Hok. unfold new_context, bind.
  rewrite new_context_enter_run. unfold try_finally.
  set (c := length (call_log (logger st))).
  set (rec0 := CallRecord.mk array_name index (_time (logger st) + 1) None []).
  set (st2 := mkState _ _).
  assert (Hlog2 : call_log (logger st2) = call_log (logger st) ++ [rec0]) by done.
  assert (Hstack2 : _call_stack (logger st2) = _call_stack (logger st) ++ [c]) by done.
  assert (Hok2 : stack_ok (logger st2)).
  { unfold stack_ok. rewrite Hstack2, Hlog2, length_app. cbn [length].
    apply Forall_app. split.
    - eapply Forall_impl; [exact Hok |]. intros c0 Hc0. cbn in Hc0. lia.
    - apply Forall_singleton. unfold c. lia. }
  assert (H2 : clock_surplus (logger st2) = clock_surplus (logger st) - 1).
  { unfold clock_surplus, accesses_logged. rewrite Hlog2.
    rewrite sum_list_with_app, length_app. subst st2. proj. cbn. lia. }
  assert (H4 : clock_surplus (logger (body st2).2) = clock_surplus (logger st2)).
  { apply Hb; [done |]. rewrite Hstack2. by destruct (_call_stack (logger st)). }
  destruct (Hf st2) as [Hfr _].
  destruct (body st2) as [r st4]; cbn [fst snd] in *.
  pose proof (frame_log_length _ _ Hfr) as Hlen4.
  rewrite Hlog2, length_app in Hlen4. cbn [length] in Hlen4.
  destruct (lookup_lt_is_Some_2 (call_log (logger st4)) c) as [r4 Hr4];
    [unfold c; lia |].
  rewrite (new_context_exit_run c r4 (_call_stack (logger st)) st4)
    by (by rewrite ?(frame_stack _ _ Hfr)).
  cbn [snd]. rewrite <- (Z.sub_add 1 (clock_surplus (logger st))), <- H2, <- H4.
  unfold clock_surplus, accesses_logged. proj. rewrite length_insert.
  pose proof (sum_list_with_insert (λ r, length (CallRecord.access_log r))
                (call_log (logger st4)) c r4
                (CallRecord.mk (CallRecord.array_name r4) (CallRecord.index r4)
                   (CallRecord.start_time r4) (Some (_time (logger st4) + 1))
                   (CallRecord.access_log r4)) Hr4) as Hsum.
  cbn in Hsum. lia.
Qed.

Lemma log_access_enter_surplus (array_name : string) (index : Z) (st : State) :
  stack_ok (logger st) →
  clock_surplus (logger (log_access_enter array_name index st).2)
  = clock_surplus (logger st)
    + (if decide (_call_stack (logger st) = []) then 1 else -1).
Proof.
  intros Hok.
  cbv [log_access_enter time call_record_append_access call_record_deref
       set_call_log bind ret raise get_logger put_logger].
  destruct st as [[t stack log first lst] h]. unfold stack_ok in Hok. proj_in Hok. proj.
  destruct (last stack) as [top |] eqn:Htop; proj.
  - assert (Hlt : (top < length log)%nat).
    { apply last_Some in Htop as [l' ->]. apply Forall_app in Hok as [_ Hok].
      by apply (Forall_singleton (λ c : nat, (c < length log)%nat)) in Hok. }
    destruct (lookup_lt_is_Some_2 log top Hlt) as [r Hr]. rewrite Hr. proj.
    rewrite decide_False by (intros ->; done).
    unfold clock_surplus, accesses_logged. proj. rewrite length_insert.
    pose proof (sum_list_with_insert (λ r, length (CallRecord.access_log r))
                  log top r
                  (CallRecord.mk (CallRecord.array_name r) (CallRecord.index r)
                     (CallRecord.start_time r) (CallRecord.end_time r)
                     (CallRecord.access_log r
                        ++ [AccessRecord.mk array_name index (t + 1) None])) Hr)
      as Hsum.
    cbn in Hsum. rewrite length_app in Hsum. cbn in Hsum. lia.
  - apply last_None in Htop as ->. rewrite decide_True by done.
    unfold clock_surplus, accesses_logged. proj. lia.
Qed.

Lemma log_access_exit_surplus (array_name : string) (index : Z)
    (held : option (nat * nat)) (st : State) :
  held_ok held st →
  clock_surplus (logger (log_access_exit array_name index held st).2)
  = clock_surplus (logger st) + 1.
Proof.
  intros Hh.
  cbv [log_access_exit time access_record_set_end_time call_record_deref
       set_call_log bind ret raise get_logger put_logger].
  destruct st as [[t stack log first lst] h]. proj.
  destruct held as [[c0 p] |]; proj.
  - destruct Hh as (n & Hn & Hp). unfold access_lens in Hn. proj_in Hn.
    rewrite list_lookup_fmap in Hn.
    destruct (log !! c0) as [r |] eqn:Hr; [| done]. cbn in Hn. simplify_eq. proj.
    destruct (lookup_lt_is_Some_2 (CallRecord.access_log r) p Hp) as [acc Hacc].
    rewrite Hacc. proj.
    unfold clock_surplus, accesses_logged. proj. rewrite length_insert.
    pose proof (sum_list_with_insert (λ r, length (CallRecord.access_log r))
                  log c0 r
                  (CallRecord.mk (CallRecord.array_name r) (CallRecord.index r)
                     (CallRecord.start_time r) (CallRecord.end_time r)
                     (<[p := AccessRecord.mk (AccessRecord.array_name acc)
                              (AccessRecord.index acc)
                              (AccessRecord.start_time acc) (Some (t + 1))]>
                        (CallRecord.access_log r))) Hr) as Hsum.
    cbn in Hsum. rewrite length_insert in Hsum. lia.
  - unfold clock_surplus, accesses_logged. proj. lia.
Qed.

(** A read costs two ticks and, inside a computation, leaves one
    access record. *)
Lemma log_access_surplus {A} (array_name : string) (index : Z) (body : M A)
    (st : State) :
  framed body → neutral body → stack_ok (logger st) →
  clock_surplus (logger (log_access array_name index body st).2)
  = clock_surplus (logger st)
    + (if decide (_call_stack (logger st) = []) then 2 else 0).
Proof.
  intros Hf Hb Hok. unfold log_access, bind.
  pose proof (log_access_enter_surplus array_name index st Hok) as H1.
  destruct (log_access_enter_ok array_name index st Hok)
    as (held & st1 & Henter & Hq1 & Hheld).
  pose proof (framed_log_access_enter array_name index st) as [Hf1 _].
  rewrite Henter in H1, Hf1 |- *. cbn [snd] in H1, Hf1. unfold try_finally.
  pose proof (Hb st1 (frame_stack_ok _ _ Hf1 Hok)) as H2.
  destruct (Hf st1) as [Hfr _].
  destruct (body st1) as [r st6]; cbn [fst snd] in *.
  pose proof (log_access_exit_surplus array_name index held st6
                (held_ok_frame _ _ _ Hfr Hheld)) as H3.
  destruct (log_access_exit_ok array_name index held st6
              (held_ok_frame _ _ _ Hfr Hheld)) as (st7 & Hexit & _).
  rewrite Hexit in H3 |- *. cbn [fst snd] in *.
  rewrite H3, H2, H1. destruct (decide _); lia.
Qed.

Lemma balanced_compute_value_loop (read : Z → M Z) (source : nat)
    (lift : LiftingStage) (index : Z) (range : list Z) (sum : Z) :
  (∀ pos, framed (read pos)) → (∀ pos, balanced (read pos)) →
  balanced (compute_value_loop read source lift index range sum).
Proof.
  intros Hf Hread. revert sum. induction range as [| i range IH]; intros sum; cbn.
  - by apply neutral_balanced, neutral_pure.
  - apply balanced_bind; [apply framed_len | apply neutral_balanced, neutral_pure, len_state |].
    intros n.
    apply balanced_bind; [apply framed_list_getitem | |].
    { apply neutral_balanced, neutral_pure. intros st. apply list_getitem_state. }
    intros tap. apply balanced_bind; [apply Hf | apply Hread |]. intros v. apply IH.
Qed.

Lemma balanced_compute_value (read : nat → Z → M Z) (self : nat) (index : Z) :
  (∀ b pos, framed (read b pos)) → (∀ b pos, balanced (read b pos)) →
  balanced (compute_value read self index).
Proof.
  intros Hf Hread. unfold compute_value.
  apply balanced_bind;
    [apply framed_deref | apply neutral_balanced, neutral_pure, deref_heap |].
  intros arr. destruct (class_of arr) as [| source lift];
    [by apply neutral_balanced, neutral_pure |].
  unfold LiftedLLL_compute_value.
  destruct (bool_decide (update_even _ = _)); [| apply Hread].
  apply balanced_bind; [by apply framed_compute_value_loop
                       | by apply balanced_compute_value_loop |].
  intros sum. apply balanced_bind.
  { destruct (bool_decide (LiftingStage.S lift < 0));
      [by apply framed_raise | apply framed_ret]. }
  { destruct (bool_decide (LiftingStage.S lift < 0));
      by apply neutral_balanced, neutral_pure. }
  intros sum'.
  destruct (add _); (apply balanced_bind; [apply Hf | apply Hread |]); intros v;
    by apply neutral_balanced, neutral_pure.
Qed.

Lemma neutral_getitem_body (read : nat → Z → M Z) (self : nat) (index : Z) :
  (∀ b pos, framed (read b pos)) → (∀ b pos, balanced (read b pos)) →
  neutral (getitem_body read self index).
Proof.
  intros Hf Hread. unfold getitem_body.
  apply neutral_bind; [apply framed_deref | apply neutral_pure, deref_heap |].
  intros arr. apply neutral_bind; [apply framed_list_getitem | |].
  { apply neutral_pure. intros st. apply list_getitem_state. }
  intros [v |]; [by apply neutral_pure |].
  apply neutral_bind.
  - apply framed_new_context. by apply framed_compute_value.
  - apply neutral_new_context; [by apply framed_compute_value |].
    by apply balanced_compute_value.
  - intros value. apply neutral_bind; [apply framed_set_value | apply neutral_set_value |].
    intros _. by apply neutral_pure.
Qed.

Lemma balanced_getitem (fuel : nat) :
  ∀ self index, balanced (getitem fuel self index).
Proof.
  induction fuel as [| fuel IH]; intros self index; cbn [getitem].
  - by apply neutral_balanced, neutral_pure.
  - apply balanced_bind;
      [apply framed_deref | apply neutral_balanced, neutral_pure, deref_heap |].
    intros arr st Hok Hne.
    rewrite log_access_surplus; [| | | done].
    + rewrite decide_False by done. lia.
    + apply framed_getitem_body, framed_getitem.
    + apply neutral_getitem_body; [apply framed_getitem | exact IH].
Qed.

Lemma getitem_surplus (fuel : nat) (a : nat) (i : Z) (st : State)
    (arr : LoggingLazyList) :
  stack_ok (logger st) → heap st !! a = Some arr →
  clock_surplus (logger (getitem (S fuel) a i st).2)
  = clock_surplus (logger st)
    + (if decide (_call_stack (logger st) = []) then 2 else 0).
Proof.
  intros Hok Harr. cbn [getitem]. unfold bind. rewrite (deref_run _ _ _ Harr).
  apply log_access_surplus; [| | done].
  - apply framed_getitem_body, framed_getitem.
  - apply neutral_getitem_body; [apply framed_getitem | apply balanced_getitem].
Qed.

(** X18.  The clock accounts for every record.  A read of an array of
    the store, from any state with a sound call stack and whatever its
    outcome, advances the clock by two ticks for itself, two for each
    call record it adds and two for each access record its
    computations log; its own two ticks are matched by an access
    record when it is made inside a computation, and by none when it is
    made from outside. *)
Theorem clock_accounts_for_records (fuel : nat) (a : nat) (i : Z) (st : State)
    (arr : LoggingLazyList) :
  stack_ok (logger st) → heap st !! a = Some arr →
  clock_surplus (logger (getitem (S fuel) a i st).2)
  = clock_surplus (logger st)
    + (if decide (_call_stack (logger st) = []) then 2 else 0).
Proof. apply getitem_surplus. Qed.

Lemma clock_accounts_for_records_witness :
  clock_surplus
    (logger (getitem 10 4 1 (session 10 [1; 2; 3; 4] le_gall_5_3 [(2%nat, 0)]).2).2)
  = clock_surplus (logger (session 10 [1; 2; 3; 4] le_gall_5_3 [(2%nat, 0)]).2)
    + (if decide (_call_stack
                    (logger (session 10 [1; 2; 3; 4] le_gall_5_3 [(2%nat, 0)]).2) = [])
       then 2 else 0).
Proof.
  apply (clock_accounts_for_records 9 4 1
           (session 10 [1; 2; 3; 4] le_gall_5_3 [(2%nat, 0)]).2
           (mkLLL "Decoder Output" [None; None; None; None]
              (LiftedLLL 3 (mkLiftingStage odd_add_even 1 2 0 [1; 1])))).
  - vm_compute. constructor.
  - reflexivity.
Defined.

Lemma run_reads_surplus (fuel : nat) (reads : list (nat * Z)) :
  ∀ st vs st', _call_stack (logger st) = [] →
    run_reads fuel reads st = (Ok vs, st') →
    clock_surplus (logger st')
    = clock_surplus (logger st) + 2 * Z.of_nat (length reads).
Proof.
  induction reads as [| [a i] reads IH]; intros st vs st' Hstack H.
  - cbn in H. injection H as _ <-. cbn. lia.
  - cbn [run_reads] in H.
    apply bind_Ok_inv in H as (v & st1 & H1 & H).
    apply bind_Ok_inv in H as (vs' & st2 & H2 & H).
    cbv [ret] in H. injection H as _ <-.
    destruct fuel as [| fuel]; [done |].
    pose proof (framed_getitem (S fuel) a i st) as [Hfr _].
    pose proof H1 as H1'. cbn [getitem] in H1'.
    apply bind_Ok_inv in H1' as (arr & st0 & Hd & _).
    apply deref_Ok_inv in Hd as [_ Harr].
    pose proof (getitem_surplus fuel a i st arr) as Hs.
    rewrite H1 in Hfr, Hs. cbn [snd] in Hfr, Hs.
    rewrite (IH st1 vs' st2); [| by rewrite (frame_stack _ _ Hfr) | done].
    rewrite Hs; [| unfold stack_ok; rewrite Hstack; constructor | done].
    rewrite decide_True by done. cbn [length]. lia.
Qed.

(** X19.  The clock of a session.  When the reads of a session have
    all returned, the clock stands at twice the number of reads made
    from outside, plus two ticks for each call record and two for each
    access record of the call log. *)
Theorem session_clock (fuel : nat) (input_values : list Z) (w : WaveletFilters)
    (reads : list (nat * Z)) (vs : list Z) :
  (session fuel input_values w reads).1 = Ok vs →
  _time (logger (session fuel input_values w reads).2)
  = 2 * (Z.of_nat (length reads)
         + Z.of_nat (length (call_log (logger (session fuel input_values w reads).2)))
         + Z.of_nat (accesses_logged (logger (session fuel input_values w reads).2))).
Proof.
  destruct (session_unfold fuel input_values w reads)
    as (ana & syn & _ & _ & _ & ->).
  set (st0 := mkState AccessLogger_init (all_arrays input_values ana syn)).
  destruct (run_reads fuel reads st0) as [r st'] eqn:Hrun. cbn [fst snd].
  intros ->.
  pose proof (run_reads_surplus fuel reads st0 vs st' eq_refl Hrun) as H.
  unfold clock_surplus in H. cbn in H. lia.
Qed.

Lemma session_clock_witness :
  _time (logger (session 10 [1; 2; 3; 4] le_gall_5_3 [(2%nat, 0); (2%nat, 1)]).2)
  = 2 * (Z.of_nat (length [(2%nat, 0); (2%nat, 1)])
         + Z.of_nat (length (call_log
             (logger (session 10 [1; 2; 3; 4] le_gall_5_3 [(2%nat, 0); (2%nat, 1)]).2)))
         + Z.of_nat (accesses_logged
             (logger (session 10 [1; 2; 3; 4] le_gall_5_3 [(2%nat, 0); (2%nat, 1)]).2))).
Proof.
  apply (session_clock 10 [1; 2; 3; 4] le_gall_5_3 [(2%nat, 0); (2%nat, 1)] [1; 0]).
  reflexivity.
Defined.

(** * Memoization *)

Lemma computations_heads (lg : AccessLogger) (nm : string) (i : Z) :
  computations lg nm i
  = length (filter (λ hd : string * Z * Z * option Z, hd.1.1.1 = nm ∧ hd.1.1.2 = i)
              (call_heads lg)).
Proof.
  unfold computations, call_heads.
  induction (call_log lg) as [| r l IH]; [done |].
  rewrite fmap_cons, !filter_cons.
  destruct (decide (CallRecord.array_name r = nm ∧ CallRecord.index r = i))
    as [H | H];
    destruct (decide ((call_head r).1.1.1 = nm ∧ (call_head r).1.1.2 = i))
      as [H' | H']; cbn [length]; try (by rewrite IH); by destruct (H' H) || destruct (H H').
Qed.

Lemma quiet_stack_ok (st st' : State) :
  quiet st st' → stack_ok (logger st) → stack_ok (logger st').
Proof.
  intros (_ & Hs & Hc) Hok. unfold stack_ok in *. rewrite Hs.
  by rewrite <- call_heads_length, Hc, call_heads_length.
Qed.

(** A read that returns leaves its slot resolved, with the value it
    returned. *)
Lemma getitem_returns_slot (fuel : nat) (a : nat) (i : Z) (st st1 : State) (v : Z) :
  0 ≤ i → getitem fuel a i st = (Ok v, st1) →
  slot st1 a (Z.to_nat i) = Some v.
Proof.
  intros Hi H. destruct fuel as [| fuel]; [done |]. cbn [getitem] in H.
  apply bind_Ok_inv in H as (arr & st0 & Hd & H).
  unfold log_access in H.
  apply bind_Ok_inv in H as (held & st2 & He & H).
  apply try_finally_Ok_inv in H as (st6 & Hb & Hexit).
  pose proof (log_access_exit_heap (name arr) i held st6) as Hh.
  rewrite Hexit in Hh. cbn [snd] in Hh.
  unfold slot. rewrite Hh. fold (slot st6 a (Z.to_nat i)).
  unfold getitem_body in Hb.
  apply bind_Ok_inv in Hb as (arr' & st3 & Hd' & Hb).
  apply deref_Ok_inv in Hd' as [-> Harr].
  apply bind_Ok_inv in Hb as (ev & st4 & Hl & Hb).
  apply list_getitem_Ok_inv in Hl as [-> Hev]; [| done].
  destruct ev as [v0 |].
  - cbv [ret] in Hb. injection Hb as -> <-.
    unfold slot. rewrite Harr. cbn. by rewrite Hev.
  - apply bind_Ok_inv in Hb as (value & st5 & Hnc & Hb).
    apply bind_Ok_inv in Hb as ([] & st7 & Hset & Hret).
    cbv [ret] in Hret. injection Hret as -> <-.
    by apply (set_value_Ok_inv _ _ _ _ _ Hi Hset).
Qed.

(** A read of a resolved slot, from any state with a sound call stack. *)
Lemma getitem_resolved_any (fuel : nat) (a : nat) (i : Z) (v : Z) (st : State) :
  stack_ok (logger st) → 0 ≤ i → slot st a (Z.to_nat i) = Some v →
  ∃ st', getitem (S fuel) a i st = (Ok v, st') ∧ quiet st st'.
Proof.
  intros Hok Hi Hs.
  unfold slot in Hs. destruct (heap st !! a) as [arr |] eqn:Harr; [| done].
  cbn in Hs. destruct (_values arr !! Z.to_nat i) as [ev |] eqn:Hev; [| done].
  cbn in Hs. subst ev.
  cbn [getitem]. unfold bind at 1. rewrite (deref_run _ _ _ Harr).
  unfold log_access. unfold bind at 1.
  destruct (log_access_enter_ok (name arr) i st Hok)
    as (held & st1 & Henter & Hq1 & Hheld).
  rewrite Henter. unfold try_finally.
  assert (Hbody : getitem_body (getitem fuel) a i st1 = (Ok v, st1)).
  { unfold getitem_body. unfold bind at 1.
    rewrite (deref_run st1 a arr) by (by rewrite (quiet_frame_heap _ _ Hq1)).
    unfold bind. by rewrite (list_getitem_run _ _ (Some v)). }
  rewrite Hbody.
  destruct (log_access_exit_ok (name arr) i held st1 Hheld) as (st3 & Hexit & Hq3).
  rewrite Hexit. exists st3. split; [done | by eapply quiet_trans].
Qed.

(** Any number of further reads of a resolved slot. *)
Lemma repeated_reads_resolved (fuel : nat) (a : nat) (i : Z) (v : Z) (k : nat) :
  ∀ st, stack_ok (logger st) → 0 ≤ i → slot st a (Z.to_nat i) = Some v →
    ∃ st', run_reads (S fuel) (replicate k (a, i)) st = (Ok (replicate k v), st') ∧
           quiet st st'.
Proof.
  induction k as [| k IH]; intros st Hok Hi Hs.
  - exists st. split; [done |]. by split.
  - destruct (getitem_resolved_any fuel a i v st Hok Hi Hs) as (st1 & H1 & Hq1).
    destruct (IH st1) as (st2 & H2 & Hq2).
    + by eapply quiet_stack_ok.
    + done.
    + unfold slot. by rewrite (quiet_frame_heap _ _ Hq1).
    + exists st2. split; [| by eapply quiet_trans].
      cbn [replicate run_reads]. rewrite (bind_run _ _ _ _ _ H1).
      by rewrite (bind_run _ _ _ _ _ H2).
Qed.

(** Reads that return are memoized, from any state. *)
Lemma memoization_of_returned_reads (fuel fuel' k : nat) (a : nat) (i : Z)
    (st st1 : State) (v : Z) :
  stack_ok (logger st) → 0 ≤ i →
  getitem fuel a i st = (Ok v, st1) →
  slot st1 a (Z.to_nat i) = Some v ∧
  (run_reads (S fuel') (replicate k (a, i)) st1).1 = Ok (replicate k v) ∧
  heap (run_reads (S fuel') (replicate k (a, i)) st1).2 = heap st1 ∧
  length (call_log (logger (run_reads (S fuel') (replicate k (a, i)) st1).2))
  = length (call_log (logger st1)) ∧
  ∀ nm j, computations (logger (run_reads (S fuel') (replicate k (a, i)) st1).2) nm j
          = computations (logger st1) nm j.
Proof.
  intros Hok Hi H1.
  pose proof (getitem_returns_slot fuel a i st st1 v Hi H1) as Hs.
  pose proof (framed_getitem fuel a i st) as [Hf _]. rewrite H1 in Hf. cbn [snd] in Hf.
  destruct (repeated_reads_resolved fuel' a i v k st1 (frame_stack_ok _ _ Hf Hok) Hi Hs)
    as (st2 & -> & Hh & _ & Hc).
  cbn [fst snd]. split; [done |]. split; [done |]. split; [done |]. split.
  - by rewrite <- !call_heads_length, Hc.
  - intros nm j. by rewrite !computations_heads, Hc.
Qed.

(** On a chain over two values or more every in-range read returns,
    and each computed slot has one call record. *)
Lemma memoization_on_chains (fuel : nat) (input_values : list Z)
    (w : WaveletFilters) (reads : list (nat * Z)) (a : nat) (i : Z) :
  (2 ≤ length input_values)%nat →
  (length (chain_stages w) < fuel)%nat →
  reads_in_range (S (length (chain_stages w))) (Z.of_nat (length input_values)) reads →
  (a ≤ length (chain_stages w))%nat →
  0 ≤ i < Z.of_nat (length input_values) →
  let st := (session fuel input_values w reads).2 in
  let r1 := getitem fuel a i st in
  let r2 := getitem fuel a i r1.2 in
  ∃ v nm,
    r1.1 = Ok v ∧ r2.1 = Ok v ∧
    slot r1.2 a (Z.to_nat i) = Some v ∧
    heap r2.2 = heap r1.2 ∧
    length (call_log (logger r2.2)) = length (call_log (logger r1.2)) ∧
    (∀ b j u, slot st b j = Some u → slot r1.2 b j = Some u) ∧
    name <$> heap st !! a = Some nm ∧
    computations (logger r1.2) nm i = match a with O => 0%nat | S _ => 1%nat end ∧
    computations (logger r2.2) nm i = match a with O => 0%nat | S _ => 1%nat end.
Proof.
  intros Hn Hfuel Hreads Ha Hi.
  destruct (session_returns fuel input_values w reads Hn Hfuel Hreads)
    as (ana & syn & st & HA & HS & Hst & -> & (HI & Hf0 & _) & _).
  cbn [snd]. set (D := chain_table input_values (chain_stages w)) in *.
  set (st0 := mkState AccessLogger_init (all_arrays input_values ana syn)) in *.
  assert (HD : length D = S (length (chain_stages w))) by apply chain_table_length.
  destruct (getitem_fuel_returns D (Z.of_nat (length input_values)) fuel a i st)
    as (st1 & H1 & (HI1 & Hf1 & _ & R1) & S1);
    [done | apply chain_table_lengths | lia | lia | done |].
  destruct (getitem_resolved D fuel a i (table_value D a i) st1 HI1)
    as (st2 & H2 & Hq2); [lia | lia | done |].
  rewrite H1. cbn [fst snd]. rewrite H2. cbn [fst snd].
  (* the array, in the fresh chain and in the later states *)
  pose proof (all_arrays_shape input_values ana syn) as (Hlen0 & (nm0 & Hbase) & Hlift).
  destruct (lookup_lt_is_Some_2 (heap st0) a) as [arr0 Harr0].
  { subst st0. proj. rewrite Hlen0, <- Hst. lia. }
  destruct (heap_shape_lookup st0 st a arr0 (frame_shape _ _ Hf0) Harr0)
    as (arr & Harr & Hnm & Hcls).
  destruct (heap_shape_lookup st st1 a arr (frame_shape _ _ Hf1) Harr)
    as (arr1 & Harr1 & Hnm1 & Hcls1).
  assert (Hf01 : frame st0 st1) by (by eapply frame_trans).
  assert (Hnd1 : NoDup (name <$> heap st1)).
  { rewrite (heap_shape_names st0 st1 (frame_shape _ _ Hf01)).
    by eapply all_arrays_names_NoDup. }
  assert (Hall1 : Forall (λ hd, is_Some hd.2) (call_heads (logger st1))).
  { destruct (frame_heads _ _ Hf01) as (K & -> & HK). done. }
  assert (Hcount1 : computations (logger st1) (name arr) i
                    = match a with O => 0%nat | S _ => 1%nat end).
  { rewrite <- Hnm1.
    rewrite (computations_slot D st1 a arr1 i HI1 Hall1 Hnd1 Harr1) by lia.
    rewrite S1, Hcls1, Hcls. destruct a as [| k].
    - subst st0. proj_in Harr0. rewrite Hbase in Harr0.
      injection Harr0 as <-. done.
    - destruct (lookup_lt_is_Some_2 (ana ++ syn) k) as [stage Hstage];
        [rewrite <- Hst; lia |].
      destruct (Hlift k stage Hstage) as (arr0' & Ha0 & Hc0 & _).
      subst st0. proj_in Harr0. rewrite Ha0 in Harr0. injection Harr0 as <-.
      by rewrite Hc0. }
  exists (table_value D a i), (name arr).
  split; [done |]. split; [done |]. split; [done |].
  split; [apply Hq2 |].
  destruct Hq2 as (Hh2 & Hs2 & Hc2).
  split; [by rewrite <- !call_heads_length, Hc2 |].
  split; [done |]. split; [by rewrite Harr |]. split; [done |].
  rewrite <- Hcount1.
  rewrite !computations_completed by (by rewrite ?Hc2).
  by rewrite !completed_keys_heads, Hc2.
Qed.


(** C4, as amended.  Reads that return are memoized.  From any state
    with a sound call stack, when a read of an array at an index
    [i >= 0] returns a value, the slot is resolved with that value, and
    any number of further reads of the same array and index return the
    identical value and change no slot and add no call record: the
    value computation is not invoked again, for any slot.  On a chain
    built over an input of two values or more, after any in-range
    reads, every read of an in-range slot returns, two reads of it
    return the same value, the second changes no slot and adds no call
    record, a slot that was resolved before keeps its value, and the
    call log holds exactly one call record for the slot when the array
    is a lifted one (none for the input array, which is never
    computed), after the first read as after the second. *)
Theorem memoization_idempotent :
  (∀ (fuel fuel' k : nat) (a : nat) (i : Z) (st st1 : State) (v : Z),
     stack_ok (logger st) → 0 ≤ i →
     getitem fuel a i st = (Ok v, st1) →
     slot st1 a (Z.to_nat i) = Some v ∧
     (run_reads (S fuel') (replicate k (a, i)) st1).1 = Ok (replicate k v) ∧
     heap (run_reads (S fuel') (replicate k (a, i)) st1).2 = heap st1 ∧
     length (call_log (logger (run_reads (S fuel') (replicate k (a, i)) st1).2))
     = length (call_log (logger st1)) ∧
     ∀ nm j, computations (logger (run_reads (S fuel') (replicate k (a, i)) st1).2) nm j
             = computations (logger st1) nm j) ∧
  (∀ (fuel : nat) (input_values : list Z) (w : WaveletFilters)
     (reads : list (nat * Z)) (a : nat) (i : Z),
     (2 ≤ length input_values)%nat →
     (length (chain_stages w) < fuel)%nat →
     reads_in_range (S (length (chain_stages w))) (Z.of_nat (length input_values)) reads →
     (a ≤ length (chain_stages w))%nat →
     0 ≤ i < Z.of_nat (length input_values) →
     let st := (session fuel input_values w reads).2 in
     let r1 := getitem fuel a i st in
     let r2 := getitem fuel a i r1.2 in
     ∃ v nm,
       r1.1 = Ok v ∧ r2.1 = Ok v ∧
       slot r1.2 a (Z.to_nat i) = Some v ∧
       heap r2.2 = heap r1.2 ∧
       length (call_log (logger r2.2)) = length (call_log (logger r1.2)) ∧
       (∀ b j u, slot st b j = Some u → slot r1.2 b j = Some u) ∧
       name <$> heap st !! a = Some nm ∧
       computations (logger r1.2) nm i = match a with O => 0%nat | S _ => 1%nat end ∧
       computations (logger r2.2) nm i = match a with O => 0%nat | S _ => 1%nat end).
Proof.
  split.
  - intros fuel fuel' k a i st st1 v. apply memoization_of_returned_reads.
  - intros fuel input_values w reads a i. apply memoization_on_chains.
Qed.

Lemma memoization_idempotent_witness :
  (slot (getitem 10 1 0 (session 10 [7] le_gall_5_3 []).2).2 1 (Z.to_nat 0) = Some 7 ∧
   (run_reads 3 (replicate 4 (1%nat, 0))
      (getitem 10 1 0 (session 10 [7] le_gall_5_3 []).2).2).1 = Ok (replicate 4 7) ∧
   heap (run_reads 3 (replicate 4 (1%nat, 0))
           (getitem 10 1 0 (session 10 [7] le_gall_5_3 []).2).2).2
   = heap (getitem 10 1 0 (session 10 [7] le_gall_5_3 []).2).2 ∧
   length (call_log (logger
     (run_reads 3 (replicate 4 (1%nat, 0))
        (getitem 10 1 0 (session 10 [7] le_gall_5_3 []).2).2).2))
   = length (call_log (logger (getitem 10 1 0 (session 10 [7] le_gall_5_3 []).2).2)) ∧
   ∀ nm j,
     computations (logger
       (run_reads 3 (replicate 4 (1%nat, 0))
          (getitem 10 1 0 (session 10 [7] le_gall_5_3 []).2).2).2) nm j
     = computations (logger (getitem 10 1 0 (session 10 [7] le_gall_5_3 []).2).2) nm j) ∧
  (let st := (session 10 [1; 2; 3; 4] le_gall_5_3 [(4%nat, 0); (2%nat, 3)]).2 in
   let r1 := getitem 10 4 1 st in
   let r2 := getitem 10 4 1 r1.2 in
   ∃ v nm,
     r1.1 = Ok v ∧ r2.1 = Ok v ∧
     slot r1.2 4 (Z.to_nat 1) = Some v ∧
     heap r2.2 = heap r1.2 ∧
     length (call_log (logger r2.2)) = length (call_log (logger r1.2)) ∧
     (∀ b j u, slot st b j = Some u → slot r1.2 b j = Some u) ∧
     name <$> heap st !! 4%nat = Some nm ∧
     computations (logger r1.2) nm 1 = 1%nat ∧
     computations (logger r2.2) nm 1 = 1%nat).
Proof.
  split.
  - apply (proj1 memoization_idempotent 10%nat 2%nat 4%nat 1%nat 0
             (session 10 [7] le_gall_5_3 []).2
             (getitem 10 1 0 (session 10 [7] le_gall_5_3 []).2).2 7).
    + vm_compute. constructor.
    + lia.
    + vm_compute. reflexivity.
  - apply (proj2 memoization_idempotent 10%nat [1; 2; 3; 4] le_gall_5_3
             [(4%nat, 0); (2%nat, 3)] 4%nat 1).
    + cbn. lia.
    + vm_compute. lia.
    + repeat constructor; vm_compute; congruence.
    + vm_compute. lia.
    + cbn. lia.
Defined.

(** C4, the counterexample: on the chain over the one-value input
    [[7]], index [0] is in range for the decoder output, the read
    raises [IndexError] each time it is made, and each read invokes the
    value computation again: one call record for the slot after the
    first read, two after the second. *)
Lemma memoization_one_element_counterexample :
  (getitem 10 4 0 (session 10 [7] le_gall_5_3 []).2).1 = Raise IndexError ∧
  (getitem 10 4 0 (getitem 10 4 0 (session 10 [7] le_gall_5_3 []).2).2).1
  = Raise IndexError ∧
  computations (logger (getitem 10 4 0 (session 10 [7] le_gall_5_3 []).2).2)
    "Decoder Output" 0 = 1%nat ∧
  computations
    (logger (getitem 10 4 0 (getitem 10 4 0 (session 10 [7] le_gall_5_3 []).2).2).2)
    "Decoder Output" 0 = 2%nat.
Proof. repeat split; by vm_compute. Qed.
